(** * mpnum: index layout, block-diagonal sums and random chain factories

    A shallow embedding of [mpnum/_tools.py] and [mpnum/factory.py].

    - numpy arrays are a shape together with a C-contiguous (row-major)
      buffer; every array operation is defined on that representation;
    - Python exceptions are an explicit error result;
    - the random sources ([numpy.random] and a caller-supplied
      [RandomState]) are explicit state, threaded through a small
      state-and-exception monad. *)

From Stdlib Require Import List Arith ZArith Lia Bool Permutation Sorted.
Import ListNotations.

Set Implicit Arguments.

(** ** Python exceptions *)

Inductive exn : Type :=
| AssertionError
| ZeroDivisionError
| ValueError
| IndexError
| TypeError
| StopIteration.

Inductive res (A : Type) : Type :=
| Ok (a : A)
| Raise (e : exn).

Arguments Ok {A} a.
Arguments Raise {A} e.

Definition rbind {A B : Type} (r : res A) (k : A -> res B) : res B :=
  match r with
  | Ok a => k a
  | Raise e => Raise e
  end.

Notation "x <- c1 ;; c2" := (rbind c1 (fun x => c2))
  (at level 61, c1 at next level, right associativity).

Definition is_ok {A : Type} (r : res A) : bool :=
  match r with Ok _ => true | Raise _ => false end.

(** [a % b] and [a // b] on non-negative Python ints. *)
Definition py_mod (a b : nat) : res nat :=
  if b =? 0 then Raise ZeroDivisionError else Ok (a mod b).

Definition py_floordiv (a b : nat) : res nat :=
  if b =? 0 then Raise ZeroDivisionError else Ok (a / b).

(** [range(n)] and [range(a, b)] for Python ints. *)
Definition range (n : Z) : list Z :=
  map Z.of_nat (seq 0 (Z.to_nat n)).

Definition range2 (a b : Z) : list Z :=
  map (fun k => (a + Z.of_nat k)%Z) (seq 0 (Z.to_nat (b - a))).

(** ** Element types *)

(** What the modelled code needs of a numpy dtype: the value [np.zeros]
    fills with, and addition, for which that value is neutral. *)
Class Dtype (V : Type) : Type := {
  zero : V;
  add : V -> V -> V;
  add_zero_l : forall x : V, add zero x = x
}.

#[export] Instance Dtype_Z : Dtype Z :=
  {| zero := 0%Z; add := Z.add; add_zero_l := Z.add_0_l |}.

(** ** Row-major index arithmetic *)

(** [np.prod(shape)]: the number of entries of an array of that shape. *)
Fixpoint size (sh : list nat) : nat :=
  match sh with
  | [] => 1
  | n :: sh' => n * size sh'
  end.

(** [np.ravel_multi_index] in C order. *)
Fixpoint ravel (sh idx : list nat) : nat :=
  match sh, idx with
  | _ :: sh', i :: idx' => i * size sh' + ravel sh' idx'
  | _, _ => 0
  end.

(** [np.unravel_index] in C order. *)
Fixpoint unravel (sh : list nat) (k : nat) : list nat :=
  match sh with
  | [] => []
  | _ :: sh' => (k / size sh') :: unravel sh' (k mod size sh')
  end.

(** A multi-index addresses an entry of an array of shape [sh]. *)
Definition in_range (sh idx : list nat) : Prop := Forall2 lt idx sh.

Fixpoint in_rangeb (sh idx : list nat) : bool :=
  match sh, idx with
  | [], [] => true
  | n :: sh', i :: idx' => (i <? n) && in_rangeb sh' idx'
  | _, _ => false
  end.

(** Position of the first occurrence of [x] in [l] ([length l] when absent). *)
Fixpoint index_of (x : nat) (l : list nat) : nat :=
  match l with
  | [] => 0
  | y :: l' => if x =? y then 0 else S (index_of x l')
  end.

Fixpoint nodupb (l : list nat) : bool :=
  match l with
  | [] => true
  | x :: l' => negb (existsb (Nat.eqb x) l') && nodupb l'
  end.

(** All-or-nothing map. *)
Fixpoint mapM_opt {A B : Type} (f : A -> option B) (l : list A) : option (list B) :=
  match l with
  | [] => Some []
  | x :: l' =>
      match f x, mapM_opt f l' with
      | Some y, Some ys => Some (y :: ys)
      | _, _ => None
      end
  end.

(** ** numpy arrays *)

Section Ndarray.

Context {V : Type} `{Dtype V}.

Record ndarray : Type := mk_ndarray {
  shape : list nat;
  data : list V
}.

Definition ndim (a : ndarray) : nat := length (shape a).

(** Representation invariant: the buffer holds one value per index. *)
Definition wf (a : ndarray) : Prop := length (data a) = size (shape a).

(** [a[idx]] for a full multi-index. *)
Definition item (a : ndarray) (idx : list nat) : V :=
  nth (ravel (shape a) idx) (data a) zero.

(** The array of shape [sh] whose entry at [idx] is [f idx]. *)
Definition tabulate (sh : list nat) (f : list nat -> V) : ndarray :=
  {| shape := sh;
     data := map (fun k => f (unravel sh k)) (seq 0 (size sh)) |}.

(** [np.zeros(shape)] *)
Definition np_zeros (sh : list nat) : ndarray :=
  tabulate sh (fun _ => zero).

(** Resolution of a possibly negative axis number against [n] axes. *)
Definition norm_axis (n : nat) (ax : Z) : option nat :=
  if ((0 <=? ax) && (ax <? Z.of_nat n))%Z then Some (Z.to_nat ax)
  else if ((- Z.of_nat n <=? ax) && (ax <? 0))%Z then Some (Z.to_nat (ax + Z.of_nat n))
  else None.

(** The transposed array for axes already resolved: axis [k] of the
    result is axis [axes[k]] of [a]. *)
Definition permute_axes (a : ndarray) (axes : list nat) : ndarray :=
  tabulate (map (fun ax => nth ax (shape a) 0) axes)
           (fun idx => item a (map (fun j => nth (index_of j axes) idx 0)
                                   (seq 0 (ndim a)))).

(** [np.transpose(a, axes)]: fails unless [axes] is a permutation of the
    axes of [a]. *)
Definition transpose (a : ndarray) (axes : list Z) : res ndarray :=
  if negb (length axes =? ndim a) then Raise ValueError
  else match mapM_opt (norm_axis (ndim a)) axes with
       | None => Raise ValueError
       | Some ax => if nodupb ax then Ok (permute_axes a ax)
                    else Raise ValueError
       end.

(** *** [_tools.global_to_local] *)

Definition gtl_order (plegs sites : nat) : list Z :=
  map (fun i => Z.of_nat (i / plegs + sites * (i mod plegs)))
      (seq 0 (plegs * sites)).

Definition global_to_local (array : ndarray) (sites : nat) : res ndarray :=
  r <- py_mod (ndim array) sites ;;
  if negb (r =? 0) then Raise AssertionError
  else
    plegs <- py_floordiv (ndim array) sites ;;
    transpose array (gtl_order plegs sites).

(** *** [_tools.local_to_global] *)

Definition ltg_order (nd : nat) (plegs : Z) (sites left_skip right_skip : nat)
  : list Z :=
  range (Z.of_nat left_skip)
  ++ flat_map (fun j => map (fun i => (Z.of_nat left_skip + plegs * i + j)%Z)
                            (range (Z.of_nat sites)))
              (range plegs)
  ++ range2 (Z.of_nat nd - Z.of_nat right_skip) (Z.of_nat nd).

Definition local_to_global (array : ndarray) (sites left_skip right_skip : nat)
  : res ndarray :=
  let skip := left_skip + right_skip in
  let nd := (Z.of_nat (ndim array) - Z.of_nat skip)%Z in
  if sites =? 0 then Raise ZeroDivisionError
  else if negb (nd mod Z.of_nat sites =? 0)%Z then Raise AssertionError
  else
    let plegs := (nd / Z.of_nat sites)%Z in
    transpose array (ltg_order (ndim array) plegs sites left_skip right_skip).

(** *** [np.trace] and [_tools.partial_trace] *)

Fixpoint sum_to (n : nat) (f : nat -> V) : V :=
  match n with
  | 0 => zero
  | S m => add (sum_to m f) (f m)
  end.

(** The shape without the axes [a1] and [a2]. *)
Definition remove_axes (a1 a2 : nat) (sh : list nat) : list nat :=
  map snd (filter (fun p => negb ((fst p =? a1) || (fst p =? a2)))
                  (combine (seq 0 (length sh)) sh)).

(** The index into the traced array that has [d] on the axes [a1] and
    [a2] and the entries of [idx] elsewhere, in order. *)
Definition trace_index (a1 a2 d n : nat) (idx : list nat) : list nat :=
  map (fun j => if (j =? a1) || (j =? a2) then d
                else nth (j - (if a1 <? j then 1 else 0)
                            - (if a2 <? j then 1 else 0)) idx 0)
      (seq 0 n).

Definition np_trace (a : ndarray) (axis1 axis2 : Z) : res ndarray :=
  match norm_axis (ndim a) axis1, norm_axis (ndim a) axis2 with
  | Some a1, Some a2 =>
      if a1 =? a2 then Raise ValueError
      else
        let n := Nat.min (nth a1 (shape a) 0) (nth a2 (shape a) 0) in
        Ok (tabulate (remove_axes a1 a2 (shape a))
              (fun idx => sum_to n (fun d =>
                 item a (trace_index a1 a2 d (ndim a) idx))))
  | _, _ => Raise ValueError
  end.

(** The recursion of [partial_trace] peels [traceout[-1]] and goes on
    with [traceout[:-1]]: it runs over the reversed list. *)
Fixpoint partial_trace_rev (array : ndarray) (rtraceout : list Z)
  : res ndarray :=
  match rtraceout with
  | [] => Ok array
  | t :: rest =>
      let sites := ndim array / 2 in
      let rem := ndim array mod 2 in
      if negb (rem =? 0) then Raise AssertionError
      else
        array_red <- np_trace array t (t + Z.of_nat sites) ;;
        partial_trace_rev array_red rest
  end.

Definition partial_trace (array : ndarray) (traceout : list Z) : res ndarray :=
  partial_trace_rev array (rev traceout).

(** *** [_tools.block_diag] *)

Fixpoint map2 {A B C : Type} (f : A -> B -> C) (l1 : list A) (l2 : list B)
  : list C :=
  match l1, l2 with
  | x :: l1', y :: l2' => f x y :: map2 f l1' l2'
  | _, _ => []
  end.

Fixpoint mapM_res {A B : Type} (f : A -> res B) (l : list A) : res (list B) :=
  match l with
  | [] => Ok []
  | x :: l' =>
      y <- f x ;;
      ys <- mapM_res f l' ;;
      Ok (y :: ys)
  end.

(** [axes += (axes < 0) * ndim] *)
Definition resolve_axes (nd : nat) (axes : list Z) : list Z :=
  map (fun a => if (a <? 0)%Z then (a + Z.of_nat nd)%Z else a) axes.

(** [list(axes) + [i for i in range(ndim) if i not in axes]] *)
Definition bd_axes_order (nd : nat) (axes : list Z) : list Z :=
  axes ++ filter (fun i => negb (existsb (Z.eqb i) axes))
                 (range (Z.of_nat nd)).

(** [shapes.sum(axis=0)] for [nr] columns. *)
Definition col_sums (nr : nat) (shapes : list (list nat)) : list nat :=
  fold_left (map2 Nat.add) shapes (repeat 0 nr).

(** In-place broadcasting: an operand of shape [src] can be added into
    an array of shape [dst]. *)
Fixpoint forallb2 {A B : Type} (f : A -> B -> bool) (l1 : list A) (l2 : list B)
  : bool :=
  match l1, l2 with
  | [], [] => true
  | x :: l1', y :: l2' => f x y && forallb2 f l1' l2'
  | _, _ => false
  end.

Definition bcast_ok (src dst : list nat) : bool :=
  (length src <=? length dst) &&
  forallb2 (fun s d => (s =? d) || (s =? 1)) src
           (skipn (length dst - length src) dst).

(** The entry of the operand that is added at [idx] of the target. *)
Definition bcast_idx (src idx : list nat) : list nat :=
  map2 (fun s i => if s =? 1 then 0 else i) src
       (skipn (length idx - length src) idx).

(** [slice(start, stop)] on an axis of extent [n]: both ends are
    clipped to the extent. *)
Definition slice_clip (n : nat) (p : nat * nat) : nat * nat :=
  (Nat.min (fst p) n, Nat.min (snd p) n).

(** The slices [pos], clipped to the leading axes of an array of shape
    [sh]. *)
Definition clip_slices (sh : list nat) (pos : list (nat * nat))
  : list (nat * nat) :=
  map2 (fun p n => slice_clip n p) pos sh.

(** The shape of [res[pos]] for clipped slices [cpos] on the leading
    axes. *)
Definition view_shape (sh : list nat) (cpos : list (nat * nat)) : list nat :=
  map (fun c => snd c - fst c) cpos ++ skipn (length cpos) sh.

(** [idx] lies in the region that the clipped slices select. *)
Definition inside (cpos : list (nat * nat)) (idx : list nat) : bool :=
  forallb2 (fun c i => (fst c <=? i) && (i <? snd c))
           cpos (firstn (length cpos) idx).

(** The index relative to the region's corner. *)
Definition rel_idx (cpos : list (nat * nat)) (idx : list nat) : list nat :=
  map2 (fun c i => i - fst c) cpos idx ++ skipn (length cpos) idx.

(** [res[pos] += array] for the list [pos] of slices.  A non-empty list
    of slices indexes like the tuple of them; the empty list is an
    (empty) index array and selects no rows. *)
Definition iadd_slices (r : ndarray) (pos : list (nat * nat)) (array : ndarray)
  : res ndarray :=
  match pos with
  | [] =>
      match shape r with
      | [] => Raise IndexError
      | _ :: sh' =>
          if bcast_ok (shape array) (0 :: sh') then Ok r
          else Raise ValueError
      end
  | _ :: _ =>
      if ndim r <? length pos then Raise IndexError
      else
        let cpos := clip_slices (shape r) pos in
        if bcast_ok (shape array) (view_shape (shape r) cpos) then
          Ok (tabulate (shape r) (fun idx =>
                if inside cpos idx
                then add (item r idx)
                         (item array (bcast_idx (shape array)
                                        (rel_idx cpos idx)))
                else item r idx))
        else Raise ValueError
  end.

(** The loop of [block_diag] over [zip(summands, shapes)], with the
    state [(res, startpos)]. *)
Fixpoint bd_loop (r : ndarray) (startpos : list nat)
         (l : list (ndarray * list nat)) : res ndarray :=
  match l with
  | [] => Ok r
  | (array, shp) :: l' =>
      let endpos := map2 Nat.add startpos shp in
      let pos := combine startpos endpos in
      r' <- iadd_slices r pos array ;;
      bd_loop r' endpos l'
  end.

(** [np.argsort]: the positions of the entries in ascending order of
    value (insertion sort on the pairs of a value and its position). *)
Fixpoint insert_by (p : Z * nat) (l : list (Z * nat)) : list (Z * nat) :=
  match l with
  | [] => [p]
  | q :: l' => if (fst p <=? fst q)%Z then p :: l else q :: insert_by p l'
  end.

Definition argsort (l : list Z) : list nat :=
  map snd (fold_right insert_by [] (combine l (seq 0 (length l)))).

Definition block_diag (summands : list ndarray) (axes : list Z) : res ndarray :=
  match summands with
  | [] => Raise IndexError
  | first :: _ =>
      let axes := resolve_axes (ndim first) axes in
      let nr_axes := length axes in
      let axes_order := bd_axes_order (ndim first) axes in
      summands <- mapM_res (fun array => transpose array axes_order) summands ;;
      let shapes := map (fun array => firstn nr_axes (shape array)) summands in
      let r := np_zeros (col_sums nr_axes shapes
                         ++ skipn nr_axes (shape (hd first summands))) in
      let startpos := repeat 0 nr_axes in
      r <- bd_loop r startpos (combine summands shapes) ;;
      let old_axes_order := argsort axes_order in
      transpose r (map Z.of_nat old_axes_order)
  end.

End Ndarray.

Arguments ndarray V : clear implicits.

(** ** Numeric content *)

(** The scalar operations of the complex dtype that the factories use. *)
Class Numeric (V : Type) : Type := {
  mul : V -> V -> V;
  div : V -> V -> V;
  conj : V -> V;
  sqrt : V -> V;
  absv : V -> V;
  imag_unit : V;
  two : V
}.

Section NumpyNumeric.

Context {V : Type} `{Dtype V} `{Numeric V}.

Definition ewise (f : V -> V) (a : ndarray V) : ndarray V :=
  {| shape := shape a; data := map f (data a) |}.

(** Element-wise binary operation; at every call site the two arrays
    have one shape. *)
Definition ewise2 (f : V -> V -> V) (a b : ndarray V) : res (ndarray V) :=
  if list_eq_dec Nat.eq_dec (shape a) (shape b)
  then Ok {| shape := shape a; data := map2 f (data a) (data b) |}
  else Raise ValueError.

Definition np_sum (a : ndarray V) : V := fold_left add (data a) zero.

(** [np.vdot(a, b)] *)
Definition np_vdot (a b : ndarray V) : res V :=
  if length (data a) =? length (data b)
  then Ok (fold_left add (map2 (fun x y => mul (conj x) y) (data a) (data b))
                     zero)
  else Raise ValueError.

(** [_tools.norm_2] *)
Definition norm_2 (x : ndarray V) : res V :=
  v <- np_vdot x x ;; Ok (sqrt v).

(** [a.reshape(sh)] *)
Definition reshape (a : ndarray V) (sh : list nat) : res (ndarray V) :=
  if size sh =? length (data a) then Ok {| shape := sh; data := data a |}
  else Raise ValueError.

(** [np.transpose(a)] and [a.T]: the axes reversed. *)
Definition transpose_rev (a : ndarray V) : ndarray V :=
  permute_axes a (rev (seq 0 (ndim a))).

(** [a.swapaxes(i, j)] *)
Definition swapaxes (a : ndarray V) (i j : nat) : res (ndarray V) :=
  if (i <? ndim a) && (j <? ndim a)
  then Ok (permute_axes a
             (map (fun k => if k =? i then j else if k =? j then i else k)
                  (seq 0 (ndim a))))
  else Raise ValueError.

(** [_tools.matdot] with its default axes: [np.tensordot] over the last
    axis of [A] and the first axis of [B]. *)
Definition matdot (A B : ndarray V) : res (ndarray V) :=
  match rev (shape A), shape B with
  | n :: rA, m :: sB =>
      if n =? m
      then Ok (tabulate (rev rA ++ sB) (fun idx =>
                 sum_to n (fun k =>
                   mul (item A (firstn (length rA) idx ++ [k]))
                       (item B (k :: skipn (length rA) idx)))))
      else Raise ValueError
  | _, _ => Raise ValueError
  end.

(** [a.dot(b)] for matrices. *)
Definition np_dot (a b : ndarray V) : res (ndarray V) :=
  if (ndim a =? 2) && (ndim b =? 2) then matdot a b else Raise ValueError.

(** [np.trace(a)] of a matrix, a scalar. *)
Definition np_trace2 (a : ndarray V) : res V :=
  t <- np_trace a 0 1 ;; Ok (item t []).

(** [np.diagonal(r)] of a matrix. *)
Definition np_diagonal (r : ndarray V) : res (ndarray V) :=
  match shape r with
  | [n; m] => Ok (tabulate [Nat.min n m]
                    (fun idx => item r [hd 0 idx; hd 0 idx]))
  | _ => Raise ValueError
  end.

(** [q * ph] for a matrix [q] and a vector [ph], with numpy's
    broadcasting of the vector along the rows: column [j] is scaled by
    [ph[j]]. *)
Definition mul_columns (q ph : ndarray V) : res (ndarray V) :=
  match shape q, shape ph with
  | [n; m], [m'] =>
      if (m' =? m) || (m' =? 1) || (m =? 1)
      then Ok (tabulate [n; Nat.max m m'] (fun idx =>
                 mul (item q [nth 0 idx 0;
                              if m =? 1 then 0 else nth 1 idx 0])
                     (item ph [if m' =? 1 then 0 else nth 1 idx 0])))
      else Raise ValueError
  | _, _ => Raise ValueError
  end.

End NumpyNumeric.

(** ** Random sources *)

(** A generator state of type [G] yields one standard-normal draw
    ([gauss]) or one uniform draw ([uniform]) and its next state. *)
Class Generator (V G : Type) : Type := {
  gauss : G -> V * G;
  uniform : G -> V * G
}.

(** The two sources a routine can draw from: the module [numpy.random]
    and the [RandomState] instance the caller supplied. *)
Inductive source : Type := NpRandom | Supplied.

Record world (G : Type) : Type := mk_world {
  np_random : G;
  supplied : G
}.

Definition get_src {G : Type} (src : source) (w : world G) : G :=
  match src with
  | NpRandom => np_random w
  | Supplied => supplied w
  end.

Definition set_src {G : Type} (src : source) (s : G) (w : world G) : world G :=
  match src with
  | NpRandom => {| np_random := s; supplied := supplied w |}
  | Supplied => {| np_random := np_random w; supplied := s |}
  end.

(** Computations that may draw and may raise. *)
Definition M (G A : Type) : Type := world G -> res A * world G.

Definition ret {G A : Type} (a : A) : M G A := fun w => (Ok a, w).

Definition bind {G A B : Type} (m : M G A) (k : A -> M G B) : M G B :=
  fun w => match m w with
           | (Ok a, w') => k a w'
           | (Raise e, w') => (Raise e, w')
           end.

Definition lift {G A : Type} (r : res A) : M G A := fun w => (r, w).

Notation "x <~ c1 ;; c2" := (bind c1 (fun x => c2))
  (at level 61, c1 at next level, right associativity).

Fixpoint mapM {G A B : Type} (f : A -> M G B) (l : list A) : M G (list B) :=
  match l with
  | [] => ret []
  | x :: l' =>
      y <~ f x ;;
      ys <~ mapM f l' ;;
      ret (y :: ys)
  end.

(** [n] successive draws. *)
Fixpoint draw {V G : Type} (one : G -> V * G) (n : nat) (s : G) : list V * G :=
  match n with
  | 0 => ([], s)
  | S m =>
      let (x, s1) := one s in
      let (xs, s2) := draw one m s1 in
      (x :: xs, s2)
  end.

(** Leg specifications are dynamically typed: an int, or a sequence. *)
#[warnings="-register-all"]
Inductive pyval : Type :=
| PInt (n : nat)
| PSeq (l : list pyval).

(** [hasattr(x, '__iter__')] *)
Definition has_iter (x : pyval) : bool :=
  match x with PInt _ => false | PSeq _ => true end.

(** [tuple(x)] *)
Definition tuple (x : pyval) : res (list pyval) :=
  match x with PInt _ => Raise TypeError | PSeq l => Ok l end.

(** A tuple is a shape only if all its entries are ints. *)
Definition as_int (x : pyval) : option nat :=
  match x with PInt n => Some n | PSeq _ => None end.

(** ** The chain algebra, an external collaborator *)

(** Modelled from the spec: the chain type of [mpnum.mparray] is an
    ordered sequence of local tensors, each shaped
    [(bond_left, pleg..., bond_right)]; constructing one from the list
    of its local tensors keeps that list. *)
Definition chain (V : Type) : Type := list (ndarray V).

Definition MPArray {V : Type} (ltens : list (ndarray V)) : chain V := ltens.

(** Modelled from the spec: the queryable bond dimensions of a chain,
    the left bond of every local tensor but the first. *)
Definition bdims {V : Type} (c : chain V) : list nat :=
  map (fun t => hd 0 (shape t)) (tl c).

(** The operations of [mpnum.mparray], [mpnum.mpsmpo] and
    [scipy.linalg] that the factories call. *)
Class ChainAlgebra (V : Type) : Type := {
  mp_norm : chain V -> res V;
  mp_itruediv : chain V -> V -> res (chain V);
  mp_mul : chain V -> V -> res (chain V);
  mp_add : chain V -> chain V -> res (chain V);
  mp_trace : chain V -> res V;
  mps_as_mpo : chain V -> res (chain V);
  from_array : ndarray V -> nat -> res (chain V);
  local_sum : list (chain V) -> res (chain V);
  qr : ndarray V -> res (ndarray V * ndarray V)
}.

(** ** [mpnum/factory.py] *)

Section Factory.

Context {V G : Type} `{Dtype V} `{Numeric V} `{Generator V G}
        `{ChainAlgebra V}.

(** [randstate.randn] with the entries of [sh] as arguments. *)
Definition randn (src : source) (sh : list nat) : M G (ndarray V) :=
  fun w =>
    let (xs, s') := draw gauss (size sh) (get_src src w) in
    (Ok {| shape := sh; data := xs |}, set_src src s' w).

(** [randstate.rand(n)] on a source. *)
Definition rand (src : source) (n : nat) : M G (ndarray V) :=
  fun w =>
    let (xs, s') := draw uniform n (get_src src w) in
    (Ok {| shape := [n]; data := xs |}, set_src src s' w).

Definition _zrandn (shape : list nat) (randstate : option source)
  : M G (ndarray V) :=
  let randstate := match randstate with
                   | Some r => r
                   | None => NpRandom
                   end in
  re <~ randn randstate shape ;;
  im <~ randn randstate shape ;;
  lift (ewise2 add re (ewise (mul imag_unit) im)).

Definition random_vec (sites ldim : nat) (randstate : option source)
  : M G (ndarray V) :=
  let shape := repeat ldim sites in
  psi <~ _zrandn shape randstate ;;
  lift (v <- np_vdot psi psi ;;
        Ok (ewise (fun x => div x (sqrt v)) psi)).

Definition random_op (sites ldim : nat) (hermitian normalized : bool)
           (randstate : option source) : M G (ndarray V) :=
  op <~ _zrandn (repeat (ldim ^ sites) 2) randstate ;;
  lift (op <- (if hermitian
               then ewise2 add op (ewise conj (transpose_rev op))
               else Ok op) ;;
        op <- (if normalized
               then n <- norm_2 op ;; Ok (ewise (fun x => div x n) op)
               else Ok op) ;;
        reshape op (repeat ldim (2 * sites))).

Definition random_state (sites ldim : nat) (randstate : option source)
  : M G (ndarray V) :=
  let shape := [ldim ^ sites; ldim ^ sites] in
  mat <~ _zrandn shape randstate ;;
  lift (rho <- np_dot (ewise conj (transpose_rev mat)) mat ;;
        t <- np_trace2 rho ;;
        reshape (ewise (fun x => div x t) rho) (repeat ldim (2 * sites))).

(** The element factories of this module, [np.zeros] and [randn], on a
    tuple [shape]: they take a tuple of ints and raise [TypeError] on
    any other entry, before anything is drawn. *)
Definition with_int_shape (func : list nat -> M G (ndarray V))
           (shape : list pyval) : M G (ndarray V) :=
  match mapM_opt as_int shape with
  | Some sh => func sh
  | None => lift (Raise TypeError)
  end.

Definition _generate (sites : nat) (ldim : pyval) (bdim : nat)
           (func : list pyval -> M G (ndarray V)) : M G (chain V) :=
  if negb (1 <? sites) then lift (Raise AssertionError)
  else
    let ldim := if has_iter ldim
                then match ldim with PSeq l => l | PInt _ => [] end
                else [ldim] in
    match ldim with
    | [] => lift (Raise IndexError)
    | ldim0 :: ldim_rest =>
        if negb (has_iter ldim0) then
          ltens_l <~ func ([PInt 1] ++ ldim ++ [PInt bdim]) ;;
          ltenss <~ mapM (fun _ => func
                                     ([PInt bdim] ++ ldim ++ [PInt bdim]))
                         (seq 0 (sites - 2)) ;;
          ltens_r <~ func ([PInt bdim] ++ ldim ++ [PInt 1]) ;;
          ret (MPArray ([ltens_l] ++ ltenss ++ [ltens_r]))
        else
          (* [ldim_iter] has yielded [ldim0]; [zip] takes at most
             [sites - 2] further entries and leaves the rest *)
          ld <~ lift (tuple ldim0) ;;
          ltens_l <~ func ([PInt 1] ++ ld ++ [PInt bdim]) ;;
          ltenss <~ mapM (fun ld => ld <~ lift (tuple ld) ;;
                                    func
                                      ([PInt bdim] ++ ld ++ [PInt bdim]))
                         (firstn (sites - 2) ldim_rest) ;;
          match skipn (sites - 2) ldim_rest with
          | [] => lift (Raise StopIteration)
          | ldim_last :: _ =>
              ld <~ lift (tuple ldim_last) ;;
              ltens_r <~ func ([PInt bdim] ++ ld ++ [PInt 1]) ;;
              ret (MPArray ([ltens_l] ++ ltenss ++ [ltens_r]))
          end
    end.

Definition random_mpa (sites : nat) (ldim : pyval) (bdim : nat)
           (randstate : option source) : M G (chain V) :=
  _generate sites ldim bdim
    (with_int_shape (fun shape => _zrandn shape randstate)).

Definition zero_mpa (sites : nat) (ldim : pyval) (bdim : nat) : M G (chain V) :=
  _generate sites ldim bdim
    (with_int_shape (fun shape => ret (np_zeros shape))).

Definition random_mpo (sites ldim bdim : nat) (randstate : option source)
           (hermitian normalized : bool) : M G (chain V) :=
  mpo <~ random_mpa sites (PSeq [PInt ldim; PInt ldim]) bdim randstate ;;
  lift (mpo <- (if hermitian
                then mapM_res (fun lten =>
                       sw <- swapaxes lten 1 2 ;;
                       ewise2 add lten (ewise conj sw)) mpo
                else Ok mpo) ;;
        if normalized
        then n <- mp_norm mpo ;; mp_itruediv mpo n
        else Ok mpo).

Definition random_mps (sites : nat) (ldim : pyval) (bdim : nat)
           (randstate : option source) : M G (chain V) :=
  mps <~ random_mpa sites ldim bdim randstate ;;
  lift (n <- mp_norm mps ;; mp_itruediv mps n).

Definition _gue (dim : nat) (randstate : option source) : M G (ndarray V) :=
  z0 <~ _zrandn [dim; dim] None ;;
  lift (let z := ewise (fun x => div x (sqrt two)) z0 in
        qr_ <- qr z ;;
        d <- np_diagonal (snd qr_) ;;
        let ph := ewise (fun x => div x (absv x)) d in
        mul_columns (fst qr_) ph).

(** [ft.reduce(mp.MPArray.__add__, ...)] over the lazily produced
    weighted terms. *)
Fixpoint reduce_terms (acc : chain V) (l : list (V * chain V))
  : res (chain V) :=
  match l with
  | [] => Ok acc
  | (weight, psi) :: l' =>
      o <- mps_as_mpo psi ;;
      t <- mp_mul o weight ;;
      acc' <- mp_add acc t ;;
      reduce_terms acc' l'
  end.

(** [rho[n] = x] *)
Fixpoint set_item (rho : chain V) (n : nat) (x : ndarray V) : res (chain V) :=
  match rho, n with
  | [], _ => Raise IndexError
  | _ :: rho', 0 => Ok (x :: rho')
  | y :: rho', S m => r <- set_item rho' m x ;; Ok (y :: r)
  end.

Definition get_item (rho : chain V) (n : nat) : res (ndarray V) :=
  match nth_error rho n with
  | Some x => Ok x
  | None => Raise IndexError
  end.

(** The scrambling loop of [random_mpdo] over [enumerate(rho.bdims)]. *)
Fixpoint scramble (rho : chain V) (l : list (nat * nat))
         (randstate : option source) : M G (chain V) :=
  match l with
  | [] => ret rho
  | (n, bdim) :: l' =>
      unitary <~ _gue bdim randstate ;;
      rho <~ lift (a <- get_item rho n ;;
                   a <- matdot a unitary ;;
                   rho <- set_item rho n a ;;
                   b <- get_item rho (n + 1) ;;
                   b <- matdot (ewise conj (transpose_rev unitary)) b ;;
                   set_item rho (n + 1) b) ;;
      scramble rho l' randstate
  end.

Definition random_mpdo (sites : nat) (ldim : pyval) (bdim : nat)
           (randstate : option source) : M G (chain V) :=
  psis <~ mapM (fun _ => random_mps sites ldim 1 randstate) (seq 0 bdim) ;;
  x <~ rand NpRandom bdim ;;
  let weights := ewise (fun v => div v (np_sum x)) x in
  rho <~ lift (match combine (data weights) psis with
               | [] => Raise TypeError
               | (weight, psi) :: l =>
                   o <- mps_as_mpo psi ;;
                   t <- mp_mul o weight ;;
                   reduce_terms t l
               end) ;;
  rho <~ scramble rho (combine (seq 0 (length (bdims rho))) (bdims rho))
                  randstate ;;
  lift (t <- mp_trace rho ;; mp_itruediv rho t).

Definition random_local_ham (sites ldim intlen : nat)
           (randstate : option source) : M G (chain V) :=
  let get_local_ham : M G (chain V) :=
    op <~ random_op intlen ldim true true None ;;
    lift (op <- global_to_local op intlen ;; from_array op 2) in
  if negb (intlen <=? sites) then lift (Raise AssertionError)
  else
    local_hams <~ mapM (fun _ => get_local_ham)
                       (seq 0 (sites + 1 - intlen)) ;;
    lift (local_sum local_hams).

End Factory.

(** [np.arange(lo, lo + n).reshape(shape)] *)
Definition arange_reshape (lo : Z) (sh : list nat) : ndarray Z :=
  {| shape := sh;
     data := map (fun k => (lo + Z.of_nat k)%Z) (seq 0 (size sh)) |}.

(** Nested-list view of a three-dimensional array, for display. *)
Definition tolist3 (a : ndarray Z) : list (list (list Z)) :=
  match shape a with
  | [n0; n1; n2] =>
      map (fun i => map (fun j => map (fun k => item a [i; j; k]) (seq 0 n2))
                        (seq 0 n1)) (seq 0 n0)
  | _ => []
  end.

(** ** Vocabulary of the statements *)

(** [ax] lists every axis number below [n] exactly once. *)
Definition is_perm (n : nat) (ax : list nat) : Prop :=
  length ax = n /\ NoDup ax /\ Forall (fun a => a < n) ax.

(** The permutation of [global_to_local] and the one of
    [local_to_global] without skips, as lists of axis numbers. *)
Definition gtl_perm (plegs sites : nat) : list nat :=
  map (fun i => i / plegs + sites * (i mod plegs)) (seq 0 (plegs * sites)).

Definition ltg_perm (plegs sites : nat) : list nat :=
  map (fun k => plegs * (k mod sites) + k / sites) (seq 0 (plegs * sites)).

(** Leg specifications of the three documented forms: an int, a
    sequence of ints, a sequence of sequences of ints. *)
Definition flat (l : list nat) : pyval := PSeq (map PInt l).

Definition nested (ll : list (list nat)) : pyval := PSeq (map flat ll).

(** The physical legs that [_generate] gives to site [i] for a leg
    specification: [(n,)] for the int [n], the whole sequence for a
    sequence of ints, the [i]-th entry for a sequence of sequences. *)
Inductive site_legs (sites : nat) : pyval -> (nat -> list nat) -> Prop :=
| legs_scalar (n : nat) :
    site_legs sites (PInt n) (fun _ => [n])
| legs_flat (l : list nat) :
    l <> [] -> site_legs sites (flat l) (fun _ => l)
| legs_nested (ll : list (list nat)) :
    sites <= length ll -> site_legs sites (nested ll) (fun i => nth i ll []).

(** The shape [(bond_left, legs..., bond_right)] of the local tensor of
    site [i] in a chain of [sites] sites with bond dimension [bdim]. *)
Definition local_shape (sites bdim : nat) (legs : list nat) (i : nat)
  : list nat :=
  (if i =? 0 then 1 else bdim) :: legs
  ++ [if i =? sites - 1 then 1 else bdim].

Definition chain_shapes {V : Type} (sites bdim : nat) (legs : nat -> list nat)
           (c : chain V) : Prop :=
  length c = sites /\
  forall i t, nth_error c i = Some t ->
              shape t = local_shape sites bdim (legs i) i.

(** An element factory that returns an array of the requested shape,
    for every shape that is a tuple of ints. *)
Definition func_ok {V G : Type} (func : list pyval -> M G (ndarray V)) : Prop :=
  forall sh w, exists a w', func (map PInt sh) w = (Ok a, w') /\ shape a = sh.

(** An element factory that does not fail on a tuple of ints. *)
Definition func_returns {V G : Type} (func : list pyval -> M G (ndarray V))
  : Prop :=
  forall sh w, exists a w', func (map PInt sh) w = (Ok a, w').

(** A world for closed examples: the generator state is immaterial. *)
Definition w0 : world unit := {| np_random := tt; supplied := tt |}.

(** A leg specification of one of the three documented forms. *)
Definition well_typed (ldim : pyval) : Prop :=
  (exists n, ldim = PInt n) \/ (exists l, ldim = flat l)
  \/ (exists ll, ldim = nested ll).

(** The source that [src] is not. *)
Definition other (src : source) : source :=
  match src with NpRandom => Supplied | Supplied => NpRandom end.

(** The computation [m] is a deterministic function of the source [src]
    alone: its result and the state in which it leaves [src] depend on
    the world only through the state of [src], and it leaves the other
    source as it found it. *)
Definition uses_only {G A : Type} (src : source) (m : M G A) : Prop :=
  (forall w1 w2, get_src src w1 = get_src src w2 ->
     fst (m w1) = fst (m w2) /\
     get_src src (snd (m w1)) = get_src src (snd (m w2))) /\
  (forall w, get_src (other src) (snd (m w)) = get_src (other src) w).

(** The source that a [randstate] argument designates. *)
Definition designated (randstate : option source) : source :=
  match randstate with Some r => r | None => NpRandom end.

(** What the loop of [block_diag] leaves at the index [idx] of a result
    that held [v] there: every summand whose region contains [idx] has
    added its entry. *)
Fixpoint bd_value {V : Type} `{Dtype V} (l : list (ndarray V * list nat))
         (startpos : list nat) (v : V) (idx : list nat) : V :=
  match l with
  | [] => v
  | (array, shp) :: l' =>
      let endpos := map2 Nat.add startpos shp in
      let pos := combine startpos endpos in
      bd_value l' endpos
        (if inside pos idx
         then add v (item array (bcast_idx (shape array) (rel_idx pos idx)))
         else v)
        idx
  end.

(** The axes that [block_diag] does not list, in ascending order, and
    the order [axes_order] in which it arranges all axes. *)
Definition other_axes (n : nat) (ax : list nat) : list nat :=
  filter (fun i => negb (existsb (Nat.eqb i) ax)) (seq 0 n).

Definition bd_perm (n : nat) (ax : list nat) : list nat :=
  ax ++ other_axes n ax.

(** [axes] is a non-empty list of distinct axes of a tensor of rank [n],
    negative numbers counting from the end; [ax] lists them resolved. *)
Definition valid_axes (n : nat) (axes : list Z) (ax : list nat) : Prop :=
  mapM_opt (norm_axis n) axes = Some ax /\ NoDup ax /\ ax <> [].

(** The extents of an array on the listed axes, and on the others. *)
Definition listed {V : Type} (ax : list nat) (a : ndarray V) : list nat :=
  map (fun j => nth j (shape a) 0) ax.

Definition unlisted {V : Type} (n : nat) (ax : list nat) (a : ndarray V)
  : list nat :=
  map (fun j => nth j (shape a) 0) (other_axes n ax).

(** The extent of the block-diagonal sum on axis [j]: the sum of the
    summands' extents on a listed axis, the extent of the first summand
    on any other. *)
Definition bd_extent {V : Type} (summands : list (ndarray V)) (ax : list nat)
           (first : ndarray V) (j : nat) : nat :=
  if existsb (Nat.eqb j) ax
  then list_sum (map (fun a => nth j (shape a) 0) summands)
  else nth j (shape first) 0.

(** The offset of the [k]-th summand's block on axis [j]: the extents of
    the summands before it, added up, on a listed axis; zero on any
    other. *)
Definition bd_offset {V : Type} (summands : list (ndarray V)) (ax : list nat)
           (k j : nat) : nat :=
  if existsb (Nat.eqb j) ax
  then list_sum (map (fun a => nth j (shape a) 0) (firstn k summands))
  else 0.

(** The index of the result at which the entry [idx] of the [k]-th
    summand is placed. *)
Definition bd_shift {V : Type} (summands : list (ndarray V)) (ax : list nat)
           (k : nat) (idx : list nat) : list nat :=
  map (fun j => nth j idx 0 + bd_offset summands ax k j)
      (seq 0 (length idx)).

(** The summand with its listed extents, as the loop receives it. *)
Definition bd_block {V : Type} `{Dtype V} (n : nat) (ax : list nat)
           (a : ndarray V) : ndarray V * list nat :=
  (permute_axes a (bd_perm n ax), listed ax a).

(** On every axis that is not listed, the summand [a] has the extent of
    the first summand ([agrees]), or that extent or 1 ([broadcasts]). *)
Definition agrees {V : Type} (n : nat) (ax : list nat) (first a : ndarray V)
  : Prop :=
  forall j, j < n -> ~ In j ax -> nth j (shape a) 0 = nth j (shape first) 0.

Definition broadcasts {V : Type} (n : nat) (ax : list nat)
           (first a : ndarray V) : Prop :=
  forall j, j < n -> ~ In j ax ->
            nth j (shape a) 0 = nth j (shape first) 0
            \/ nth j (shape a) 0 = 1.

(** The index [idx] with its entries in the order [perm] of the axes. *)
Definition reorder (perm idx : list nat) : list nat :=
  map (fun p => nth p idx 0) perm.

Definition ltg_skip_perm (plegs sites left_skip right_skip : nat) : list nat :=
  seq 0 left_skip
  ++ map (fun k => left_skip + (plegs * (k mod sites) + k / sites))
         (seq 0 (plegs * sites))
  ++ seq (left_skip + plegs * sites) right_skip.

(** The axes that [partial_trace] keeps of a tensor with [n] sites: the
    row axis of every site that is not traced out, then the column axis
    of every such site. *)
Definition kept_axes (n : nat) (ts : list nat) : list nat :=
  other_axes n ts ++ map (fun i => n + i) (other_axes n ts).

(** The extents [sh] of the axes numbered from [i] on, without those of
    the axes [a1] and [a2]. *)
Definition remove_from (a1 a2 i : nat) (sh : list nat) : list nat :=
  map snd (filter (fun p => negb ((fst p =? a1) || (fst p =? a2)))
                  (combine (seq i (length sh)) sh)).

(** *** [np.kron] and [_tools.mkron] *)

Section Kron.

Context {V : Type} `{Dtype V} `{Numeric V}.

(** A shape with ones prepended up to [n] axes. *)
Definition pad_ones (n : nat) (sh : list nat) : list nat :=
  repeat 1 (n - length sh) ++ sh.

(** [np.kron(a, b)]: the operand with fewer axes gets leading axes of
    extent one; the extents multiply, and the entry at [k] is
    [a[i] * b[j]] where [k[t] = i[t] * b.shape[t] + j[t]] on every
    axis. *)
Definition np_kron (a b : ndarray V) : ndarray V :=
  let n := Nat.max (ndim a) (ndim b) in
  let sa := pad_ones n (shape a) in
  let sb := pad_ones n (shape b) in
  tabulate (map2 Nat.mul sa sb)
    (fun k => mul (item a (skipn (n - ndim a) (map2 Nat.div k sb)))
                  (item b (skipn (n - ndim b) (map2 Nat.modulo k sb)))).

(** [mkron(acc, *rest)] *)
Fixpoint mkron_from (acc : ndarray V) (rest : list (ndarray V)) : ndarray V :=
  match rest with
  | [] => acc
  | b :: rest' => mkron_from (np_kron acc b) rest'
  end.

Definition mkron (args : list (ndarray V)) : res (ndarray V) :=
  match args with
  | [] => Raise IndexError
  | a :: rest => Ok (mkron_from a rest)
  end.

End Kron.

(** The result of [m] is fixed by the state of the supplied source, and
    [m] leaves the module-level source as it found it. *)
Definition seed_determines {G A : Type} (m : M G A) : Prop :=
  forall n1 n2 g : G,
    fst (m {| np_random := n1; supplied := g |})
    = fst (m {| np_random := n2; supplied := g |}) /\
    np_random (snd (m {| np_random := n1; supplied := g |})) = n1.

(** ** Instances for closed examples *)

(** Integer entries, a counter as generator state, and a chain algebra
    that leaves chains as they are. *)
#[export] Instance Numeric_Z : Numeric Z :=
  {| mul := Z.mul; div := Z.div; conj := fun x => x; sqrt := Z.sqrt;
     absv := Z.abs; imag_unit := 0%Z; two := 2%Z |}.

#[export] Instance Generator_counter : Generator Z Z :=
  {| gauss := fun s => (s, (s + 1)%Z); uniform := fun s => (s, (s + 1)%Z) |}.

#[export] Instance ChainAlgebra_plain : ChainAlgebra Z :=
  {| mp_norm := fun _ => Ok 1%Z;
     mp_itruediv := fun c _ => Ok c;
     mp_mul := fun c _ => Ok c;
     mp_add := fun c _ => Ok c;
     mp_trace := fun _ => Ok 1%Z;
     mps_as_mpo := fun c => Ok c;
     from_array := fun a _ => Ok [a];
     local_sum := fun l => Ok (concat l);
     qr := fun a => Ok (a, a) |}.

(** * Properties *)

Unset Implicit Arguments.

(** ** Row-major indexing *)

Lemma in_range_length (sh idx : list nat) :
  in_range sh idx -> length idx = length sh.
Proof. intros Hr. exact (Forall2_length Hr). Qed.

Lemma in_rangeb_spec (sh idx : list nat) :
  in_rangeb sh idx = true <-> in_range sh idx.
Proof.
  unfold in_range. revert idx.
  induction sh as [|n sh IH]; intros [|i idx]; simpl; split; intros Hx;
    try discriminate; try constructor; try (now inversion Hx).
  - apply andb_true_iff in Hx. now apply Nat.ltb_lt.
  - apply andb_true_iff in Hx. now apply IH.
  - inversion Hx; subst. apply andb_true_iff. split.
    + now apply Nat.ltb_lt.
    + now apply IH.
Qed.

Lemma ravel_lt (sh idx : list nat) :
  in_range sh idx -> ravel sh idx < size sh.
Proof.
  unfold in_range. intros Hr.
  induction Hr as [|i n idx sh Hi _ IH]; simpl; [lia | nia].
Qed.

Lemma unravel_ravel (sh idx : list nat) :
  in_range sh idx -> unravel sh (ravel sh idx) = idx.
Proof.
  unfold in_range. intros Hr.
  induction Hr as [|i n idx sh Hi Hr IH]; simpl; [reflexivity|].
  pose proof (ravel_lt _ _ Hr) as Hlt.
  assert (Hp : size sh <> 0) by lia.
  rewrite Nat.div_add_l by exact Hp.
  rewrite (Nat.div_small _ _ Hlt), Nat.add_0_r.
  rewrite Nat.add_comm, Nat.Div0.mod_add, (Nat.mod_small _ _ Hlt).
  now rewrite IH.
Qed.

Lemma unravel_in_range (sh : list nat) :
  forall k, k < size sh -> in_range sh (unravel sh k).
Proof.
  unfold in_range.
  induction sh as [|n sh IH]; simpl; intros k Hk; [constructor|].
  assert (Hp : size sh <> 0) by nia.
  constructor.
  - apply Nat.Div0.div_lt_upper_bound. lia.
  - apply IH. now apply Nat.mod_upper_bound.
Qed.

Lemma ravel_unravel (sh : list nat) :
  forall k, k < size sh -> ravel sh (unravel sh k) = k.
Proof.
  induction sh as [|n sh IH]; simpl; intros k Hk; [lia|].
  assert (Hp : size sh <> 0) by nia.
  rewrite IH by now apply Nat.mod_upper_bound.
  pose proof (Nat.div_mod_eq k (size sh)). lia.
Qed.

Section NdarrayFacts.

Context {V : Type} `{Dtype V}.

Lemma wf_tabulate (sh : list nat) (f : list nat -> V) : wf (tabulate sh f).
Proof. unfold wf, tabulate. simpl. now rewrite length_map, length_seq. Qed.

Lemma item_tabulate (sh : list nat) (f : list nat -> V) (idx : list nat) :
  in_range sh idx -> item (tabulate sh f) idx = f idx.
Proof.
  intros Hr. unfold item, tabulate. simpl.
  pose proof (ravel_lt _ _ Hr) as Hlt.
  rewrite (nth_indep _ zero (f (unravel sh 0)))
    by now rewrite length_map, length_seq.
  rewrite (map_nth (fun k => f (unravel sh k)) (seq 0 (size sh)) 0).
  rewrite seq_nth by exact Hlt. simpl.
  now rewrite unravel_ravel.
Qed.

Lemma tabulate_ext (sh : list nat) (f g : list nat -> V) :
  (forall idx, in_range sh idx -> f idx = g idx) ->
  tabulate sh f = tabulate sh g.
Proof.
  intros Hfg. unfold tabulate. f_equal.
  apply map_ext_in. intros k Hk. apply in_seq in Hk.
  apply Hfg, unravel_in_range. lia.
Qed.

Lemma tabulate_item (a : ndarray V) : wf a -> tabulate (shape a) (item a) = a.
Proof.
  unfold wf. destruct a as [sh d]. simpl. intros Hwf.
  unfold tabulate, item. simpl. f_equal.
  rewrite <- Hwf.
  transitivity (map (fun k => nth k d zero) (seq 0 (length d))).
  - apply map_ext_in. intros k Hk. apply in_seq in Hk.
    rewrite ravel_unravel; [reflexivity | lia].
  - clear Hwf. induction d as [|x d IH]; [reflexivity|].
    simpl. f_equal. rewrite <- seq_shift, map_map. exact IH.
Qed.

(** Two well-formed arrays of one shape with the same entries are the
    same array. *)
Lemma ndarray_ext (a b : ndarray V) :
  wf a -> wf b -> shape a = shape b ->
  (forall idx, in_range (shape a) idx -> item a idx = item b idx) ->
  a = b.
Proof.
  intros Ha Hb Hs Hi.
  rewrite <- (tabulate_item _ Ha), <- (tabulate_item _ Hb), <- Hs.
  now apply tabulate_ext.
Qed.

End NdarrayFacts.

(** ** Axis permutations *)

Lemma nth_map_in {A B : Type} (f : A -> B) (l : list A) (k : nat) (d : B)
      (d' : A) :
  k < length l -> nth k (map f l) d = f (nth k l d').
Proof.
  intros Hk. rewrite (nth_indep _ d (f d')) by now rewrite length_map.
  apply map_nth.
Qed.

Lemma nth_map_seq {B : Type} (f : nat -> B) (n k : nat) (d : B) :
  k < n -> nth k (map f (seq 0 n)) d = f k.
Proof.
  intros Hk. rewrite (nth_map_in f _ _ d 0) by now rewrite length_seq.
  now rewrite seq_nth.
Qed.

Lemma in_range_nth (sh idx : list nat) :
  in_range sh idx <->
  length idx = length sh /\
  forall k, k < length sh -> nth k idx 0 < nth k sh 0.
Proof.
  unfold in_range. split.
  - intros Hr. induction Hr as [|i n idx sh Hi Hr [IHl IHn]]; simpl.
    + split; [reflexivity | intros k Hk; lia].
    + split; [now rewrite IHl|]. intros [|k] Hk; [exact Hi|].
      apply IHn. lia.
  - revert idx. induction sh as [|n sh IH]; intros [|i idx] [Hl Hn];
      simpl in *; try discriminate; constructor.
    + apply (Hn 0). lia.
    + apply IH. split; [lia|]. intros k Hk. apply (Hn (S k)). lia.
Qed.

Lemma nodupb_spec (l : list nat) : nodupb l = true <-> NoDup l.
Proof.
  induction l as [|x l IH]; simpl.
  - split; [constructor | reflexivity].
  - rewrite andb_true_iff, negb_true_iff, IH. split.
    + intros [Hx Hl]. constructor; [|exact Hl].
      intros Hin. assert (E : existsb (Nat.eqb x) l = true).
      { apply existsb_exists. exists x. split; [exact Hin|].
        apply Nat.eqb_refl. }
      congruence.
    + intros Hnd. inversion Hnd as [|y l' Hx Hl]; subst. split; [|exact Hl].
      destruct (existsb (Nat.eqb x) l) eqn:E; [|reflexivity].
      apply existsb_exists in E. destruct E as [y [Hy Hxy]].
      apply Nat.eqb_eq in Hxy. subst. contradiction.
Qed.

Lemma norm_axis_of_nat (n a : nat) :
  a < n -> norm_axis n (Z.of_nat a) = Some a.
Proof.
  intros Ha. unfold norm_axis.
  replace ((0 <=? Z.of_nat a)%Z) with true by (symmetry; apply Z.leb_le; lia).
  replace ((Z.of_nat a <? Z.of_nat n)%Z) with true
    by (symmetry; apply Z.ltb_lt; lia).
  simpl. now rewrite Nat2Z.id.
Qed.

Lemma mapM_opt_norm_axis (n : nat) (ax : list nat) :
  Forall (fun a => a < n) ax ->
  mapM_opt (norm_axis n) (map Z.of_nat ax) = Some ax.
Proof.
  intros Hf. induction Hf as [|a ax Ha _ IH]; simpl; [reflexivity|].
  now rewrite (norm_axis_of_nat _ _ Ha), IH.
Qed.

Lemma is_perm_In (n : nat) (ax : list nat) (j : nat) :
  is_perm n ax -> j < n -> In j ax.
Proof.
  intros (Hl & Hnd & Hf) Hj.
  apply (@NoDup_length_incl nat ax (seq 0 n) Hnd).
  - rewrite length_seq. lia.
  - intros x Hx. apply in_seq. rewrite Forall_forall in Hf.
    specialize (Hf x Hx). lia.
  - apply in_seq. lia.
Qed.

Lemma index_of_nth (ax : list nat) :
  NoDup ax -> forall k, k < length ax -> index_of (nth k ax 0) ax = k.
Proof.
  intros Hnd. induction Hnd as [|x ax Hx Hnd IH]; simpl; intros k Hk; [lia|].
  destruct k as [|k].
  - now rewrite Nat.eqb_refl.
  - destruct (nth k ax 0 =? x) eqn:E.
    + apply Nat.eqb_eq in E. exfalso. apply Hx. rewrite <- E.
      apply nth_In. lia.
    + f_equal. apply IH. lia.
Qed.

Lemma nth_index_of (ax : list nat) (j : nat) :
  In j ax -> nth (index_of j ax) ax 0 = j /\ index_of j ax < length ax.
Proof.
  induction ax as [|x ax IH]; simpl; intros Hin; [contradiction|].
  destruct (j =? x) eqn:E.
  - apply Nat.eqb_eq in E. split; [now subst | lia].
  - destruct Hin as [Hx | Hin].
    + subst. now rewrite Nat.eqb_refl in E.
    + destruct (IH Hin) as [IH1 IH2]. split; [exact IH1 | lia].
Qed.

Lemma NoDup_map_left_inverse (f g : nat -> nat) (l : list nat) :
  (forall x, In x l -> g (f x) = x) -> NoDup l -> NoDup (map f l).
Proof.
  intros Hg Hnd. induction Hnd as [|x l Hx Hnd IH]; simpl; constructor.
  - intros Hin. apply in_map_iff in Hin. destruct Hin as [y [Hy Hin]].
    assert (E : x = y).
    { rewrite <- (Hg x) by now left. rewrite <- Hy. apply Hg. now right. }
    subst. contradiction.
  - apply IH. intros y Hy. apply Hg. now right.
Qed.

Section TransposeFacts.

Context {V : Type} `{Dtype V}.

Lemma transpose_perm (a : ndarray V) (ax : list nat) :
  is_perm (ndim a) ax ->
  transpose a (map Z.of_nat ax) = Ok (permute_axes a ax).
Proof.
  intros (Hl & Hnd & Hf). unfold transpose.
  rewrite length_map, Hl, Nat.eqb_refl. simpl.
  rewrite (mapM_opt_norm_axis _ _ Hf).
  apply nodupb_spec in Hnd. now rewrite Hnd.
Qed.

Lemma shape_permute_axes (a : ndarray V) (ax : list nat) :
  shape (permute_axes a ax) = map (fun x => nth x (shape a) 0) ax.
Proof. reflexivity. Qed.

Lemma wf_permute_axes (a : ndarray V) (ax : list nat) :
  wf (permute_axes a ax).
Proof. apply wf_tabulate. Qed.

Lemma item_permute_axes (a : ndarray V) (ax idx : list nat) :
  in_range (shape (permute_axes a ax)) idx ->
  item (permute_axes a ax) idx
  = item a (map (fun j => nth (index_of j ax) idx 0) (seq 0 (ndim a))).
Proof. intros Hr. unfold permute_axes. now rewrite item_tabulate. Qed.

(** The index read by a transposed array addresses the source array. *)
Lemma in_range_gather (sh ax idx : list nat) :
  is_perm (length sh) ax ->
  in_range (map (fun x => nth x sh 0) ax) idx ->
  in_range sh (map (fun j => nth (index_of j ax) idx 0) (seq 0 (length sh))).
Proof.
  intros Hp Hr. apply in_range_nth in Hr. destruct Hr as [Hl Hn].
  rewrite length_map in Hl, Hn.
  apply in_range_nth. rewrite length_map, length_seq. split; [reflexivity|].
  intros k Hk. rewrite nth_map_seq by exact Hk.
  destruct (nth_index_of ax k (is_perm_In _ _ _ Hp Hk)) as [E Hi].
  specialize (Hn _ Hi).
  rewrite (nth_map_in (fun x => nth x sh 0) ax _ 0 0 Hi), E in Hn. exact Hn.
Qed.

(** Transposing by [p] and then by [q] gives the array back when [p]
    undoes [q]. *)
Lemma permute_axes_inverse (a : ndarray V) (p q : list nat) :
  wf a -> is_perm (ndim a) p -> is_perm (ndim a) q ->
  (forall k, k < ndim a -> nth (nth k q 0) p 0 = k) ->
  permute_axes (permute_axes a p) q = a.
Proof.
  intros Hwf Hp Hq Hpq.
  assert (Hlp : length p = ndim a) by apply Hp.
  assert (Hlq : length q = ndim a) by apply Hq.
  assert (Hqlt : forall k, k < ndim a -> nth k q 0 < ndim a).
  { intros k Hk. destruct Hq as (_ & _ & Hf). rewrite Forall_forall in Hf.
    apply Hf, nth_In. lia. }
  assert (Hsh : shape (permute_axes (permute_axes a p) q) = shape a).
  { rewrite !shape_permute_axes.
    apply (nth_ext _ _ 0 0); rewrite length_map; [exact Hlq|].
    intros k Hk. rewrite Hlq in Hk.
    rewrite (nth_map_in _ q _ 0 0) by lia.
    rewrite (nth_map_in _ p _ 0 0) by (rewrite Hlp; now apply Hqlt).
    now rewrite Hpq. }
  apply ndarray_ext; [apply wf_permute_axes | exact Hwf | exact Hsh |].
  intros idx Hr.
  rewrite item_permute_axes by exact Hr.
  assert (Hnd1 : ndim (permute_axes a p) = ndim a).
  { unfold ndim. now rewrite shape_permute_axes, length_map. }
  rewrite Hnd1.
  assert (Hr2 : in_range (shape (permute_axes a p))
                  (map (fun j => nth (index_of j q) idx 0) (seq 0 (ndim a)))).
  { rewrite <- Hnd1. unfold ndim at 1.
    apply in_range_gather.
    - fold (ndim (permute_axes a p)). now rewrite Hnd1.
    - exact Hr. }
  rewrite item_permute_axes by exact Hr2.
  f_equal.
  rewrite Hsh in Hr. pose proof (in_range_length _ _ Hr) as Hli.
  apply (nth_ext _ _ 0 0); rewrite length_map, length_seq; [now rewrite Hli|].
  intros k Hk. rewrite nth_map_seq by exact Hk.
  assert (E1 : index_of k p = nth k q 0).
  { rewrite <- (Hpq k Hk) at 1. apply index_of_nth; [apply Hp|].
    rewrite Hlp. now apply Hqlt. }
  rewrite E1, nth_map_seq by now apply Hqlt.
  rewrite index_of_nth; [reflexivity | apply Hq | lia].
Qed.

End TransposeFacts.

(** ** The layout permutations *)

Lemma seq_add_map (a n : nat) : seq a n = map (fun i => a + i) (seq 0 n).
Proof.
  revert a. induction n as [|n IH]; intros a; simpl; [reflexivity|].
  rewrite Nat.add_0_r. f_equal. rewrite (IH (S a)), <- seq_shift, map_map.
  apply map_ext. intros i. lia.
Qed.

(** A list comprehension with two [for] clauses, flattened. *)
Lemma flat_map_blocks {B : Type} (g : nat -> nat -> B) (s : nat) :
  s <> 0 ->
  forall P,
    flat_map (fun j => map (g j) (seq 0 s)) (seq 0 P)
    = map (fun k => g (k / s) (k mod s)) (seq 0 (P * s)).
Proof.
  intros Hs. induction P as [|P IH]; [reflexivity|].
  rewrite seq_S, flat_map_app, IH. simpl flat_map. rewrite app_nil_r.
  replace (S P * s) with (P * s + s) by lia.
  rewrite seq_app, map_app. f_equal. simpl.
  rewrite (seq_add_map (P * s) s), map_map.
  apply map_ext_in. intros i Hi. apply in_seq in Hi.
  rewrite Nat.add_comm, Nat.div_add by exact Hs.
  rewrite Nat.Div0.mod_add.
  rewrite Nat.div_small, Nat.mod_small by lia. reflexivity.
Qed.

Lemma gtl_order_perm (plegs sites : nat) :
  gtl_order plegs sites = map Z.of_nat (gtl_perm plegs sites).
Proof. unfold gtl_order, gtl_perm. now rewrite map_map. Qed.

Lemma ltg_order_perm (plegs sites : nat) :
  sites <> 0 ->
  ltg_order (plegs * sites) (Z.of_nat plegs) sites 0 0
  = map Z.of_nat (ltg_perm plegs sites).
Proof.
  intros Hs. unfold ltg_order, range, range2.
  change (Z.of_nat 0) with 0%Z. rewrite Z.sub_0_r, Z.sub_diag.
  change (Z.to_nat 0) with 0. cbn [seq map app].
  rewrite app_nil_r, !Nat2Z.id.
  unfold ltg_perm.
  rewrite <- (flat_map_blocks (fun j i => plegs * i + j) sites Hs plegs).
  generalize (seq 0 plegs) as l.
  induction l as [|j l IH]; cbn [flat_map map]; [reflexivity|].
  rewrite map_app, IH. f_equal.
  rewrite !map_map. apply map_ext. intros i. lia.
Qed.

Lemma div_mul_add (P a b : nat) : b < P -> (P * a + b) / P = a.
Proof.
  intros Hb. symmetry. apply (Nat.div_unique _ _ _ b); [exact Hb | reflexivity].
Qed.

Lemma mod_mul_add (P a b : nat) : b < P -> (P * a + b) mod P = b.
Proof.
  intros Hb. symmetry. apply (Nat.mod_unique _ _ a); [exact Hb | reflexivity].
Qed.

(** The two permutations undo each other. *)
Lemma gtl_after_ltg (P s k : nat) :
  k < P * s ->
  (P * (k mod s) + k / s) / P + s * ((P * (k mod s) + k / s) mod P) = k.
Proof.
  intros Hk. assert (Hs : s <> 0) by nia.
  assert (Hq : k / s < P) by (apply Nat.Div0.div_lt_upper_bound; lia).
  rewrite (div_mul_add _ _ _ Hq), (mod_mul_add _ _ _ Hq).
  pose proof (Nat.div_mod_eq k s). lia.
Qed.

Lemma ltg_after_gtl (P s k : nat) :
  k < P * s ->
  P * ((k / P + s * (k mod P)) mod s) + (k / P + s * (k mod P)) / s = k.
Proof.
  intros Hk. assert (HP : P <> 0) by nia.
  assert (Hq : k / P < s) by (apply Nat.Div0.div_lt_upper_bound; lia).
  replace (k / P + s * (k mod P)) with (s * (k mod P) + k / P) by lia.
  rewrite (div_mul_add _ _ _ Hq), (mod_mul_add _ _ _ Hq).
  pose proof (Nat.div_mod_eq k P). lia.
Qed.

Lemma gtl_perm_nth (P s k : nat) :
  k < P * s -> nth k (gtl_perm P s) 0 = k / P + s * (k mod P).
Proof. intros Hk. unfold gtl_perm. now rewrite nth_map_seq. Qed.

Lemma ltg_perm_nth (P s k : nat) :
  k < P * s -> nth k (ltg_perm P s) 0 = P * (k mod s) + k / s.
Proof. intros Hk. unfold ltg_perm. now rewrite nth_map_seq. Qed.

Lemma gtl_perm_lt (P s k : nat) :
  k < P * s -> k / P + s * (k mod P) < P * s.
Proof.
  intros Hk. assert (HP : P <> 0) by nia.
  assert (Hq : k / P < s) by (apply Nat.Div0.div_lt_upper_bound; lia).
  pose proof (Nat.mod_upper_bound k P HP). nia.
Qed.

Lemma ltg_perm_lt (P s k : nat) :
  k < P * s -> P * (k mod s) + k / s < P * s.
Proof.
  intros Hk. assert (Hs : s <> 0) by nia.
  assert (Hq : k / s < P) by (apply Nat.Div0.div_lt_upper_bound; lia).
  pose proof (Nat.mod_upper_bound k s Hs). nia.
Qed.

Lemma is_perm_gtl (P s : nat) : is_perm (P * s) (gtl_perm P s).
Proof.
  unfold is_perm, gtl_perm. rewrite length_map, length_seq.
  split; [reflexivity | split].
  - apply (NoDup_map_left_inverse _
             (fun m => P * (m mod s) + m / s)); [|apply seq_NoDup].
    intros k Hk. apply in_seq in Hk. apply ltg_after_gtl. lia.
  - apply Forall_forall. intros x Hx. apply in_map_iff in Hx.
    destruct Hx as [k [E Hk]]. apply in_seq in Hk. subst x.
    apply gtl_perm_lt. lia.
Qed.

Lemma is_perm_ltg (P s : nat) : is_perm (P * s) (ltg_perm P s).
Proof.
  unfold is_perm, ltg_perm. rewrite length_map, length_seq.
  split; [reflexivity | split].
  - apply (NoDup_map_left_inverse _
             (fun m => m / P + s * (m mod P))); [|apply seq_NoDup].
    intros k Hk. apply in_seq in Hk. apply gtl_after_ltg. lia.
  - apply Forall_forall. intros x Hx. apply in_map_iff in Hx.
    destruct Hx as [k [E Hk]]. apply in_seq in Hk. subst x.
    apply ltg_perm_lt. lia.
Qed.

Lemma py_mod_zero (n sites : nat) :
  py_mod n sites = Ok 0 <-> sites <> 0 /\ n = (n / sites) * sites.
Proof.
  unfold py_mod. destruct (Nat.eqb_spec sites 0) as [E|E].
  - split; [discriminate | intros [Hs _]; contradiction].
  - pose proof (Nat.div_mod_eq n sites). split.
    + intros Hm. injection Hm as Hm. split; [exact E | lia].
    + intros [_ Hn]. f_equal. lia.
Qed.

Section LayoutFacts.

Context {V : Type} `{Dtype V}.

Lemma global_to_local_eq (T : ndarray V) (sites : nat) :
  py_mod (ndim T) sites = Ok 0 ->
  global_to_local T sites
  = Ok (permute_axes T (gtl_perm (ndim T / sites) sites)).
Proof.
  intros Hm. unfold global_to_local. rewrite Hm. simpl.
  apply py_mod_zero in Hm. destruct Hm as [Hs Hn].
  unfold py_floordiv. destruct (Nat.eqb_spec sites 0) as [E|_]; [contradiction|].
  simpl. rewrite gtl_order_perm. apply transpose_perm.
  rewrite Hn at 1. apply is_perm_gtl.
Qed.

Lemma local_to_global_eq (T : ndarray V) (sites : nat) :
  py_mod (ndim T) sites = Ok 0 ->
  local_to_global T sites 0 0
  = Ok (permute_axes T (ltg_perm (ndim T / sites) sites)).
Proof.
  intros Hm. apply py_mod_zero in Hm. destruct Hm as [Hs Hn].
  unfold local_to_global.
  destruct (Nat.eqb_spec sites 0) as [E|_]; [contradiction|].
  simpl Nat.add. rewrite Z.sub_0_r.
  assert (Hz : (Z.of_nat (ndim T) mod Z.of_nat sites = 0)%Z).
  { rewrite Hn, Nat2Z.inj_mul. apply Z.mod_mul. lia. }
  rewrite Hz. simpl.
  assert (Hd : (Z.of_nat (ndim T) / Z.of_nat sites
                = Z.of_nat (ndim T / sites))%Z).
  { rewrite Hn at 1. rewrite Nat2Z.inj_mul. apply Z.div_mul. lia. }
  rewrite Hd. rewrite Hn at 1. rewrite ltg_order_perm by exact Hs.
  apply transpose_perm. rewrite Hn at 1. apply is_perm_ltg.
Qed.

End LayoutFacts.

(** ** AxisLayout: [global_to_local] and [local_to_global] *)

Section LayoutClaims.

Context {V : Type} `{Dtype V}.

Lemma ndim_permute_axes (a : ndarray V) (ax : list nat) :
  ndim (permute_axes a ax) = length ax.
Proof. unfold ndim. now rewrite shape_permute_axes, length_map. Qed.

(** C2. For every tensor [T] and every [sites] with
    [T.ndim % sites == 0], [global_to_local] followed by
    [local_to_global] with the same [sites] and no skipped axes returns
    [T]; so does [local_to_global] followed by [global_to_local]: the two
    layout transforms are mutual inverses. *)
Theorem local_to_global_global_to_local (T : ndarray V) (sites : nat) :
  wf T ->
  py_mod (ndim T) sites = Ok 0 ->
  (L <- global_to_local T sites ;; local_to_global L sites 0 0) = Ok T /\
  (G <- local_to_global T sites 0 0 ;; global_to_local G sites) = Ok T.
Proof.
  intros Hwf Hm.
  pose proof (proj1 (py_mod_zero _ _) Hm) as [Hs Hn].
  set (P := ndim T / sites) in *.
  assert (Hg : ndim (permute_axes T (gtl_perm P sites)) = ndim T).
  { rewrite ndim_permute_axes. unfold gtl_perm.
    rewrite length_map, length_seq. lia. }
  assert (Hl : ndim (permute_axes T (ltg_perm P sites)) = ndim T).
  { rewrite ndim_permute_axes. unfold ltg_perm.
    rewrite length_map, length_seq. lia. }
  split.
  - rewrite (global_to_local_eq _ _ Hm). fold P. simpl rbind.
    rewrite local_to_global_eq by now rewrite Hg.
    rewrite Hg. fold P. f_equal.
    apply permute_axes_inverse; [exact Hwf | | |].
    + rewrite Hn. apply is_perm_gtl.
    + rewrite Hn. apply is_perm_ltg.
    + intros k Hk. rewrite Hn in Hk.
      rewrite (ltg_perm_nth _ _ _ Hk), gtl_perm_nth by now apply ltg_perm_lt.
      now apply gtl_after_ltg.
  - rewrite (local_to_global_eq _ _ Hm). fold P. simpl rbind.
    rewrite global_to_local_eq by now rewrite Hl.
    rewrite Hl. fold P. f_equal.
    apply permute_axes_inverse; [exact Hwf | | |].
    + rewrite Hn. apply is_perm_ltg.
    + rewrite Hn. apply is_perm_gtl.
    + intros k Hk. rewrite Hn in Hk.
      rewrite (gtl_perm_nth _ _ _ Hk), ltg_perm_nth by now apply gtl_perm_lt.
      now apply ltg_after_gtl.
Qed.

(** C3, as the code has it.  For every tensor with [ndim % sites == 0]
    and [plegs = ndim / sites], the axis of the result of
    [global_to_local] at position [k] is the axis of the input at
    position [k / plegs + sites * (k mod plegs)]: the extents agree, and
    the entry of the input at [idx] is the entry of the result at the
    index that has [idx[k / plegs + sites * (k mod plegs)]] at every
    position [k]. *)
Theorem global_to_local_axes (T : ndarray V) (sites : nat) :
  py_mod (ndim T) sites = Ok 0 ->
  exists L,
    global_to_local T sites = Ok L /\
    ndim L = ndim T /\
    (forall k, k < ndim T ->
       nth k (shape L) 0
       = nth (k / (ndim T / sites) + sites * (k mod (ndim T / sites)))
             (shape T) 0) /\
    (forall idx, in_range (shape T) idx ->
       item L (map (fun k =>
                 nth (k / (ndim T / sites) + sites * (k mod (ndim T / sites)))
                     idx 0) (seq 0 (ndim T)))
       = item T idx).
Proof.
  intros Hm.
  pose proof (proj1 (py_mod_zero _ _) Hm) as [Hs Hn].
  set (P := ndim T / sites) in *.
  pose proof (is_perm_gtl P sites) as Hp. rewrite <- Hn in Hp.
  assert (Hlen : length (gtl_perm P sites) = ndim T) by apply Hp.
  assert (Hlt : forall k, k < ndim T -> k / P + sites * (k mod P) < ndim T).
  { intros k Hk. rewrite Hn. apply gtl_perm_lt. lia. }
  exists (permute_axes T (gtl_perm P sites)).
  split; [now apply global_to_local_eq|].
  split; [now rewrite ndim_permute_axes|].
  assert (Hshape : forall k, k < ndim T ->
            nth k (shape (permute_axes T (gtl_perm P sites))) 0
            = nth (k / P + sites * (k mod P)) (shape T) 0).
  { intros k Hk. rewrite shape_permute_axes.
    rewrite (nth_map_in _ _ _ 0 0) by lia.
    rewrite gtl_perm_nth by lia. reflexivity. }
  split; [exact Hshape|].
  intros idx Hr.
  pose proof (proj1 (in_range_nth _ _) Hr) as [Hli Hni].
  fold (ndim T) in Hli, Hni.
  rewrite item_permute_axes.
  - f_equal. apply (nth_ext _ _ 0 0).
    + rewrite length_map, length_seq. now rewrite Hli.
    + rewrite length_map, length_seq. intros j Hj.
      rewrite nth_map_seq by exact Hj.
      destruct (nth_index_of _ j (is_perm_In _ _ _ Hp Hj)) as [E Hi].
      rewrite Hlen in Hi. rewrite nth_map_seq by exact Hi.
      rewrite <- gtl_perm_nth by lia. now rewrite E.
  - apply in_range_nth. rewrite length_map, length_seq.
    rewrite shape_permute_axes, length_map. split; [now rewrite Hlen|].
    rewrite Hlen. intros k Hk. rewrite nth_map_seq by exact Hk.
    fold (shape (permute_axes T (gtl_perm P sites))).
    rewrite <- shape_permute_axes, (Hshape k Hk).
    apply Hni. now apply Hlt.
Qed.

(** The evenness assertion is reached as soon as the list is non-empty. *)
Lemma partial_trace_odd (T : ndarray V) (ts : list Z) (t : Z) :
  ndim T mod 2 = 1 -> partial_trace T (ts ++ [t]) = Raise AssertionError.
Proof.
  intros Hodd. unfold partial_trace. rewrite rev_unit.
  cbn [partial_trace_rev]. now rewrite Hodd.
Qed.

(** C10. For every tensor [T], of even or odd [ndim], [partial_trace]
    with the empty trace-out list returns [T] itself and does not raise:
    the evenness of [ndim] is asserted only when the list is non-empty,
    where an odd [ndim] does raise. *)
Theorem partial_trace_empty (T : ndarray V) :
  partial_trace T [] = Ok T /\
  (ndim T mod 2 = 1 ->
   forall ts t, partial_trace T (ts ++ [t]) = Raise AssertionError).
Proof.
  split.
  - unfold partial_trace. cbn [rev partial_trace_rev]. reflexivity.
  - intros Hodd ts t. now apply partial_trace_odd.
Qed.

(** The recursion equation of [partial_trace] on a non-empty list. *)
Lemma partial_trace_snoc (T : ndarray V) (ts : list Z) (t : Z) :
  partial_trace T (ts ++ [t])
  = if negb (ndim T mod 2 =? 0) then Raise AssertionError
    else array_red <- np_trace T t (t + Z.of_nat (ndim T / 2)) ;;
         partial_trace array_red ts.
Proof. unfold partial_trace. now rewrite rev_unit. Qed.

End LayoutClaims.

(** C2 at the array [np.arange(120).reshape((2, 3, 4, 5))] and two sites. *)
Lemma local_to_global_global_to_local_witness :
  (L <- global_to_local (arange_reshape 0 [2; 3; 4; 5]) 2 ;;
   local_to_global L 2 0 0) = Ok (arange_reshape 0 [2; 3; 4; 5]) /\
  (G <- local_to_global (arange_reshape 0 [2; 3; 4; 5]) 2 0 0 ;;
   global_to_local G 2) = Ok (arange_reshape 0 [2; 3; 4; 5]).
Proof.
  apply (@local_to_global_global_to_local Z _
           (arange_reshape 0 [2; 3; 4; 5]) 2);
    reflexivity.
Defined.

(** C10 at a vector, whose [ndim] is odd. *)
Lemma partial_trace_empty_witness :
  partial_trace (arange_reshape 0 [3]) [] = Ok (arange_reshape 0 [3]) /\
  (ndim (arange_reshape 0 [3]) mod 2 = 1 ->
   forall ts t,
     partial_trace (arange_reshape 0 [3]) (ts ++ [t])
     = Raise AssertionError).
Proof. apply (partial_trace_empty (arange_reshape 0 [3])). Defined.

(** The rule of C3 as the claim words it fails on the docstring's own
    example: the input axis 1, of extent 2, does not arrive at position
    [1 / 2 + 3 * (1 mod 2) = 3], which has extent 5. *)
Lemma global_to_local_rule_counterexample :
  exists L,
    global_to_local (arange_reshape 0 [1; 2; 3; 4; 5; 6]) 3 = Ok L /\
    nth (1 / 2 + 3 * (1 mod 2)) (shape L) 0 <> nth 1 [1; 2; 3; 4; 5; 6] 0.
Proof.
  eexists. split; [vm_compute; reflexivity|].
  vm_compute. discriminate.
Qed.

Lemma global_to_local_axes_witness :
  exists L,
    global_to_local (arange_reshape 0 [1; 2; 3; 4; 5; 6]) 3 = Ok L /\
    shape L = [1; 4; 2; 5; 3; 6].
Proof.
  destruct (@global_to_local_axes Z _ (arange_reshape 0 [1; 2; 3; 4; 5; 6]) 3
              eq_refl) as (L & HL & Hnd & Hsh & _).
  exists L. split; [exact HL|].
  apply (nth_ext _ _ 0 0); [exact Hnd|].
  intros k Hk. fold (ndim L) in Hk. rewrite Hnd in Hk.
  rewrite (Hsh k Hk).
  do 6 (destruct k as [|k]; [reflexivity|]).
  unfold ndim in Hk. simpl in Hk. lia.
Defined.

(** ** ChainBuilder: [_generate] *)

Section GenerateFacts.

Context {V G : Type} `{Dtype V}.

Lemma bind_ok {A B : Type} (m : M G A) (k : A -> M G B) (w w' : world G)
      (a : A) :
  m w = (Ok a, w') -> bind m k w = k a w'.
Proof. intros Hm. unfold bind. now rewrite Hm. Qed.

Lemma bind_raise {A B : Type} (m : M G A) (k : A -> M G B) (w w' : world G)
      (e : exn) :
  m w = (Raise e, w') -> bind m k w = (Raise e, w').
Proof. intros Hm. unfold bind. now rewrite Hm. Qed.

Lemma mapM_opt_as_int (l : list nat) : mapM_opt as_int (map PInt l) = Some l.
Proof. induction l as [|x l IH]; simpl; [reflexivity | now rewrite IH]. Qed.

Lemma with_int_shape_ints (func : list nat -> M G (ndarray V)) (l : list nat) :
  with_int_shape func (map PInt l) = func l.
Proof. unfold with_int_shape. now rewrite mapM_opt_as_int. Qed.

Lemma mapM_ok {A B : Type} (f : A -> M G B) (P : A -> B -> Prop) :
  (forall x w, exists y w', f x w = (Ok y, w') /\ P x y) ->
  forall l w, exists ys w', mapM f l w = (Ok ys, w') /\ Forall2 P l ys.
Proof.
  intros Hf. induction l as [|x l IH]; intros w; simpl.
  - exists [], w. split; [reflexivity | constructor].
  - destruct (Hf x w) as (y & w1 & Hy & HP).
    destruct (IH w1) as (ys & w2 & Hys & HPs).
    exists (y :: ys), w2. split.
    + rewrite (bind_ok _ _ _ _ _ Hy), (bind_ok _ _ _ _ _ Hys). reflexivity.
    + now constructor.
Qed.

Lemma Forall2_nth_error {A B : Type} (P : A -> B -> Prop) (l1 : list A)
      (l2 : list B) (i : nat) (x : A) (y : B) :
  Forall2 P l1 l2 -> nth_error l1 i = Some x -> nth_error l2 i = Some y ->
  P x y.
Proof.
  intros HF. revert i. induction HF as [|a b l1 l2 Hab _ IH]; intros i Hx Hy.
  - destruct i; discriminate.
  - destruct i as [|i]; simpl in Hx, Hy.
    + injection Hx as <-. injection Hy as <-. exact Hab.
    + eapply IH; eauto.
Qed.

Lemma mapM_map {A B C : Type} (f : B -> M G C) (g : A -> B) (l : list A) :
  forall w, mapM f (map g l) w = mapM (fun x => f (g x)) l w.
Proof.
  induction l as [|x l IH]; intros w; [reflexivity|].
  cbn [map mapM]. unfold bind.
  destruct (f (g x) w) as [[y|e] w1]; [|reflexivity].
  now rewrite IH.
Qed.

(** The branch of [_generate] for a scalar or a sequence of ints: every
    site gets the same legs [l]. *)
Lemma generate_uniform (sites bdim : nat) (l : list nat)
      (func : list pyval -> M G (ndarray V)) (w : world G) :
  func_ok func ->
  exists (ltens_l ltens_r : ndarray V) (ltenss : list (ndarray V))
         (w' : world G),
    (ltens_l <~ func ([PInt 1] ++ map PInt l ++ [PInt bdim]) ;;
     ltenss <~ mapM (fun _ => func
                                ([PInt bdim] ++ map PInt l ++ [PInt bdim]))
                    (seq 0 (sites - 2)) ;;
     ltens_r <~ func ([PInt bdim] ++ map PInt l ++ [PInt 1]) ;;
     ret (MPArray ([ltens_l] ++ ltenss ++ [ltens_r]))) w
    = (Ok ([ltens_l] ++ ltenss ++ [ltens_r]), w') /\
    shape ltens_l = [1] ++ l ++ [bdim] /\
    shape ltens_r = [bdim] ++ l ++ [1] /\
    length ltenss = sites - 2 /\
    Forall (fun t => shape t = [bdim] ++ l ++ [bdim]) ltenss.
Proof.
  intros Hf.
  assert (E : forall a b, [PInt a] ++ map PInt l ++ [PInt b]
                          = map PInt ([a] ++ l ++ [b])).
  { intros a b. now rewrite !map_app. }
  rewrite !E.
  destruct (Hf ([1] ++ l ++ [bdim]) w) as (tl_ & w1 & Hl & Hsl).
  destruct (mapM_ok (fun _ : nat => func (map PInt ([bdim] ++ l ++ [bdim])))
              (fun _ t => shape t = [bdim] ++ l ++ [bdim])
              (fun _ w => Hf _ w) (seq 0 (sites - 2)) w1)
    as (ts & w2 & Hm & Hsm).
  destruct (Hf ([bdim] ++ l ++ [1]) w2) as (tr & w3 & Hr & Hsr).
  exists tl_, tr, ts, w3. split; [|split; [exact Hsl | split; [exact Hsr|]]].
  - rewrite (bind_ok _ _ _ _ _ Hl), (bind_ok _ _ _ _ _ Hm),
      (bind_ok _ _ _ _ _ Hr). reflexivity.
  - split.
    + rewrite <- (Forall2_length Hsm). apply length_seq.
    + clear Hm. induction Hsm; constructor; auto.
Qed.

(** Reading site [i] of the list [[ltens_l] + ltenss + [ltens_r]]. *)
Lemma chain_shapes_intro (sites bdim : nat) (legs : nat -> list nat)
      (ltens_l ltens_r : ndarray V) (ltenss : list (ndarray V)) :
  2 <= sites ->
  length ltenss = sites - 2 ->
  shape ltens_l = [1] ++ legs 0 ++ [bdim] ->
  shape ltens_r = [bdim] ++ legs (sites - 1) ++ [1] ->
  (forall i t, nth_error ltenss i = Some t ->
               shape t = [bdim] ++ legs (S i) ++ [bdim]) ->
  chain_shapes sites bdim legs ([ltens_l] ++ ltenss ++ [ltens_r]).
Proof.
  intros Hs Hlen Hl Hr Hm. split.
  - simpl. rewrite length_app. simpl. lia.
  - intros i t Hi. unfold local_shape.
    destruct i as [|i]; simpl in Hi.
    + injection Hi as <-. rewrite Nat.eqb_refl.
      destruct (Nat.eqb_spec 0 (sites - 1)); [lia | exact Hl].
    + destruct (Nat.eqb_spec (S i) 0) as [|_]; [lia|].
      destruct (Nat.lt_ge_cases i (length ltenss)) as [Hlt | Hge].
      * rewrite nth_error_app1 in Hi by exact Hlt.
        rewrite (Hm i t Hi).
        destruct (Nat.eqb_spec (S i) (sites - 1)); [lia | reflexivity].
      * rewrite nth_error_app2 in Hi by exact Hge.
        destruct (i - length ltenss) as [|d] eqn:Ed; simpl in Hi.
        -- injection Hi as <-. assert (Ei : S i = sites - 1) by lia.
           rewrite Ei, Nat.eqb_refl. exact Hr.
        -- destruct d; discriminate.
Qed.

(** Shared core of the ChainBuilder claims: on a leg specification of
    one of the documented forms, with at least two sites and, for a
    sequence of sequences, at least [sites] entries, [_generate] returns
    a chain of [sites] local tensors with boundary bonds 1 and interior
    bonds [bdim]. *)
Lemma generate_chain_shapes (sites : nat) (ldim : pyval) (bdim : nat)
      (legs : nat -> list nat) (func : list pyval -> M G (ndarray V))
      (w : world G) :
  2 <= sites -> site_legs sites ldim legs -> func_ok func ->
  exists c w', _generate sites ldim bdim func w = (Ok c, w') /\
               chain_shapes sites bdim legs c.
Proof.
  intros Hs Hlegs Hf. unfold _generate.
  destruct (Nat.ltb_spec 1 sites) as [_|]; [|lia]. cbn [negb].
  destruct Hlegs as [n | l Hl | ll Hll].
  - (* an int *)
    cbn [has_iter].
    destruct (generate_uniform sites bdim [n] func w Hf)
      as (a & b & ts & w' & Hrun & Ha & Hb & Hlen & Hts).
    exists ([a] ++ ts ++ [b]), w'. split; [exact Hrun|].
    apply chain_shapes_intro; auto.
    intros i t Hi. rewrite Forall_forall in Hts.
    apply Hts. eapply nth_error_In. exact Hi.
  - (* a sequence of ints *)
    destruct l as [|x l]; [contradiction|]. cbn [flat has_iter map].
    destruct (generate_uniform sites bdim (x :: l) func w Hf)
      as (a & b & ts & w' & Hrun & Ha & Hb & Hlen & Hts).
    exists ([a] ++ ts ++ [b]), w'. split; [exact Hrun|].
    apply chain_shapes_intro; auto.
    intros i t Hi. rewrite Forall_forall in Hts.
    apply Hts. eapply nth_error_In. exact Hi.
  - (* a sequence of sequences of ints *)
    destruct ll as [|t0 rest]; [simpl in Hll; lia|].
    cbn [nested has_iter map].
    change (has_iter (flat t0)) with true. cbn [negb].
    simpl in Hll.
    rewrite (bind_ok _ _ w w (map PInt t0)) by reflexivity.
    assert (E : forall a b t, [PInt a] ++ map PInt t ++ [PInt b]
                              = map PInt ([a] ++ t ++ [b])).
    { intros a b t. now rewrite !map_app. }
    rewrite E.
    destruct (Hf ([1] ++ t0 ++ [bdim]) w) as (tl_ & w1 & Hl & Hsl).
    rewrite (bind_ok _ _ _ _ _ Hl).
    rewrite firstn_map, skipn_map.
    destruct (mapM_ok
                (fun ld : list nat =>
                   ld <~ lift (tuple (flat ld)) ;;
                   func ([PInt bdim] ++ ld ++ [PInt bdim]))
                (fun ld t => shape t = [bdim] ++ ld ++ [bdim])) with
      (l := firstn (sites - 2) rest) (w := w1) as (ts & w2 & Hm & Hsm).
    { intros ld w''.
      rewrite (bind_ok _ _ w'' w'' (map PInt ld)) by reflexivity.
      rewrite E. apply Hf. }
    assert (Hm' : mapM (fun ld : pyval =>
                     ld <~ lift (tuple ld) ;;
                     func ([PInt bdim] ++ ld ++ [PInt bdim]))
                   (map flat (firstn (sites - 2) rest)) w1 = (Ok ts, w2)).
    { rewrite <- Hm. apply mapM_map. }
    rewrite (bind_ok _ _ _ _ _ Hm').
    destruct (skipn (sites - 2) rest) as [|tlast rest'] eqn:Esk.
    { apply (f_equal (@length _)) in Esk. rewrite length_skipn in Esk.
      simpl in Esk. lia. }
    cbn [map].
    rewrite (bind_ok _ _ w2 w2 (map PInt tlast)) by reflexivity.
    rewrite E.
    destruct (Hf ([bdim] ++ tlast ++ [1]) w2) as (tr & w3 & Hr & Hsr).
    rewrite (bind_ok _ _ _ _ _ Hr).
    exists ([tl_] ++ ts ++ [tr]), w3. split; [reflexivity|].
    assert (Hlen : length ts = sites - 2).
    { rewrite <- (Forall2_length Hsm), length_firstn. lia. }
    assert (Hlast : nth (sites - 1) (t0 :: rest) [] = tlast).
    { replace (sites - 1) with (S (sites - 2)) by lia. simpl.
      rewrite <- (Nat.add_0_r (sites - 2)), <- nth_skipn, Esk. reflexivity. }
    apply chain_shapes_intro; auto.
    + now rewrite Hlast.
    + intros i t Hi. simpl.
      assert (Hlt : i < sites - 2).
      { rewrite <- Hlen. apply nth_error_Some. congruence. }
      assert (Hnth : nth_error (firstn (sites - 2) rest) i
                     = Some (nth i rest [])).
      { rewrite nth_error_firstn.
        destruct (Nat.ltb_spec i (sites - 2)); [|lia].
        apply nth_error_nth'. lia. }
      exact (Forall2_nth_error _ _ _ _ _ _ Hsm Hnth Hi).
Qed.

End GenerateFacts.

Section GenerateClaims.

Context {V G : Type} `{Dtype V} `{Numeric V} `{Generator V G}.

Lemma func_ok_returns (func : list pyval -> M G (ndarray V)) :
  func_ok func -> func_returns func.
Proof.
  intros Hf sh w. destruct (Hf sh w) as (a & w' & Ha & _). now exists a, w'.
Qed.

Lemma zeros_func_ok :
  func_ok (with_int_shape
             (fun shape : list nat => ret (G:=G) (np_zeros (V:=V) shape))).
Proof.
  intros sh w. rewrite with_int_shape_ints.
  exists (np_zeros sh), w. split; reflexivity.
Qed.

Lemma randn_run (src : source) (sh : list nat) (w : world G) :
  exists a w', randn src sh w = (Ok a, w') /\ shape a = sh.
Proof.
  unfold randn. destruct (draw gauss (size sh) (get_src src w)) as [xs s'].
  eexists _, _. split; reflexivity.
Qed.

Lemma zrandn_func_ok (randstate : option source) :
  func_ok (with_int_shape (fun shape : list nat => _zrandn shape randstate)).
Proof.
  intros sh w. rewrite with_int_shape_ints. unfold _zrandn.
  set (src := match randstate with Some r => r | None => NpRandom end).
  destruct (randn_run src sh w) as (re & w1 & Hre & Hsre).
  destruct (randn_run src sh w1) as (im & w2 & Him & Hsim).
  rewrite (bind_ok _ _ _ _ _ Hre), (bind_ok _ _ _ _ _ Him).
  unfold lift, ewise2. cbn [shape ewise].
  destruct (list_eq_dec Nat.eq_dec (shape re) (shape im)) as [_|Hne];
    [|congruence].
  eexists _, _. split; [reflexivity | exact Hsre].
Qed.

(** C8. For every [sites >= 2], every leg specification of a documented
    form (with its per-site legs [legs]) and every bond dimension, the
    chain that [_generate] builds has [sites] local tensors, the first of
    shape [(1, legs[0]..., bdim)], the last of shape
    [(bdim, legs[sites-1]..., 1)] and the interior ones of shape
    [(bdim, legs[i]..., bdim)]; this holds for any element factory that
    returns arrays of the requested shape, and so for [zero]. *)
Theorem generate_bond_shapes (sites : nat) (ldim : pyval) (bdim : nat)
        (legs : nat -> list nat) (w : world G) :
  2 <= sites -> site_legs sites ldim legs ->
  (forall func : list pyval -> M G (ndarray V), func_ok func ->
     exists c w', _generate sites ldim bdim func w = (Ok c, w') /\
                  chain_shapes sites bdim legs c) /\
  (exists c w', zero_mpa sites ldim bdim w = (Ok c, w') /\
                chain_shapes (V:=V) sites bdim legs c).
Proof.
  intros Hs Hl. split.
  - intros func Hf. now apply generate_chain_shapes.
  - apply generate_chain_shapes; auto using zeros_func_ok.
Qed.

(** The same for [random_mpa], whose element factory is [_zrandn]. *)
Lemma random_mpa_bond_shapes (sites : nat) (ldim : pyval) (bdim : nat)
      (legs : nat -> list nat) (randstate : option source) (w : world G) :
  2 <= sites -> site_legs sites ldim legs ->
  exists c w', random_mpa sites ldim bdim randstate w = (Ok c, w') /\
               chain_shapes (V:=V) sites bdim legs c.
Proof.
  intros Hs Hl.
  apply generate_chain_shapes; auto using zrandn_func_ok.
Qed.

(** C4, as the code has it.  Given a non-empty flat sequence of ints (of
    any length) as leg specification, [_generate] gives every site the
    same physical legs: one leg per entry of the sequence, with the
    entries as extents, in order. *)
Theorem generate_flat_legs (sites : nat) (l : list nat) (bdim : nat)
        (func : list pyval -> M G (ndarray V)) (w : world G) :
  2 <= sites -> l <> [] -> func_ok func ->
  exists c w',
    _generate sites (flat l) bdim func w = (Ok c, w') /\
    length c = sites /\
    forall i t, nth_error c i = Some t ->
                exists bl br, shape t = [bl] ++ l ++ [br].
Proof.
  intros Hs Hl Hf.
  destruct (generate_chain_shapes sites (flat l) bdim (fun _ => l) func w Hs
              (@legs_flat sites l Hl) Hf) as (c & w' & Hrun & Hlen & Hsh).
  exists c, w'. split; [exact Hrun | split; [exact Hlen|]].
  intros i t Hi. rewrite (Hsh i t Hi). unfold local_shape.
  eexists _, _. reflexivity.
Qed.

(** The empty sequence has no first entry: [ldim[0]] fails, before the
    element factory is called. *)
Lemma generate_empty (sites : nat) (bdim : nat)
      (func : list pyval -> M G (ndarray V)) (w : world G) :
  2 <= sites ->
  _generate sites (nested []) bdim func w = (Raise IndexError, w).
Proof.
  intros Hs. unfold _generate.
  destruct (Nat.ltb_spec 1 sites) as [_|]; [|lia]. reflexivity.
Qed.

(** A non-empty sequence of sequences with fewer entries than sites
    exhausts the iterator: the last [next] fails. *)
Lemma generate_short (sites : nat) (ll : list (list nat)) (bdim : nat)
      (func : list pyval -> M G (ndarray V)) (w : world G) :
  2 <= sites -> ll <> [] -> length ll < sites -> func_returns func ->
  exists w', _generate sites (nested ll) bdim func w
             = (Raise StopIteration, w').
Proof.
  intros Hs Hne Hll Hf. unfold _generate.
  destruct (Nat.ltb_spec 1 sites) as [_|]; [|lia]. cbn [negb].
  destruct ll as [|t0 rest]; [congruence|].
  cbn [nested has_iter map].
  change (has_iter (flat t0)) with true. cbn [negb].
  simpl in Hll.
  rewrite (bind_ok _ _ w w (map PInt t0)) by reflexivity.
  assert (E : forall a b t, [PInt a] ++ map PInt t ++ [PInt b]
                            = map PInt ([a] ++ t ++ [b])).
  { intros a b t. now rewrite !map_app. }
  rewrite E.
  destruct (Hf ([1] ++ t0 ++ [bdim]) w) as (tl_ & w1 & Hl).
  rewrite (bind_ok _ _ _ _ _ Hl).
  rewrite firstn_map, skipn_map.
  destruct (mapM_ok
              (fun ld : list nat =>
                 ld <~ lift (tuple (flat ld)) ;;
                 func ([PInt bdim] ++ ld ++ [PInt bdim]))
              (fun _ _ => True)) with
    (l := firstn (sites - 2) rest) (w := w1) as (ts & w2 & Hm & _).
  { intros ld w''.
    rewrite (bind_ok _ _ w'' w'' (map PInt ld)) by reflexivity.
    rewrite E. destruct (Hf ([bdim] ++ ld ++ [bdim]) w'') as (y & w3 & Hy).
    exists y, w3. split; [exact Hy | exact I]. }
  assert (Hm' : mapM (fun ld : pyval =>
                   ld <~ lift (tuple ld) ;;
                   func ([PInt bdim] ++ ld ++ [PInt bdim]))
                 (map flat (firstn (sites - 2) rest)) w1 = (Ok ts, w2)).
  { rewrite <- Hm. apply mapM_map. }
  rewrite (bind_ok _ _ _ _ _ Hm').
  rewrite skipn_all2 by lia.
  exists w2. reflexivity.
Qed.

End GenerateClaims.

Lemma generate_bond_shapes_witness :
  exists c w',
    zero_mpa 3 (nested [[2]; [3; 4]; [5]]) 7 w0 = (Ok c, w') /\
    chain_shapes (V:=Z) 3 7 (fun i => nth i [[2]; [3; 4]; [5]] []) c.
Proof.
  refine (proj2 (generate_bond_shapes (V:=Z) (G:=unit) 3
                   (nested [[2]; [3; 4]; [5]]) 7
                   (fun i => nth i [[2]; [3; 4]; [5]] []) w0 _ _)).
  - lia.
  - apply legs_nested. simpl. lia.
Defined.

(** The flat sequence [(2, 3)] on two sites: the claim of C4 asks for one
    leg per site, of extent 2 at site 0 and 3 at site 1; the code gives
    both sites the two legs [(2, 3)]. *)
Lemma generate_flat_counterexample :
  ~ (exists c w',
       zero_mpa (V:=Z) 2 (flat [2; 3]) 1 w0 = (Ok c, w') /\
       forall i t, nth_error c i = Some t ->
                   exists bl br, shape t = [bl; nth i [2; 3] 0; br]).
Proof.
  intros (c & w' & Hrun & Hsh).
  vm_compute in Hrun. injection Hrun as <- _.
  destruct (Hsh 0 _ eq_refl) as (bl & br & E). discriminate E.
Qed.

Lemma generate_flat_legs_witness :
  exists c w',
    _generate 2 (flat [2; 3]) 1
      (with_int_shape (fun shape => ret (np_zeros (V:=Z) shape))) w0
    = (Ok c, w') /\
    length c = 2 /\
    forall i t, nth_error c i = Some t ->
                exists bl br, shape t = [bl] ++ [2; 3] ++ [br].
Proof.
  apply (generate_flat_legs (V:=Z) (G:=unit) 2 [2; 3] 1).
  - lia.
  - discriminate.
  - apply zeros_func_ok.
Defined.

(** A sequence of three per-site tuples on two sites: its length differs
    from [sites], and the build succeeds, using the first two. *)
Lemma generate_long_counterexample :
  fst (zero_mpa (V:=Z) 2 (nested [[2]; [3]; [4]]) 1 w0)
  = Ok [np_zeros [1; 2; 1]; np_zeros [1; 3; 1]].
Proof. vm_compute. reflexivity. Qed.

(** ** Which source the sampling routines draw from *)

Section Sources.

Context {V G : Type} `{Dtype V} `{Numeric V} `{Generator V G}
        `{ChainAlgebra V}.

Lemma uses_only_ret {A : Type} (src : source) (a : A) :
  uses_only (G:=G) src (ret a).
Proof. split; [intros w1 w2 Hw; split; [reflexivity | exact Hw] | reflexivity]. Qed.

Lemma uses_only_lift {A : Type} (src : source) (r : res A) :
  uses_only (G:=G) src (lift r).
Proof. split; [intros w1 w2 Hw; split; [reflexivity | exact Hw] | reflexivity]. Qed.

Lemma uses_only_bind {A B : Type} (src : source) (m : M G A)
      (k : A -> M G B) :
  uses_only src m -> (forall a, uses_only src (k a)) ->
  uses_only src (bind m k).
Proof.
  intros [Hm1 Hm2] Hk. split.
  - intros w1 w2 Hw. specialize (Hm1 w1 w2 Hw). unfold bind.
    destruct (m w1) as [r1 w1'], (m w2) as [r2 w2']. simpl in Hm1.
    destruct Hm1 as [-> Hw']. destruct r2 as [a|e].
    + now apply (Hk a).
    + split; [reflexivity | exact Hw'].
  - intros w. specialize (Hm2 w). unfold bind.
    destruct (m w) as [[a|e] w']; simpl in Hm2.
    + rewrite <- Hm2. apply (Hk a).
    + exact Hm2.
Qed.

Lemma uses_only_mapM {A B : Type} (src : source) (f : A -> M G B)
      (l : list A) :
  (forall x, uses_only src (f x)) -> uses_only src (mapM f l).
Proof.
  intros Hf. induction l as [|x l IH]; simpl.
  - apply uses_only_ret.
  - apply uses_only_bind; [apply Hf|]. intros y.
    apply uses_only_bind; [exact IH|]. intros ys. apply uses_only_ret.
Qed.

Lemma get_set_same (src : source) (s : G) (w : world G) :
  get_src src (set_src src s w) = s.
Proof. now destruct src. Qed.

Lemma get_set_other (src : source) (s : G) (w : world G) :
  get_src (other src) (set_src src s w) = get_src (other src) w.
Proof. now destruct src. Qed.

Lemma uses_only_randn (src : source) (sh : list nat) :
  uses_only src (randn (V:=V) src sh).
Proof.
  split.
  - intros w1 w2 Hw. unfold randn. rewrite Hw.
    destruct (draw gauss (size sh) (get_src src w2)) as [xs s'].
    simpl. now rewrite !get_set_same.
  - intros w. unfold randn.
    destruct (draw gauss (size sh) (get_src src w)) as [xs s'].
    simpl. apply get_set_other.
Qed.

Lemma uses_only_rand (src : source) (n : nat) :
  uses_only src (rand (V:=V) src n).
Proof.
  split.
  - intros w1 w2 Hw. unfold rand. rewrite Hw.
    destruct (draw uniform n (get_src src w2)) as [xs s'].
    simpl. now rewrite !get_set_same.
  - intros w. unfold rand.
    destruct (draw uniform n (get_src src w)) as [xs s'].
    simpl. apply get_set_other.
Qed.

Lemma uses_only_zrandn (sh : list nat) (randstate : option source) :
  uses_only (designated randstate) (_zrandn (V:=V) sh randstate).
Proof.
  unfold _zrandn. fold (designated randstate).
  apply uses_only_bind; [apply uses_only_randn|]. intros re.
  apply uses_only_bind; [apply uses_only_randn|]. intros im.
  apply uses_only_lift.
Qed.

Lemma uses_only_with_int_shape (src : source)
      (func : list nat -> M G (ndarray V)) (shape : list pyval) :
  (forall sh, uses_only src (func sh)) ->
  uses_only src (with_int_shape func shape).
Proof.
  intros Hf. unfold with_int_shape.
  destruct (mapM_opt as_int shape); [apply Hf | apply uses_only_lift].
Qed.

Lemma uses_only_generate (src : source) (sites : nat) (ldim : pyval)
      (bdim : nat) (func : list pyval -> M G (ndarray V)) :
  (forall sh, uses_only src (func sh)) ->
  uses_only src (_generate sites ldim bdim func).
Proof.
  intros Hf. unfold _generate.
  destruct (negb (1 <? sites)); [apply uses_only_lift|].
  destruct (if has_iter ldim
            then match ldim with PSeq l => l | PInt _ => [] end
            else [ldim]) as [|ldim0 ldim_rest]; [apply uses_only_lift|].
  destruct (negb (has_iter ldim0)).
  - apply uses_only_bind; [apply Hf|]. intros a.
    apply uses_only_bind.
    { apply uses_only_mapM. intros _. apply Hf. }
    intros ts.
    apply uses_only_bind; [apply Hf|]. intros b.
    apply uses_only_ret.
  - apply uses_only_bind; [apply uses_only_lift|]. intros ld.
    apply uses_only_bind; [apply Hf|]. intros a.
    apply uses_only_bind.
    { apply uses_only_mapM. intros x.
      apply uses_only_bind; [apply uses_only_lift|]. intros ld'.
      apply Hf. }
    intros ts.
    destruct (skipn (sites - 2) ldim_rest); [apply uses_only_lift|].
    apply uses_only_bind; [apply uses_only_lift|]. intros ld'.
    apply uses_only_bind; [apply Hf|]. intros b.
    apply uses_only_ret.
Qed.

(** The routines that hand [randstate] on draw from the designated
    source and from nothing else. *)
Lemma sampling_uses_designated (randstate : option source) :
  (forall sites ldim,
     uses_only (designated randstate) (random_vec (V:=V) sites ldim randstate))
  /\ (forall sites ldim hermitian normalized,
        uses_only (designated randstate)
          (random_op (V:=V) sites ldim hermitian normalized randstate))
  /\ (forall sites ldim,
        uses_only (designated randstate)
          (random_state (V:=V) sites ldim randstate))
  /\ (forall sites ldim bdim,
        uses_only (designated randstate)
          (random_mpa (V:=V) sites ldim bdim randstate))
  /\ (forall sites ldim bdim hermitian normalized,
        uses_only (designated randstate)
          (random_mpo (V:=V) sites ldim bdim randstate hermitian normalized))
  /\ (forall sites ldim bdim,
        uses_only (designated randstate)
          (random_mps (V:=V) sites ldim bdim randstate)).
Proof.
  assert (Hmpa : forall sites ldim bdim,
             uses_only (designated randstate)
               (random_mpa (V:=V) sites ldim bdim randstate)).
  { intros. apply uses_only_generate. intros sh.
    apply uses_only_with_int_shape. intros sh'. apply uses_only_zrandn. }
  split; [|split; [|split; [|split; [|split]]]].
  - intros. apply uses_only_bind; [apply uses_only_zrandn|].
    intros. apply uses_only_lift.
  - intros. apply uses_only_bind; [apply uses_only_zrandn|].
    intros. apply uses_only_lift.
  - intros. apply uses_only_bind; [apply uses_only_zrandn|].
    intros. apply uses_only_lift.
  - exact Hmpa.
  - intros. apply uses_only_bind; [apply Hmpa|].
    intros. apply uses_only_lift.
  - intros. apply uses_only_bind; [apply Hmpa|].
    intros. apply uses_only_lift.
Qed.

(** [random_state] returns an operator in global form, of shape
    [(ldim,) * 2 * sites]. *)
Lemma random_state_shape (sites ldim : nat) (randstate : option source)
      (w w' : world G) (rho : ndarray V) :
  random_state sites ldim randstate w = (Ok rho, w') ->
  shape rho = repeat ldim (2 * sites).
Proof.
  unfold random_state, bind, lift.
  destruct (_zrandn _ randstate w) as [[mat|e] w1]; [|discriminate].
  destruct (np_dot _ mat) as [rho0|e]; [|discriminate]. cbn [rbind].
  destruct (np_trace2 rho0) as [t|e]; [|discriminate]. cbn [rbind].
  unfold reshape. destruct (size _ =? _); [|discriminate].
  intros E. injection E as <- _. reflexivity.
Qed.

(** C1, where the code departs from it.  [_gue] and [random_local_ham]
    accept a [randstate] and never consult it: whatever is passed, their
    result is a function of the state of the module-level [numpy.random]
    alone, which they advance, and the supplied source is left as it was.
    (The routines of [sampling_uses_designated] do draw from the supplied
    source only.) *)
Theorem gue_draws_from_np_random :
  (forall dim randstate,
     uses_only NpRandom (_gue (V:=V) dim randstate) /\
     _gue (V:=V) (G:=G) dim randstate = _gue dim None) /\
  (forall sites ldim intlen randstate,
     uses_only NpRandom
       (random_local_ham (V:=V) sites ldim intlen randstate) /\
     random_local_ham (V:=V) (G:=G) sites ldim intlen randstate
     = random_local_ham sites ldim intlen None).
Proof.
  split.
  - intros dim randstate. split; [|reflexivity].
    unfold _gue. apply uses_only_bind.
    + apply (uses_only_zrandn [dim; dim] None).
    + intros z0. apply uses_only_lift.
  - intros sites ldim intlen randstate. split; [|reflexivity].
    unfold random_local_ham.
    destruct (negb (intlen <=? sites)); [apply uses_only_lift|].
    apply uses_only_bind; [|intros; apply uses_only_lift].
    apply uses_only_mapM. intros _.
    apply uses_only_bind; [|intros; apply uses_only_lift].
    apply uses_only_bind; [|intros; apply uses_only_lift].
    apply (uses_only_zrandn _ None).
Qed.

(** The scrambling loop of [random_mpdo] draws its unitaries with
    [_gue], and so from [numpy.random], whatever [randstate] is; the
    mixture weights come from [np.random.rand] in the code itself. *)
Lemma scramble_uses_np_random (l : list (nat * nat)) (rho : chain V)
      (randstate : option source) :
  uses_only NpRandom (scramble (V:=V) (G:=G) rho l randstate).
Proof.
  revert rho. induction l as [|[n b] l IH]; intros rho; cbn [scramble].
  - apply uses_only_ret.
  - apply uses_only_bind.
    + unfold _gue. apply uses_only_bind; [|intros; apply uses_only_lift].
      apply (uses_only_zrandn [b; b] None).
    + intros unitary. apply uses_only_bind; [apply uses_only_lift|].
      intros rho'. apply IH.
Qed.

End Sources.

(** ** BlockDiagonalSum: the placement loop *)

Lemma length_map2 {A B C : Type} (f : A -> B -> C) (l1 : list A)
      (l2 : list B) :
  length (map2 f l1 l2) = Nat.min (length l1) (length l2).
Proof.
  revert l2. induction l1 as [|x l1 IH]; intros [|y l2]; simpl; auto.
Qed.

Lemma nth_map2 {A B C : Type} (f : A -> B -> C) (l1 : list A) (l2 : list B)
      (k : nat) (d1 : A) (d2 : B) (d : C) :
  k < length l1 -> k < length l2 ->
  nth k (map2 f l1 l2) d = f (nth k l1 d1) (nth k l2 d2).
Proof.
  revert l2 k. induction l1 as [|x l1 IH]; intros [|y l2] [|k] H1 H2;
    simpl in *; try lia; [reflexivity|]. apply IH; lia.
Qed.

Lemma Forall2_le_refl (l : list nat) : Forall2 le l l.
Proof. induction l; constructor; auto. Qed.

Lemma Forall2_le_trans (a b c : list nat) :
  Forall2 le a b -> Forall2 le b c -> Forall2 le a c.
Proof.
  intros Hab. revert c. induction Hab as [|x y a b Hxy _ IH]; intros c Hbc;
    inversion Hbc; subst; constructor; [lia | auto].
Qed.

Lemma Forall2_le_add (start shp : list nat) :
  length start = length shp -> Forall2 le start (map2 Nat.add start shp).
Proof.
  revert shp. induction start as [|s start IH]; intros [|x shp] Hl;
    simpl in *; try discriminate; constructor; [lia|]. apply IH. lia.
Qed.

(** The running total only grows. *)
Lemma fold_add_mono (shapes : list (list nat)) :
  forall start,
    Forall (fun shp => length shp = length start) shapes ->
    Forall2 le start (fold_left (map2 Nat.add) shapes start).
Proof.
  induction shapes as [|shp shapes IH]; intros start Hf; simpl.
  - apply Forall2_le_refl.
  - inversion Hf as [|? ? Hl Hf']; subst.
    apply (Forall2_le_trans _ (map2 Nat.add start shp)).
    + now apply Forall2_le_add.
    + apply IH.
      assert (E : length (map2 Nat.add start shp) = length start)
        by (rewrite length_map2, Hl, Nat.min_id; reflexivity).
      rewrite E. exact Hf'.
Qed.

Lemma length_fold_add (shapes : list (list nat)) :
  forall start,
    Forall (fun shp => length shp = length start) shapes ->
    length (fold_left (map2 Nat.add) shapes start) = length start.
Proof.
  intros start Hf. symmetry.
  exact (Forall2_length (fold_add_mono shapes start Hf)).
Qed.

Lemma map_sub_combine (start shp : list nat) :
  length start = length shp ->
  map (fun c => snd c - fst c) (combine start (map2 Nat.add start shp)) = shp.
Proof.
  revert shp. induction start as [|s start IH]; intros [|x shp] Hl;
    simpl in *; try discriminate; [reflexivity|].
  f_equal; [lia | apply IH; lia].
Qed.

(** Slices inside the array are not clipped. *)
Lemma clip_slices_id (start endpos tot rest : list nat) :
  Forall2 le start endpos -> Forall2 le endpos tot ->
  clip_slices (tot ++ rest) (combine start endpos) = combine start endpos.
Proof.
  intros Hse. revert tot. unfold clip_slices.
  induction Hse as [|s e start endpos Hs _ IH]; intros tot Het;
    [reflexivity|].
  inversion Het as [|? n ? tot' Hn Het']; subst. simpl.
  unfold slice_clip at 1. simpl.
  rewrite !Nat.min_l by lia. f_equal. now apply IH.
Qed.

Section LoopFacts.

Context {V : Type} `{Dtype V}.

(** One pass of the loop body, for a region inside the array. *)
Lemma iadd_slices_step (r T : ndarray V) (start shp tot rest : list nat) :
  start <> [] -> length shp = length start -> length tot = length start ->
  shape r = tot ++ rest ->
  Forall2 le (map2 Nat.add start shp) tot ->
  iadd_slices r (combine start (map2 Nat.add start shp)) T
  = if bcast_ok (shape T) (shp ++ rest)
    then Ok (tabulate (shape r) (fun idx =>
               if inside (combine start (map2 Nat.add start shp)) idx
               then add (item r idx)
                        (item T (bcast_idx (shape T)
                                   (rel_idx
                                      (combine start
                                         (map2 Nat.add start shp)) idx)))
               else item r idx))
    else Raise ValueError.
Proof.
  intros Hne Hshp Htot Hsh Hle.
  assert (Hlen : length (combine start (map2 Nat.add start shp))
                 = length start).
  { rewrite length_combine, length_map2, Hshp, !Nat.min_id. reflexivity. }
  unfold iadd_slices.
  destruct (combine start (map2 Nat.add start shp)) as [|p pos] eqn:Epos.
  { destruct start; [contradiction | discriminate]. }
  rewrite <- Epos in *. clear Epos p pos.
  assert (Hnd : (ndim r <? length (combine start (map2 Nat.add start shp)))
                = false).
  { apply Nat.ltb_ge. rewrite Hlen. unfold ndim.
    rewrite Hsh, length_app. lia. }
  rewrite Hnd. cbv zeta.
  assert (Hclip : clip_slices (shape r)
                    (combine start (map2 Nat.add start shp))
                  = combine start (map2 Nat.add start shp)).
  { rewrite Hsh. apply clip_slices_id; auto using Forall2_le_add. }
  rewrite !Hclip. rewrite Hsh at 1.
  assert (Hview : view_shape (tot ++ rest)
                    (combine start (map2 Nat.add start shp)) = shp ++ rest).
  { unfold view_shape. rewrite map_sub_combine by auto.
    rewrite Hlen, <- Htot, skipn_app, skipn_all, Nat.sub_diag. reflexivity. }
  rewrite Hview. reflexivity.
Qed.

(** The loop succeeds when every summand broadcasts into its region, and
    then computes [bd_value] at every index. *)
Lemma bd_loop_spec (rest : list nat) (l : list (ndarray V * list nat)) :
  forall (r : ndarray V) (start tot : list nat),
    start <> [] -> length tot = length start ->
    shape r = tot ++ rest ->
    Forall (fun p => length (snd p) = length start) l ->
    Forall2 le (fold_left (map2 Nat.add) (map snd l) start) tot ->
    Forall (fun p => bcast_ok (shape (fst p)) (snd p ++ rest) = true) l ->
    exists r',
      bd_loop r start l = Ok r' /\
      shape r' = shape r /\
      forall idx, in_range (shape r) idx ->
                  item r' idx = bd_value l start (item r idx) idx.
Proof.
  induction l as [|[T shp] l IH]; intros r start tot Hne Htot Hsh Hlen Hle Hb.
  - exists r. repeat split; auto.
  - inversion Hlen as [|? ? Hshp Hlen']; subst.
    inversion Hb as [|? ? HbT Hb']; subst. simpl in Hshp, HbT, Hle.
    assert (Hend : length (map2 Nat.add start shp) = length start).
    { rewrite length_map2, Hshp, Nat.min_id. reflexivity. }
    assert (Hlen'' : Forall (fun p : ndarray V * list nat =>
                       length (snd p) = length (map2 Nat.add start shp)) l).
    { rewrite Hend. exact Hlen'. }
    assert (Hle1 : Forall2 le (map2 Nat.add start shp) tot).
    { apply (Forall2_le_trans _ _ _ (fold_add_mono (map snd l) _
               ltac:(rewrite Forall_map; exact Hlen'')) Hle). }
    cbn [bd_loop].
    rewrite (iadd_slices_step r T start shp tot rest Hne Hshp Htot Hsh Hle1).
    rewrite HbT. cbn [rbind].
    set (r1 := tabulate (shape r) _).
    destruct (IH r1 (map2 Nat.add start shp) tot) as (r' & Hrun & Hs' & Hi').
    + intros E. rewrite E in Hend. destruct start; [contradiction|discriminate].
    + now rewrite Hend.
    + exact Hsh.
    + exact Hlen''.
    + exact Hle.
    + exact Hb'.
    + exists r'. split; [exact Hrun | split; [exact Hs'|]].
      intros idx Hidx. rewrite (Hi' idx Hidx). cbn [bd_value].
      unfold r1. rewrite item_tabulate by exact Hidx. reflexivity.
Qed.

(** The loop raises [ValueError] as soon as one summand does not
    broadcast into its region. *)
Lemma bd_loop_fail (rest : list nat) (l : list (ndarray V * list nat)) :
  forall (r : ndarray V) (start tot : list nat),
    start <> [] -> length tot = length start ->
    shape r = tot ++ rest ->
    Forall (fun p => length (snd p) = length start) l ->
    Forall2 le (fold_left (map2 Nat.add) (map snd l) start) tot ->
    Exists (fun p => bcast_ok (shape (fst p)) (snd p ++ rest) = false) l ->
    bd_loop r start l = Raise ValueError.
Proof.
  induction l as [|[T shp] l IH]; intros r start tot Hne Htot Hsh Hlen Hle Hb.
  - inversion Hb.
  - inversion Hlen as [|? ? Hshp Hlen']; subst. simpl in Hshp, Hle.
    assert (Hend : length (map2 Nat.add start shp) = length start).
    { rewrite length_map2, Hshp, Nat.min_id. reflexivity. }
    assert (Hlen'' : Forall (fun p : ndarray V * list nat =>
                       length (snd p) = length (map2 Nat.add start shp)) l).
    { rewrite Hend. exact Hlen'. }
    assert (Hle1 : Forall2 le (map2 Nat.add start shp) tot).
    { apply (Forall2_le_trans _ _ _ (fold_add_mono (map snd l) _
               ltac:(rewrite Forall_map; exact Hlen'')) Hle). }
    cbn [bd_loop].
    rewrite (iadd_slices_step r T start shp tot rest Hne Hshp Htot Hsh Hle1).
    destruct (bcast_ok (shape T) (shp ++ rest)) eqn:HbT; [|reflexivity].
    cbn [rbind]. apply (IH _ _ tot); auto.
    + intros E. rewrite E in Hend. destruct start; [contradiction|discriminate].
    + now rewrite Hend.
    + inversion Hb as [? ? Hhd | ? ? Htl]; subst; [|exact Htl].
      simpl in Hhd. congruence.
Qed.

End LoopFacts.

(** ** BlockDiagonalSum: the regions do not overlap *)

Lemma hd_le (a b : list nat) : Forall2 le a b -> hd 0 a <= hd 0 b.
Proof. intros [|x y a' b' Hxy _]; simpl; lia. Qed.

(** The region of a slice list lies between its corners on the first
    axis. *)
Lemma inside_hd (start endpos idx : list nat) :
  start <> [] -> length endpos = length start ->
  inside (combine start endpos) idx = true ->
  hd 0 start <= hd 0 idx < hd 0 endpos.
Proof.
  intros Hne Hl. destruct start as [|s start]; [contradiction|].
  destruct endpos as [|e endpos]; [discriminate|].
  unfold inside. simpl. destruct idx as [|i idx]; simpl; [discriminate|].
  rewrite !andb_true_iff, Nat.leb_le, Nat.ltb_lt. intros [[? ?] _]. lia.
Qed.

Lemma inside_spec (start endpos idx : list nat) :
  length endpos = length start -> length start <= length idx ->
  (inside (combine start endpos) idx = true <->
   forall i, i < length start ->
             nth i start 0 <= nth i idx 0 < nth i endpos 0).
Proof.
  revert endpos idx.
  induction start as [|s start IH]; intros [|e endpos] [|i idx] Hl Hi;
    simpl in *; try discriminate; try lia.
  - split; [intros _ k Hk; lia | reflexivity].
  - split; [intros _ k Hk; lia | reflexivity].
  - unfold inside in *. simpl.
    rewrite !andb_true_iff, Nat.leb_le, Nat.ltb_lt.
    rewrite (IH endpos idx) by lia. split.
    + intros [[H1 H2] H3] [|k] Hk; [lia|]. apply H3. lia.
    + intros Hall. split; [apply (Hall 0); lia|].
      intros k Hk. apply (Hall (S k)). lia.
Qed.

Section RegionFacts.

Context {V : Type} `{Dtype V}.

Lemma length_end (start shp : list nat) :
  length shp = length start -> length (map2 Nat.add start shp) = length start.
Proof. intros Hl. rewrite length_map2, Hl, Nat.min_id. reflexivity. Qed.

Lemma end_nonempty (start shp : list nat) :
  start <> [] -> length shp = length start -> map2 Nat.add start shp <> [].
Proof.
  intros Hne Hl E. apply (f_equal (@length nat)) in E.
  rewrite (length_end _ _ Hl) in E. destruct start; [contradiction|discriminate].
Qed.

(** An index before the first region is before all of them. *)
Lemma bd_value_below (l : list (ndarray V * list nat)) :
  forall (start : list nat) (v : V) (idx : list nat),
    start <> [] ->
    Forall (fun p => length (snd p) = length start) l ->
    hd 0 idx < hd 0 start ->
    bd_value l start v idx = v.
Proof.
  induction l as [|[T shp] l IH]; intros start v idx Hne Hlen Hlt;
    [reflexivity|].
  inversion Hlen as [|? ? Hshp Hlen']; subst. simpl in Hshp.
  cbn [bd_value].
  destruct (inside (combine start (map2 Nat.add start shp)) idx) eqn:E.
  - apply inside_hd in E; auto using length_end. lia.
  - apply IH; auto using end_nonempty.
    + rewrite (length_end _ _ Hshp). exact Hlen'.
    + pose proof (hd_le _ _ (Forall2_le_add start shp (eq_sym Hshp))). lia.
Qed.

(** An index inside the region of one summand receives that summand's
    entry and nothing else. *)
Lemma bd_value_block (pre post : list (ndarray V * list nat))
      (T : ndarray V) (shp : list nat) :
  forall (start : list nat) (v : V) (idx : list nat),
    start <> [] ->
    Forall (fun p => length (snd p) = length start)
           (pre ++ (T, shp) :: post) ->
    inside (combine (fold_left (map2 Nat.add) (map snd pre) start)
                    (map2 Nat.add
                       (fold_left (map2 Nat.add) (map snd pre) start) shp))
           idx = true ->
    bd_value (pre ++ (T, shp) :: post) start v idx
    = add v (item T (bcast_idx (shape T)
                       (rel_idx
                          (combine
                             (fold_left (map2 Nat.add) (map snd pre) start)
                             (map2 Nat.add
                                (fold_left (map2 Nat.add) (map snd pre) start)
                                shp)) idx))).
Proof.
  induction pre as [|[T' shp'] pre IH]; intros start v idx Hne Hlen Hin.
  - simpl in *. inversion Hlen as [|? ? Hshp Hlen']; subst. simpl in Hshp.
    rewrite Hin. apply bd_value_below; auto using end_nonempty.
    + rewrite (length_end _ _ Hshp). exact Hlen'.
    + apply inside_hd in Hin; auto using length_end. lia.
  - simpl app in *. inversion Hlen as [|? ? Hshp' Hlen']; subst.
    simpl in Hshp'. cbn [bd_value]. simpl map in Hin. simpl fold_left in Hin.
    assert (Hlen'' : Forall (fun p : ndarray V * list nat =>
                       length (snd p) = length (map2 Nat.add start shp'))
                       (pre ++ (T, shp) :: post)).
    { rewrite (length_end _ _ Hshp'). exact Hlen'. }
    assert (Hpre : Forall (fun s : list nat =>
                      length s = length (map2 Nat.add start shp'))
                     (map snd pre)).
    { rewrite Forall_map. apply Forall_app in Hlen''. apply Hlen''. }
    assert (Hshp : length shp = length (map2 Nat.add start shp')).
    { apply Forall_app in Hlen''. destruct Hlen'' as [_ Hx].
      inversion Hx; subst. assumption. }
    destruct (inside (combine start (map2 Nat.add start shp')) idx) eqn:E.
    + exfalso.
      apply inside_hd in E; auto using length_end.
      apply inside_hd in Hin.
      * pose proof (hd_le _ _ (fold_add_mono _ _ Hpre)). lia.
      * intros E0. apply (f_equal (@length nat)) in E0.
        rewrite (length_fold_add _ _ Hpre), (length_end _ _ Hshp') in E0.
        destruct start; [contradiction | discriminate].
      * apply length_end. now rewrite (length_fold_add _ _ Hpre).
    + simpl map. simpl fold_left.
      apply IH; auto using end_nonempty.
Qed.

(** An index in no region keeps its value. *)
Lemma bd_value_none (l : list (ndarray V * list nat)) :
  forall (start : list nat) (v : V) (idx : list nat),
    (forall pre T shp post,
        l = pre ++ (T, shp) :: post ->
        inside (combine (fold_left (map2 Nat.add) (map snd pre) start)
                        (map2 Nat.add
                           (fold_left (map2 Nat.add) (map snd pre) start)
                           shp)) idx = false) ->
    bd_value l start v idx = v.
Proof.
  induction l as [|[T shp] l IH]; intros start v idx Hout; [reflexivity|].
  cbn [bd_value].
  pose proof (Hout [] T shp l eq_refl) as E0. simpl in E0.
  rewrite E0. apply IH.
  intros pre T' shp' post E.
  apply (Hout ((T, shp) :: pre) T' shp' post). now rewrite E.
Qed.

End RegionFacts.

(** ** BlockDiagonalSum: the axis order and its inverse *)

Lemma norm_axis_lt (n : nat) (a : Z) (x : nat) :
  norm_axis n a = Some x ->
  x < n /\ (if (a <? 0)%Z then (a + Z.of_nat n)%Z else a) = Z.of_nat x.
Proof.
  unfold norm_axis.
  destruct (Z.leb_spec 0 a), (Z.ltb_spec a (Z.of_nat n)); simpl;
    try (intros E; injection E as <-);
    try (destruct (Z.ltb_spec a 0); split; lia).
  all: destruct (Z.leb_spec (- Z.of_nat n) a), (Z.ltb_spec a 0); simpl;
    try discriminate; intros E; injection E as <-; split; lia.
Qed.

Lemma mapM_opt_norm_axis_inv (n : nat) (axes : list Z) :
  forall ax, mapM_opt (norm_axis n) axes = Some ax ->
             Forall (fun x => x < n) ax /\
             resolve_axes n axes = map Z.of_nat ax.
Proof.
  induction axes as [|a axes IH]; intros ax Hm; simpl in Hm.
  - injection Hm as <-. split; [constructor | reflexivity].
  - destruct (norm_axis n a) as [x|] eqn:Ea; [|discriminate].
    destruct (mapM_opt (norm_axis n) axes) as [xs|]; [|discriminate].
    injection Hm as <-. destruct (IH xs eq_refl) as [Hf Hr].
    destruct (norm_axis_lt n a x Ea) as [Hx Hax].
    split; [now constructor|]. simpl. now rewrite Hax, Hr.
Qed.

Lemma existsb_of_nat (i : nat) (ax : list nat) :
  existsb (Z.eqb (Z.of_nat i)) (map Z.of_nat ax) = existsb (Nat.eqb i) ax.
Proof.
  induction ax as [|x ax IH]; simpl; [reflexivity|]. rewrite IH. f_equal.
  destruct (Z.eqb_spec (Z.of_nat i) (Z.of_nat x)), (Nat.eqb_spec i x);
    auto; lia.
Qed.

Lemma bd_axes_order_perm (n : nat) (ax : list nat) :
  bd_axes_order n (map Z.of_nat ax) = map Z.of_nat (bd_perm n ax).
Proof.
  unfold bd_axes_order, bd_perm, other_axes, range.
  rewrite map_app, Nat2Z.id. f_equal.
  induction (seq 0 n) as [|i l IH]; simpl; [reflexivity|].
  rewrite existsb_of_nat, IH.
  destruct (negb (existsb (Nat.eqb i) ax)); reflexivity.
Qed.

Lemma other_axes_In (n : nat) (ax : list nat) (j : nat) :
  In j (other_axes n ax) <-> j < n /\ ~ In j ax.
Proof.
  unfold other_axes. rewrite filter_In, in_seq, negb_true_iff. split.
  - intros [Hj He]. split; [lia|]. intros Hin.
    assert (E : existsb (Nat.eqb j) ax = true).
    { apply existsb_exists. exists j. split; [exact Hin | apply Nat.eqb_refl]. }
    congruence.
  - intros [Hj Hn]. split; [lia|].
    destruct (existsb (Nat.eqb j) ax) eqn:E; [|reflexivity].
    apply existsb_exists in E. destruct E as [x [Hx Hjx]].
    apply Nat.eqb_eq in Hjx. subst. contradiction.
Qed.

Lemma is_perm_bd (n : nat) (ax : list nat) :
  NoDup ax -> Forall (fun x => x < n) ax -> is_perm n (bd_perm n ax).
Proof.
  intros Hnd Hf. rewrite Forall_forall in Hf.
  assert (Hnd' : NoDup (bd_perm n ax)).
  { apply NoDup_app; [exact Hnd | apply NoDup_filter, seq_NoDup |].
    intros a Ha Hb. apply other_axes_In in Hb. tauto. }
  assert (Hin : forall x, In x (bd_perm n ax) <-> In x (seq 0 n)).
  { intros x. unfold bd_perm. rewrite in_app_iff, other_axes_In, in_seq.
    split.
    - intros [Hx | [Hx _]]; [specialize (Hf x Hx)|]; lia.
    - intros Hx. destruct (in_dec Nat.eq_dec x ax); [now left | right].
      split; [lia | assumption]. }
  split; [|split].
  - rewrite (Permutation_length
               (NoDup_Permutation Hnd' (seq_NoDup n 0) Hin)).
    apply length_seq.
  - exact Hnd'.
  - apply Forall_forall. intros x Hx. apply Hin, in_seq in Hx. lia.
Qed.

(** *** [argsort] of a permutation is its inverse *)

Lemma insert_by_In (p : Z * nat) (l : list (Z * nat)) (x : Z * nat) :
  In x (insert_by p l) <-> x = p \/ In x l.
Proof.
  induction l as [|q l IH]; simpl.
  - split; [intros [E|[]]; auto | intros [E|[]]; auto].
  - destruct (fst p <=? fst q)%Z; simpl; [intuition congruence|].
    rewrite IH. intuition congruence.
Qed.

Lemma insert_by_perm (p : Z * nat) (l : list (Z * nat)) :
  Permutation (insert_by p l) (p :: l).
Proof.
  induction l as [|q l IH]; simpl; [apply Permutation_refl|].
  destruct (fst p <=? fst q)%Z; [apply Permutation_refl|].
  apply (perm_trans (perm_skip q IH)). apply perm_swap.
Qed.

Lemma sort_perm (l : list (Z * nat)) :
  Permutation (fold_right insert_by [] l) l.
Proof.
  induction l as [|p l IH]; simpl; [constructor|].
  apply (perm_trans (insert_by_perm p _)). now constructor.
Qed.

Lemma insert_by_sorted (p : Z * nat) (l : list (Z * nat)) :
  StronglySorted (fun a b => (fst a <= fst b)%Z) l ->
  StronglySorted (fun a b => (fst a <= fst b)%Z) (insert_by p l).
Proof.
  intros Hs. induction Hs as [|q l Hs IH Hq]; simpl.
  - constructor; constructor.
  - destruct (Z.leb_spec (fst p) (fst q)) as [Hle | Hlt].
    + constructor; [now constructor|].
      constructor; [exact Hle|].
      rewrite Forall_forall in *. intros x Hx. specialize (Hq x Hx). lia.
    + constructor; [exact IH|].
      rewrite Forall_forall in *. intros x Hx.
      apply insert_by_In in Hx. destruct Hx as [-> | Hx]; [lia | auto].
Qed.

Lemma sort_sorted (l : list (Z * nat)) :
  StronglySorted (fun a b => (fst a <= fst b)%Z) (fold_right insert_by [] l).
Proof.
  induction l as [|p l IH]; simpl; [constructor | now apply insert_by_sorted].
Qed.

(** A strictly ascending list of [length l] integers from
    [lo, lo + length l) is the whole interval. *)
Lemma strict_interval (l : list Z) :
  forall lo : Z,
    StronglySorted Z.lt l ->
    (forall z, In z l -> (lo <= z < lo + Z.of_nat (length l))%Z) ->
    l = map (fun i => (lo + Z.of_nat i)%Z) (seq 0 (length l)).
Proof.
  induction l as [|a l IH]; intros lo Hs Hb; [reflexivity|].
  inversion Hs as [|? ? Hs' Ha]; subst.
  rewrite Forall_forall in Ha.
  assert (Hb' : forall z, In z l ->
                  (lo + 1 <= z < lo + 1 + Z.of_nat (length l))%Z).
  { intros z Hz. specialize (Ha z Hz).
    pose proof (Hb a (or_introl eq_refl)).
    pose proof (Hb z (or_intror Hz)). simpl length in *. lia. }
  specialize (IH (lo + 1)%Z Hs' Hb').
  assert (Ea : a = lo).
  { pose proof (Hb a (or_introl eq_refl)) as Hba. simpl length in Hba.
    destruct l as [|b l'].
    - simpl in Hba. lia.
    - assert (Hb1 : b = (lo + 1 + Z.of_nat 0)%Z).
      { simpl in IH. injection IH as Hb1 _. exact Hb1. }
      specialize (Ha b (or_introl eq_refl)). lia. }
  subst a. simpl. f_equal; [lia|].
  rewrite IH at 1. rewrite <- seq_shift, map_map.
  apply map_ext. intros i. lia.
Qed.

Lemma sorted_le_NoDup_lt (l : list Z) :
  StronglySorted Z.le l -> NoDup l -> StronglySorted Z.lt l.
Proof.
  intros Hs. induction Hs as [|a l Hs IH Ha]; intros Hnd; constructor.
  - apply IH. now inversion Hnd.
  - inversion Hnd as [|? ? Hnin _]; subst.
    rewrite Forall_forall in *. intros x Hx. specialize (Ha x Hx).
    assert (x <> a) by (intros ->; contradiction). lia.
Qed.

Lemma sorted_map_fst (l : list (Z * nat)) :
  StronglySorted (fun a b => (fst a <= fst b)%Z) l ->
  StronglySorted Z.le (map fst l).
Proof.
  intros Hs. induction Hs as [|a l Hs IH Ha]; simpl; constructor; auto.
  rewrite Forall_map. exact Ha.
Qed.

Lemma map_fst_combine {A B : Type} (l1 : list A) (l2 : list B) :
  length l1 = length l2 -> map fst (combine l1 l2) = l1.
Proof.
  revert l2. induction l1 as [|x l1 IH]; intros [|y l2] Hl; simpl in *;
    try discriminate; [reflexivity|]. f_equal. apply IH. lia.
Qed.

Lemma in_combine_seq (perm : list nat) (z : Z) (i : nat) :
  In (z, i) (combine (map Z.of_nat perm) (seq 0 (length perm))) ->
  i < length perm /\ z = Z.of_nat (nth i perm 0).
Proof.
  intros Hin. apply (In_nth _ _ (0%Z, 0)) in Hin.
  destruct Hin as (k & Hk & Ek).
  rewrite length_combine, length_map, length_seq, Nat.min_id in Hk.
  rewrite combine_nth in Ek by now rewrite length_map, length_seq.
  injection Ek as Ez Ei. rewrite seq_nth in Ei by exact Hk. simpl in Ei.
  subst i. split; [exact Hk|].
  rewrite <- Ez. apply (nth_map_in Z.of_nat perm k 0%Z 0 Hk).
Qed.

Lemma NoDup_map_left_inverse_Z (l : list nat) :
  NoDup l -> NoDup (map Z.of_nat l).
Proof.
  intros Hnd. induction Hnd as [|x l Hx Hnd IH]; simpl; constructor; auto.
  intros Hin. apply in_map_iff in Hin. destruct Hin as (y & Ey & Hy).
  apply Nat2Z.inj in Ey. subst. contradiction.
Qed.

Lemma argsort_perm (n : nat) (perm : list nat) :
  is_perm n perm ->
  argsort (map Z.of_nat perm) = map (fun j => index_of j perm) (seq 0 n).
Proof.
  intros (Hl & Hnd & Hf). unfold argsort. rewrite length_map, Hl.
  set (L := combine (map Z.of_nat perm) (seq 0 n)).
  set (S := fold_right insert_by [] L).
  assert (HP : Permutation S L) by apply sort_perm.
  assert (HlenS : length S = n).
  { rewrite (Permutation_length HP). unfold L.
    rewrite length_combine, length_map, length_seq, Hl. apply Nat.min_id. }
  assert (HfstL : map fst L = map Z.of_nat perm).
  { unfold L. apply map_fst_combine. now rewrite length_map, length_seq. }
  assert (HPf : Permutation (map fst S) (map Z.of_nat perm)).
  { rewrite <- HfstL. now apply Permutation_map. }
  assert (Hfst : map fst S = map Z.of_nat (seq 0 n)).
  { assert (E : map fst S
                = map (fun i => (0 + Z.of_nat i)%Z)
                      (seq 0 (length (map fst S)))).
    { apply strict_interval.
      - apply sorted_le_NoDup_lt.
        + apply sorted_map_fst, sort_sorted.
        + apply (Permutation_NoDup (Permutation_sym HPf)).
          apply (NoDup_map_left_inverse_Z perm Hnd).
      - intros z Hz. rewrite length_map, HlenS.
        apply (Permutation_in _ HPf) in Hz. apply in_map_iff in Hz.
        destruct Hz as (x & <- & Hx). rewrite Forall_forall in Hf.
        specialize (Hf x Hx). lia. }
    rewrite E, length_map, HlenS. apply map_ext. intros i. lia. }
  apply (nth_ext _ _ 0 0).
  - now rewrite !length_map, length_seq.
  - rewrite length_map, HlenS. intros j Hj.
    rewrite nth_map_seq by exact Hj.
    rewrite (nth_map_in snd S j 0 (0%Z, 0)) by lia.
    assert (Hin : In (nth j S (0%Z, 0)) L).
    { apply (Permutation_in _ HP), nth_In. lia. }
    assert (Hz : fst (nth j S (0%Z, 0)) = Z.of_nat j).
    { rewrite <- (nth_map_in fst S j 0%Z (0%Z, 0)) by lia.
      rewrite Hfst. apply nth_map_seq. exact Hj. }
    destruct (nth j S (0%Z, 0)) as [z i]. simpl in *. subst z.
    unfold L in Hin. rewrite <- Hl in Hin.
    apply in_combine_seq in Hin. destruct Hin as [Hi Ez].
    apply Nat2Z.inj in Ez. rewrite Ez.
    symmetry. now apply index_of_nth.
Qed.

(** ** BlockDiagonalSum: running [block_diag] *)

Lemma map2_map {A B C D : Type} (f : B -> C -> D) (g : A -> B) (h : A -> C)
      (l : list A) :
  map2 f (map g l) (map h l) = map (fun x => f (g x) (h x)) l.
Proof. induction l as [|x l IH]; simpl; [reflexivity | now rewrite IH]. Qed.

Lemma repeat_map {A B : Type} (b : B) (l : list A) :
  repeat b (length l) = map (fun _ => b) l.
Proof. induction l as [|x l IH]; simpl; [reflexivity | now rewrite IH]. Qed.

Section RunFacts.

Context {V : Type} `{Dtype V}.

(** The running total of the listed extents. *)
Lemma fold_add_listed (ax : list nat) (l : list (ndarray V)) :
  forall s : nat -> nat,
    fold_left (map2 Nat.add) (map (listed ax) l) (map s ax)
    = map (fun j => s j + list_sum (map (fun a => nth j (shape a) 0) l)) ax.
Proof.
  induction l as [|x l IH]; intros s; simpl.
  - apply map_ext. intros j. lia.
  - unfold listed at 2. rewrite map2_map, IH.
    apply map_ext. intros j. lia.
Qed.

Lemma col_sums_listed (ax : list nat) (l : list (ndarray V)) :
  col_sums (length ax) (map (listed ax) l)
  = map (fun j => list_sum (map (fun a => nth j (shape a) 0) l)) ax.
Proof.
  unfold col_sums. rewrite repeat_map, fold_add_listed. reflexivity.
Qed.

Lemma mapM_res_transpose (n : nat) (perm : list nat) (l : list (ndarray V)) :
  is_perm n perm -> Forall (fun a => ndim a = n) l ->
  mapM_res (fun a => transpose a (map Z.of_nat perm)) l
  = Ok (map (fun a => permute_axes a perm) l).
Proof.
  intros Hp Hl. induction Hl as [|a l Ha _ IH]; simpl; [reflexivity|].
  rewrite transpose_perm by now rewrite Ha. simpl. now rewrite IH.
Qed.

Lemma shape_permute_bd (n : nat) (ax : list nat) (a : ndarray V) :
  shape (permute_axes a (bd_perm n ax)) = listed ax a ++ unlisted n ax a.
Proof. rewrite shape_permute_axes. unfold bd_perm. apply map_app. Qed.

Lemma firstn_shape_bd (n : nat) (ax : list nat) (a : ndarray V) :
  firstn (length ax) (shape (permute_axes a (bd_perm n ax))) = listed ax a.
Proof.
  rewrite shape_permute_bd.
  replace (length ax) with (length (listed ax a) + 0)
    by (unfold listed; rewrite length_map; lia).
  rewrite firstn_app_2. simpl. apply app_nil_r.
Qed.

Lemma skipn_shape_bd (n : nat) (ax : list nat) (a : ndarray V) :
  skipn (length ax) (shape (permute_axes a (bd_perm n ax))) = unlisted n ax a.
Proof.
  rewrite shape_permute_bd.
  replace (length ax) with (length (listed ax a))
    by (unfold listed; now rewrite length_map).
  rewrite skipn_app, skipn_all, Nat.sub_diag. reflexivity.
Qed.

Lemma combine_blocks (n : nat) (ax : list nat) (l : list (ndarray V)) :
  combine (map (fun a => permute_axes a (bd_perm n ax)) l)
          (map (fun array => firstn (length ax) (shape array))
               (map (fun a => permute_axes a (bd_perm n ax)) l))
  = map (bd_block n ax) l.
Proof.
  induction l as [|a l IH]; cbn [map combine]; [reflexivity|].
  rewrite IH, firstn_shape_bd. reflexivity.
Qed.

(** [block_diag] on summands of one rank and valid axes, reduced to its
    loop and the final transposition. *)
Lemma block_diag_unfold (first : ndarray V) (others : list (ndarray V))
      (axes : list Z) (ax : list nat) :
  valid_axes (ndim first) axes ax ->
  Forall (fun a => ndim a = ndim first) (first :: others) ->
  block_diag (first :: others) axes
  = (r <- bd_loop
            (np_zeros
               (map (fun j => list_sum
                                (map (fun a => nth j (shape a) 0)
                                     (first :: others))) ax
                ++ unlisted (ndim first) ax first))
            (map (fun _ => 0) ax)
            (map (bd_block (ndim first) ax) (first :: others)) ;;
     transpose r
       (map Z.of_nat
            (map (fun j => index_of j (bd_perm (ndim first) ax))
                 (seq 0 (ndim first))))).
Proof.
  intros (Hm & Hnd & Hne) Hrank.
  destruct (mapM_opt_norm_axis_inv _ _ _ Hm) as [Hf Hres].
  pose proof (is_perm_bd _ _ Hnd Hf) as Hperm.
  unfold block_diag. rewrite Hres, length_map, bd_axes_order_perm.
  rewrite (mapM_res_transpose _ _ _ Hperm Hrank). cbn [rbind].
  rewrite combine_blocks.
  assert (Hsh : map (fun array : ndarray V => firstn (length ax) (shape array))
                  (map (fun a => permute_axes a (bd_perm (ndim first) ax))
                       (first :: others))
                = map (listed ax) (first :: others)).
  { rewrite map_map. apply map_ext. intros a. apply firstn_shape_bd. }
  rewrite Hsh, col_sums_listed, repeat_map.
  rewrite (argsort_perm _ _ Hperm).
  cbn [map hd]. rewrite skipn_shape_bd. reflexivity.
Qed.

Lemma forallb2_map {A : Type} (f : nat -> nat -> bool) (g h : A -> nat)
      (l : list A) :
  forallb2 f (map g l) (map h l) = forallb (fun x => f (g x) (h x)) l.
Proof. induction l as [|x l IH]; simpl; [reflexivity | now rewrite IH]. Qed.

Lemma forallb2_app_same (f : nat -> nat -> bool) (l r1 r2 : list nat) :
  (forall x, f x x = true) ->
  forallb2 f (l ++ r1) (l ++ r2) = forallb2 f r1 r2.
Proof.
  intros Hf. induction l as [|x l IH]; simpl; [reflexivity|].
  now rewrite Hf, IH.
Qed.

Lemma bcast_ok_app (l r1 r2 : list nat) :
  length r1 = length r2 ->
  bcast_ok (l ++ r1) (l ++ r2)
  = forallb2 (fun s d => (s =? d) || (s =? 1)) r1 r2.
Proof.
  intros Hl. unfold bcast_ok. rewrite !length_app, Hl, Nat.leb_refl.
  rewrite Nat.sub_diag. simpl skipn. cbn [andb].
  apply forallb2_app_same. intros x. now rewrite Nat.eqb_refl.
Qed.

(** A summand broadcasts into its region exactly when its unlisted
    extents are those of the first summand, or 1. *)
Lemma block_bcast_iff (n : nat) (ax : list nat) (first a : ndarray V) :
  bcast_ok (shape (fst (bd_block n ax a)))
           (snd (bd_block n ax a) ++ unlisted n ax first) = true
  <-> broadcasts n ax first a.
Proof.
  unfold bd_block. cbn [fst snd]. rewrite shape_permute_bd.
  rewrite bcast_ok_app by (unfold unlisted; now rewrite !length_map).
  unfold unlisted. rewrite forallb2_map, forallb_forall. split.
  - intros Hall j Hj Hnin.
    assert (Hin : In j (other_axes n ax)) by now apply other_axes_In.
    specialize (Hall j Hin). apply orb_true_iff in Hall.
    rewrite !Nat.eqb_eq in Hall. exact Hall.
  - intros Hb j Hin. apply other_axes_In in Hin. destruct Hin as [Hj Hnin].
    apply orb_true_iff. rewrite !Nat.eqb_eq. now apply Hb.
Qed.

Lemma is_perm_inverse (n : nat) (perm : list nat) :
  is_perm n perm ->
  is_perm n (map (fun j => index_of j perm) (seq 0 n)).
Proof.
  intros Hp. split; [|split].
  - now rewrite length_map, length_seq.
  - apply (NoDup_map_left_inverse _ (fun i => nth i perm 0));
      [|apply seq_NoDup].
    intros j Hj. apply in_seq in Hj.
    apply nth_index_of, (is_perm_In n); [exact Hp | lia].
  - apply Forall_forall. intros x Hx. apply in_map_iff in Hx.
    destruct Hx as (j & <- & Hj). apply in_seq in Hj.
    assert (Hl : length perm = n) by apply Hp.
    rewrite <- Hl. apply nth_index_of, (is_perm_In n); [exact Hp | lia].
Qed.

Lemma item_np_zeros (sh idx : list nat) :
  in_range sh idx -> item (np_zeros (V:=V) sh) idx = zero.
Proof. intros Hr. unfold np_zeros. now rewrite item_tabulate. Qed.

(** The hypotheses of the loop lemmas hold for the call that
    [block_diag] makes. *)
Lemma block_diag_loop_hyps (n : nat) (ax : list nat)
      (summands : list (ndarray V)) :
  Forall (fun p : ndarray V * list nat =>
            length (snd p) = length (map (fun _ : nat => 0) ax))
         (map (bd_block n ax) summands) /\
  Forall2 le
    (fold_left (map2 Nat.add) (map snd (map (bd_block n ax) summands))
               (map (fun _ => 0) ax))
    (map (fun j => list_sum (map (fun a => nth j (shape a) 0) summands)) ax).
Proof.
  split.
  - rewrite Forall_map. apply Forall_forall. intros a _.
    unfold bd_block, listed. cbn [snd]. now rewrite !length_map.
  - replace (map snd (map (bd_block n ax) summands))
      with (map (listed ax) summands) by (now rewrite map_map).
    rewrite (fold_add_listed ax summands (fun _ => 0)).
    apply Forall2_le_refl.
Qed.

(** When every summand broadcasts, [block_diag] returns the result of
    its loop, transposed back. *)
Lemma block_diag_ok (first : ndarray V) (others : list (ndarray V))
      (axes : list Z) (ax : list nat) :
  valid_axes (ndim first) axes ax ->
  Forall (fun a => ndim a = ndim first) (first :: others) ->
  Forall (broadcasts (ndim first) ax first) (first :: others) ->
  exists R,
    block_diag (first :: others) axes
    = Ok (permute_axes R
            (map (fun j => index_of j (bd_perm (ndim first) ax))
                 (seq 0 (ndim first)))) /\
    shape R
    = map (fun j => list_sum (map (fun a => nth j (shape a) 0)
                                  (first :: others))) ax
      ++ unlisted (ndim first) ax first /\
    forall idx,
      in_range (shape R) idx ->
      item R idx
      = bd_value (map (bd_block (ndim first) ax) (first :: others))
                 (map (fun _ => 0) ax) zero idx.
Proof.
  intros Hv Hrank Hb.
  rewrite (block_diag_unfold _ _ _ _ Hv Hrank).
  destruct Hv as (Hm & Hnd & Hne).
  destruct (mapM_opt_norm_axis_inv _ _ _ Hm) as [Hf _].
  pose proof (is_perm_bd _ _ Hnd Hf) as Hperm.
  destruct (block_diag_loop_hyps (ndim first) ax (first :: others))
    as [Hlen Hle].
  set (tot := map (fun j => list_sum (map (fun a => nth j (shape a) 0)
                                          (first :: others))) ax) in *.
  destruct (bd_loop_spec (unlisted (ndim first) ax first)
              (map (bd_block (ndim first) ax) (first :: others))
              (np_zeros (tot ++ unlisted (ndim first) ax first))
              (map (fun _ => 0) ax) tot)
    as (R & Hrun & HshR & HitR).
  - intros E. apply Hne. destruct ax; [reflexivity | discriminate].
  - unfold tot. now rewrite !length_map.
  - reflexivity.
  - exact Hlen.
  - exact Hle.
  - rewrite Forall_map. rewrite Forall_forall in *. intros a Ha.
    apply block_bcast_iff. now apply Hb.
  - exists R. rewrite Hrun. cbn [rbind]. cbn [np_zeros tabulate shape] in HshR.
    split; [|split; [exact HshR|]].
    + assert (HndR : ndim R = ndim first).
      { unfold ndim at 1. rewrite HshR, length_app. unfold tot, unlisted.
        rewrite !length_map.
        destruct Hperm as (Hl & _). unfold bd_perm in Hl.
        rewrite length_app in Hl. exact Hl. }
      apply transpose_perm. rewrite HndR. now apply is_perm_inverse.
    + intros idx Hidx. rewrite HshR in Hidx.
      rewrite (HitR idx Hidx). now rewrite item_np_zeros.
Qed.

(** When some summand does not broadcast, the loop raises. *)
Lemma block_diag_fail (first : ndarray V) (others : list (ndarray V))
      (axes : list Z) (ax : list nat) :
  valid_axes (ndim first) axes ax ->
  Forall (fun a => ndim a = ndim first) (first :: others) ->
  Exists (fun a => ~ broadcasts (ndim first) ax first a) (first :: others) ->
  block_diag (first :: others) axes = Raise ValueError /\
  bd_loop
    (np_zeros
       (map (fun j => list_sum (map (fun a => nth j (shape a) 0)
                                    (first :: others))) ax
        ++ unlisted (ndim first) ax first))
    (map (fun _ => 0) ax)
    (map (bd_block (ndim first) ax) (first :: others)) = Raise ValueError.
Proof.
  intros Hv Hrank Hb.
  rewrite (block_diag_unfold _ _ _ _ Hv Hrank).
  destruct Hv as (Hm & Hnd & Hne).
  destruct (block_diag_loop_hyps (ndim first) ax (first :: others))
    as [Hlen Hle].
  set (tot := map (fun j => list_sum (map (fun a => nth j (shape a) 0)
                                          (first :: others))) ax) in *.
  assert (Hfail : bd_loop
            (np_zeros (tot ++ unlisted (ndim first) ax first))
            (map (fun _ => 0) ax)
            (map (bd_block (ndim first) ax) (first :: others))
          = Raise ValueError).
  { apply (bd_loop_fail (unlisted (ndim first) ax first) _ _ _ tot).
    - intros E. apply Hne. destruct ax; [reflexivity | discriminate].
    - unfold tot. now rewrite !length_map.
    - reflexivity.
    - exact Hlen.
    - exact Hle.
    - apply Exists_exists in Hb. destruct Hb as (a & Ha & Hna).
      apply Exists_exists. exists (bd_block (ndim first) ax a).
      split; [now apply in_map|].
      destruct (bcast_ok _ _) eqn:E; [|reflexivity].
      exfalso. apply Hna. now apply block_bcast_iff. }
  rewrite Hfail. split; reflexivity.
Qed.

End RunFacts.

(** ** BlockDiagonalSum: back to the axes of the summands *)

Lemma map_nth_seq {B : Type} (f : nat -> B) (l : list nat) :
  map (fun j => f (nth j l 0)) (seq 0 (length l)) = map f l.
Proof.
  apply (nth_ext _ _ (f 0) (f 0)).
  - now rewrite !length_map, length_seq.
  - rewrite length_map, length_seq. intros k Hk.
    rewrite nth_map_seq by exact Hk.
    now rewrite (nth_map_in f l k (f 0) 0 Hk).
Qed.

Lemma index_of_inverse (n : nat) (perm : list nat) (j : nat) :
  is_perm n perm -> j < n ->
  index_of j (map (fun i => index_of i perm) (seq 0 n)) = nth j perm 0.
Proof.
  intros Hp Hj.
  assert (Hl : length perm = n) by apply Hp.
  assert (Hpj : nth j perm 0 < n).
  { destruct Hp as (_ & _ & Hf). rewrite Forall_forall in Hf.
    apply Hf, nth_In. lia. }
  pose proof (is_perm_inverse n perm Hp) as (Hli & Hndi & _).
  rewrite <- (index_of_nth _ Hndi (nth j perm 0)) by lia.
  f_equal. rewrite nth_map_seq by exact Hpj.
  symmetry. apply index_of_nth; [apply Hp | lia].
Qed.

Lemma reorder_nth (perm idx : list nat) (i : nat) :
  i < length perm -> nth i (reorder perm idx) 0 = nth (nth i perm 0) idx 0.
Proof. intros Hi. unfold reorder. now rewrite (nth_map_in _ perm i 0 0 Hi). Qed.

(** Reading an index in the order [perm] and back. *)
Lemma gather_reorder (n : nat) (perm idx : list nat) :
  is_perm n perm -> length idx = n ->
  map (fun j => nth (index_of j perm) (reorder perm idx) 0) (seq 0 n) = idx.
Proof.
  intros Hp Hl. apply (nth_ext _ _ 0 0).
  - now rewrite length_map, length_seq.
  - rewrite length_map, length_seq. intros j Hj.
    rewrite nth_map_seq by exact Hj.
    destruct (nth_index_of perm j (is_perm_In n perm j Hp Hj)) as [E Hi].
    now rewrite reorder_nth, E.
Qed.

Lemma in_range_reorder (g : nat -> nat) (perm idx : list nat) :
  (forall p, In p perm -> nth p idx 0 < g p) ->
  in_range (map g perm) (reorder perm idx).
Proof.
  unfold in_range, reorder. induction perm as [|p perm IH]; intros Hg;
    simpl; constructor.
  - apply Hg. now left.
  - apply IH. intros q Hq. apply Hg. now right.
Qed.

Lemma bcast_idx_id (src idx : list nat) :
  in_range src idx -> bcast_idx src idx = idx.
Proof.
  intros Hr. unfold bcast_idx.
  rewrite (in_range_length _ _ Hr), Nat.sub_diag. simpl skipn.
  unfold in_range in Hr. induction Hr as [|i n idx src Hi _ IH]; simpl;
    [reflexivity|].
  rewrite IH. f_equal. destruct (Nat.eqb_spec n 1); lia.
Qed.

Lemma map2_combine_map {C : Type} (f : nat * nat -> nat -> C)
      (s e h : nat -> nat) (ax : list nat) (tail : list nat) :
  map2 f (combine (map s ax) (map e ax)) (map h ax ++ tail)
  = map (fun j => f (s j, e j) (h j)) ax.
Proof. induction ax as [|j ax IH]; simpl; [reflexivity | now rewrite IH]. Qed.

Lemma existsb_eqb_In (j : nat) (ax : list nat) :
  existsb (Nat.eqb j) ax = true <-> In j ax.
Proof.
  rewrite existsb_exists. split.
  - intros (x & Hx & E). apply Nat.eqb_eq in E. now subst.
  - intros Hin. exists j. split; [exact Hin | apply Nat.eqb_refl].
Qed.

Lemma list_sum_split (f : nat -> nat) (pre post : list nat) (a : nat) :
  list_sum (pre ++ a :: post) = list_sum pre + a + list_sum post.
Proof. rewrite list_sum_app. simpl. lia. Qed.

Section FrameFacts.

Context {V : Type} `{Dtype V}.

(** The shape in the loop's axis order is the result's extents, in that
    order. *)
Lemma loop_shape_extents (n : nat) (ax : list nat) (first : ndarray V)
      (summands : list (ndarray V)) :
  map (fun j => list_sum (map (fun a => nth j (shape a) 0) summands)) ax
  ++ unlisted n ax first
  = map (bd_extent summands ax first) (bd_perm n ax).
Proof.
  unfold bd_perm, unlisted. rewrite map_app. f_equal.
  - apply map_ext_in. intros j Hj. unfold bd_extent.
    now rewrite (proj2 (existsb_eqb_In j ax) Hj).
  - apply map_ext_in. intros j Hj. apply other_axes_In in Hj.
    unfold bd_extent. destruct (existsb (Nat.eqb j) ax) eqn:E; [|reflexivity].
    apply existsb_eqb_In in E. tauto.
Qed.

(** The result of [block_diag], read through the loop's result. *)
Lemma block_diag_item (first : ndarray V) (others : list (ndarray V))
      (axes : list Z) (ax : list nat) :
  valid_axes (ndim first) axes ax ->
  Forall (fun a => ndim a = ndim first) (first :: others) ->
  Forall (broadcasts (ndim first) ax first) (first :: others) ->
  exists r,
    block_diag (first :: others) axes = Ok r /\
    wf r /\
    shape r = map (bd_extent (first :: others) ax first)
                  (seq 0 (ndim first)) /\
    forall idx,
      in_range (shape r) idx ->
      item r idx
      = bd_value (map (bd_block (ndim first) ax) (first :: others))
                 (map (fun _ => 0) ax) zero
                 (reorder (bd_perm (ndim first) ax) idx).
Proof.
  intros Hv Hrank Hb.
  destruct (block_diag_ok first others axes ax Hv Hrank Hb)
    as (R & Hrun & HshR & HitR).
  destruct Hv as (Hm & Hnd & Hne).
  destruct (mapM_opt_norm_axis_inv _ _ _ Hm) as [Hf _].
  pose proof (is_perm_bd _ _ Hnd Hf) as Hperm.
  set (n := ndim first) in *. set (perm := bd_perm n ax) in *.
  set (g := bd_extent (first :: others) ax first) in *.
  assert (Hlp : length perm = n) by apply Hperm.
  rewrite loop_shape_extents in HshR. fold perm g in HshR.
  assert (HndR : ndim R = n).
  { unfold ndim. now rewrite HshR, length_map. }
  set (inv := map (fun j => index_of j perm) (seq 0 n)) in *.
  assert (Hshape : shape (permute_axes R inv) = map g (seq 0 n)).
  { rewrite shape_permute_axes. unfold inv. rewrite map_map.
    apply map_ext_in. intros j Hj. apply in_seq in Hj.
    destruct (nth_index_of perm j (is_perm_In n perm j Hperm ltac:(lia)))
      as [E Hi].
    rewrite HshR. rewrite (nth_map_in g perm _ 0 0 Hi). now rewrite E. }
  exists (permute_axes R inv).
  split; [exact Hrun | split; [apply wf_permute_axes | split; [exact Hshape|]]].
  intros idx Hidx.
  assert (Hgather : map (fun j => nth (index_of j inv) idx 0) (seq 0 (ndim R))
                    = reorder perm idx).
  { rewrite HndR. unfold reorder. rewrite <- (map_nth_seq _ perm), Hlp.
    apply map_ext_in. intros j Hj. apply in_seq in Hj.
    unfold inv. rewrite index_of_inverse by (auto; lia). reflexivity. }
  rewrite item_permute_axes by exact Hidx.
  rewrite Hgather. apply HitR.
  rewrite HshR. apply in_range_reorder.
  intros p Hp. rewrite Hshape in Hidx.
  apply in_range_nth in Hidx. destruct Hidx as [_ Hn].
  rewrite length_map, length_seq in Hn.
  assert (Hpn : p < n).
  { destruct Hperm as (_ & _ & Hfp). rewrite Forall_forall in Hfp. auto. }
  specialize (Hn p Hpn). now rewrite nth_map_seq in Hn.
Qed.

End FrameFacts.

(** ** BlockDiagonalSum: the claims *)

Lemma inside_maps (s e h : nat -> nat) (ax tail : list nat) :
  inside (combine (map s ax) (map e ax)) (map h ax ++ tail)
  = forallb (fun j => (s j <=? h j) && (h j <? e j)) ax.
Proof.
  unfold inside. rewrite length_combine, !length_map, Nat.min_id.
  replace (length ax) with (length (map h ax) + 0)
    by (rewrite length_map; lia).
  rewrite firstn_app_2. simpl firstn. rewrite app_nil_r.
  induction ax as [|j ax IH]; simpl; [reflexivity | now rewrite IH].
Qed.

Lemma rel_idx_maps (s e h : nat -> nat) (ax tail : list nat) :
  rel_idx (combine (map s ax) (map e ax)) (map h ax ++ tail)
  = map (fun j => h j - s j) ax ++ tail.
Proof.
  unfold rel_idx.
  rewrite (map2_combine_map (fun c i => i - fst c) s e h ax tail).
  rewrite length_combine, !length_map, Nat.min_id.
  replace (length ax) with (length (map h ax)) by apply length_map.
  rewrite skipn_app, skipn_all, Nat.sub_diag. reflexivity.
Qed.

Lemma in_range_maps (g h : nat -> nat) (l : list nat) :
  (forall j, In j l -> h j < g j) -> in_range (map g l) (map h l).
Proof.
  unfold in_range. induction l as [|j l IH]; intros Hl; simpl; constructor.
  - apply Hl. now left.
  - apply IH. intros k Hk. apply Hl. now right.
Qed.

Section BlockDiagClaims.

Context {V : Type} `{Dtype V}.

(** Where the loop starts the block of the summand that follows [pre]. *)
Lemma block_start (n : nat) (ax : list nat) (pre : list (ndarray V)) :
  fold_left (map2 Nat.add) (map snd (map (bd_block n ax) pre))
            (map (fun _ => 0) ax)
  = map (fun j => list_sum (map (fun a => nth j (shape a) 0) pre)) ax.
Proof.
  replace (map snd (map (bd_block n ax) pre))
    with (map (listed ax) pre) by (now rewrite map_map).
  rewrite (fold_add_listed ax pre (fun _ => 0)). reflexivity.
Qed.

Lemma bd_offset_listed (pre post : list (ndarray V)) (a : ndarray V)
      (ax : list nat) (j : nat) :
  In j ax ->
  bd_offset (pre ++ a :: post) ax (length pre) j
  = list_sum (map (fun b => nth j (shape b) 0) pre).
Proof.
  intros Hj. unfold bd_offset.
  rewrite (proj2 (existsb_eqb_In j ax) Hj).
  replace (length pre) with (length pre + 0) by lia.
  rewrite firstn_app_2. simpl firstn. now rewrite app_nil_r.
Qed.

Lemma bd_offset_unlisted (summands : list (ndarray V)) (ax : list nat)
      (k j : nat) :
  ~ In j ax -> bd_offset summands ax k j = 0.
Proof.
  intros Hj. unfold bd_offset.
  destruct (existsb (Nat.eqb j) ax) eqn:E; [|reflexivity].
  apply existsb_eqb_In in E. contradiction.
Qed.

(** The [k]-th summand is found, unchanged, at the offsets of its
    block. *)
Lemma block_diag_block (first : ndarray V) (others : list (ndarray V))
      (axes : list Z) (ax : list nat) (r : ndarray V) :
  valid_axes (ndim first) axes ax ->
  Forall (fun a => ndim a = ndim first) (first :: others) ->
  Forall (agrees (ndim first) ax first) (first :: others) ->
  shape r = map (bd_extent (first :: others) ax first)
                (seq 0 (ndim first)) ->
  (forall idx,
      in_range (shape r) idx ->
      item r idx
      = bd_value (map (bd_block (ndim first) ax) (first :: others))
                 (map (fun _ => 0) ax) zero
                 (reorder (bd_perm (ndim first) ax) idx)) ->
  forall k a idx,
    nth_error (first :: others) k = Some a ->
    in_range (shape a) idx ->
    in_range (shape r) (bd_shift (first :: others) ax k idx) /\
    item r (bd_shift (first :: others) ax k idx) = item a idx.
Proof.
  intros (Hm & Hnd & Hne) Hrank Hagree Hshape Hitem k a idx Hk Hidx.
  destruct (mapM_opt_norm_axis_inv _ _ _ Hm) as [Hf _].
  pose proof (is_perm_bd _ _ Hnd Hf) as Hperm.
  set (n := ndim first) in *. set (perm := bd_perm n ax) in *.
  set (summands := first :: others) in *.
  destruct (nth_error_split _ _ Hk) as (pre & post & Esum & Hlen).
  assert (Ha : In a summands) by (eapply nth_error_In; eauto).
  assert (Hnda : ndim a = n).
  { rewrite Forall_forall in Hrank. now apply Hrank. }
  assert (Haga : agrees n ax first a).
  { rewrite Forall_forall in Hagree. now apply Hagree. }
  pose proof (proj1 (in_range_nth _ _) Hidx) as [Hli Hni].
  fold (ndim a) in Hli, Hni. rewrite Hnda in Hli, Hni.
  set (off := bd_offset summands ax k).
  set (o := fun j => list_sum (map (fun b : ndarray V => nth j (shape b) 0) pre)).
  assert (Hoff : forall j, In j ax -> off j = o j).
  { intros j Hj. unfold off. rewrite Esum, <- Hlen.
    now apply bd_offset_listed. }
  assert (Hoff0 : forall j, ~ In j ax -> off j = 0).
  { intros j Hj. now apply bd_offset_unlisted. }
  set (h := fun j => nth j idx 0 + off j).
  assert (Eshift : bd_shift summands ax k idx = map h (seq 0 n)).
  { unfold bd_shift. now rewrite Hli. }
  assert (Hin : in_range (shape r) (bd_shift summands ax k idx)).
  { rewrite Hshape, Eshift. apply in_range_maps.
    intros j Hj. apply in_seq in Hj. unfold h, bd_extent.
    destruct (existsb (Nat.eqb j) ax) eqn:E.
    - apply existsb_eqb_In in E. rewrite (Hoff j E). unfold o.
      rewrite Esum, map_app. cbn [map].
      rewrite (list_sum_split (fun x => x)).
      specialize (Hni j ltac:(lia)). lia.
    - assert (Hnj : ~ In j ax).
      { intros Hc. apply existsb_eqb_In in Hc. congruence. }
      rewrite (Hoff0 j Hnj), <- (Haga j ltac:(lia) Hnj).
      specialize (Hni j ltac:(lia)). lia. }
  split; [exact Hin|].
  rewrite (Hitem _ Hin).
  assert (Ere : reorder perm (bd_shift summands ax k idx)
                = map h ax ++ map h (other_axes n ax)).
  { rewrite Eshift. unfold reorder, perm, bd_perm. rewrite <- map_app.
    apply map_ext_in. intros p Hp. fold (bd_perm n ax) in Hp.
    destruct Hperm as (_ & _ & Hfp). rewrite Forall_forall in Hfp.
    apply nth_map_seq. now apply Hfp. }
  rewrite Ere.
  change (map (bd_block n ax) summands)
    with (map (bd_block n ax) (first :: others)).
  fold summands. rewrite Esum, map_app. cbn [map].
  unfold bd_block at 2.
  assert (Hstart : fold_left (map2 Nat.add)
                     (map snd (map (bd_block n ax) pre))
                     (map (fun _ => 0) ax) = map o ax)
    by apply block_start.
  assert (Hend : map2 Nat.add (map o ax) (listed ax a)
                 = map (fun j => o j + nth j (shape a) 0) ax).
  { unfold listed. apply map2_map. }
  rewrite bd_value_block.
  - rewrite Hstart, Hend, rel_idx_maps.
    assert (Erel : map (fun j => h j - o j) ax ++ map h (other_axes n ax)
                   = reorder perm idx).
    { unfold reorder, perm, bd_perm. rewrite map_app. f_equal.
      - apply map_ext_in. intros j Hj. unfold h. rewrite (Hoff j Hj). lia.
      - apply map_ext_in. intros j Hj. apply other_axes_In in Hj.
        unfold h. rewrite (Hoff0 j (proj2 Hj)). lia. }
    rewrite Erel.
    assert (HinT : in_range (shape (permute_axes a (bd_perm n ax)))
                     (reorder perm idx)).
    { rewrite shape_permute_axes. apply in_range_reorder.
      intros p Hp. apply Hni.
      destruct Hperm as (_ & _ & Hfp). rewrite Forall_forall in Hfp.
      now apply Hfp. }
    rewrite (bcast_idx_id _ _ HinT), add_zero_l.
    rewrite item_permute_axes by exact HinT.
    rewrite Hnda. fold perm. now rewrite (gather_reorder n perm idx Hperm Hli).
  - intros E. apply Hne. destruct ax; [reflexivity | discriminate].
  - change (permute_axes a (bd_perm n ax), listed ax a)
      with (bd_block n ax a).
    change (bd_block n ax a :: map (bd_block n ax) post)
      with (map (bd_block n ax) (a :: post)).
    rewrite <- map_app.
    apply (proj1 (block_diag_loop_hyps n ax (pre ++ a :: post))).
  - rewrite Hstart, Hend, inside_maps. apply forallb_forall.
    intros j Hj. unfold h. rewrite (Hoff j Hj).
    apply andb_true_iff. split; [apply Nat.leb_le | apply Nat.ltb_lt].
    + lia.
    + assert (Hjn : j < n) by (rewrite Forall_forall in Hf; auto).
      specialize (Hni j Hjn). lia.
Qed.

(** An index that lies in no block holds zero. *)
Lemma block_diag_outside (first : ndarray V) (others : list (ndarray V))
      (ax : list nat) (r : ndarray V) :
  (forall idx,
      in_range (shape r) idx ->
      item r idx
      = bd_value (map (bd_block (ndim first) ax) (first :: others))
                 (map (fun _ => 0) ax) zero
                 (reorder (bd_perm (ndim first) ax) idx)) ->
  forall idx,
    in_range (shape r) idx ->
    (forall k a, nth_error (first :: others) k = Some a ->
       exists j, In j ax /\
         ~ (bd_offset (first :: others) ax k j <= nth j idx 0
            < bd_offset (first :: others) ax k j + nth j (shape a) 0)) ->
    item r idx = zero.
Proof.
  intros Hitem idx Hin Hout.
  set (n := ndim first) in *. set (summands := first :: others) in *.
  rewrite (Hitem idx Hin). apply bd_value_none.
  intros preb T shp postb E.
  apply map_eq_app in E. destruct E as (pre & rest & Esum & Epre & Erest).
  apply map_eq_cons in Erest.
  destruct Erest as (a & post & -> & Ea & Epost). subst preb.
  unfold bd_block in Ea. injection Ea as <- <-.
  rewrite block_start.
  unfold listed. rewrite map2_map.
  unfold reorder, bd_perm. rewrite map_app, inside_maps.
  destruct (Hout (length pre) a) as (j & Hj & Hnot).
  { rewrite Esum, nth_error_app2, Nat.sub_diag by lia. reflexivity. }
  rewrite Esum, (bd_offset_listed pre post a ax j Hj) in Hnot.
  destruct (forallb _ ax) eqn:Eall; [|reflexivity].
  exfalso. apply Hnot. rewrite forallb_forall in Eall.
  specialize (Eall j Hj). apply andb_true_iff in Eall.
  rewrite Nat.leb_le, Nat.ltb_lt in Eall. exact Eall.
Qed.

End BlockDiagClaims.


Section BlockDiagFailure.

Context {V : Type} `{Dtype V}.

Lemma broadcasts_dec (n : nat) (ax : list nat) (first a : ndarray V) :
  {broadcasts n ax first a} + {~ broadcasts n ax first a}.
Proof.
  destruct (bcast_ok (shape (fst (bd_block n ax a)))
              (snd (bd_block n ax a) ++ unlisted n ax first)) eqn:E.
  - left. now apply block_bcast_iff.
  - right. intros Hb. apply block_bcast_iff in Hb. congruence.
Qed.

(** C6, as the code has it.  [block_diag] has no check of its own: for
    summands of one rank and valid axes it succeeds on inputs that
    satisfy the precondition, and more generally exactly when every
    summand has, on each axis that is not listed, the extent of the
    first summand or the extent 1 (numpy broadcasts it); otherwise it
    fails with the [ValueError] of the in-place addition, raised in the
    loop, after the output has been allocated. *)
Theorem block_diag_failures (first : ndarray V) (others : list (ndarray V))
        (axes : list Z) (ax : list nat) :
  valid_axes (ndim first) axes ax ->
  Forall (fun a => ndim a = ndim first) (first :: others) ->
  (Forall (agrees (ndim first) ax first) (first :: others) ->
   is_ok (block_diag (first :: others) axes) = true) /\
  (is_ok (block_diag (first :: others) axes) = true <->
   Forall (broadcasts (ndim first) ax first) (first :: others)) /\
  (~ Forall (broadcasts (ndim first) ax first) (first :: others) ->
   block_diag (first :: others) axes = Raise ValueError /\
   bd_loop
     (np_zeros
        (map (fun j => list_sum (map (fun a => nth j (shape a) 0)
                                     (first :: others))) ax
         ++ unlisted (ndim first) ax first))
     (map (fun _ => 0) ax)
     (map (bd_block (ndim first) ax) (first :: others))
   = Raise ValueError).
Proof.
  intros Hv Hrank.
  assert (Hok : Forall (broadcasts (ndim first) ax first) (first :: others) ->
                is_ok (block_diag (first :: others) axes) = true).
  { intros Hb.
    destruct (block_diag_item first others axes ax Hv Hrank Hb)
      as (r & Hrun & _).
    now rewrite Hrun. }
  assert (Hfail : ~ Forall (broadcasts (ndim first) ax first)
                           (first :: others) ->
                  block_diag (first :: others) axes = Raise ValueError /\
                  bd_loop
                    (np_zeros
                       (map (fun j => list_sum
                                        (map (fun a => nth j (shape a) 0)
                                             (first :: others))) ax
                        ++ unlisted (ndim first) ax first))
                    (map (fun _ => 0) ax)
                    (map (bd_block (ndim first) ax) (first :: others))
                  = Raise ValueError).
  { intros Hn. apply block_diag_fail; auto.
    apply neg_Forall_Exists_neg; [|exact Hn].
    intros a. apply broadcasts_dec. }
  split; [|split].
  - intros Hagree. apply Hok.
    rewrite Forall_forall in *. intros a Ha j Hj Hn. left.
    now apply (Hagree a Ha).
  - split; [|exact Hok].
    intros Hrun.
    destruct (Forall_Exists_dec _ (broadcasts_dec (ndim first) ax first)
                (first :: others)) as [Hb | He]; [exact Hb|].
    exfalso.
    destruct (block_diag_fail first others axes ax Hv Hrank He) as [E _].
    rewrite E in Hrun. discriminate.
  - exact Hfail.
Qed.

End BlockDiagFailure.



(** Two summands of shapes [(1, 2)] and [(1, 1)], summed along axis 0:
    their extents differ on axis 1, which is not listed, and [block_diag]
    does not fail. *)
Lemma block_diag_mismatch_counterexample :
  nth 1 (shape (arange_reshape 0 [1; 2])) 0
  <> nth 1 (shape (arange_reshape 5 [1; 1])) 0 /\
  block_diag [arange_reshape 0 [1; 2]; arange_reshape 5 [1; 1]] [0]%Z
  = Ok {| shape := [2; 2]; data := [0; 1; 5; 5]%Z |}.
Proof. split; [discriminate | vm_compute; reflexivity]. Qed.

Lemma block_diag_failures_witness :
  (Forall (agrees 2 [0] (arange_reshape 0 [1; 2]))
          [arange_reshape 0 [1; 2]; arange_reshape 5 [1; 1]] ->
   is_ok (block_diag [arange_reshape 0 [1; 2]; arange_reshape 5 [1; 1]]
                     [0]%Z) = true) /\
  (is_ok (block_diag [arange_reshape 0 [1; 2]; arange_reshape 5 [1; 1]]
                     [0]%Z) = true <->
   Forall (broadcasts 2 [0] (arange_reshape 0 [1; 2]))
          [arange_reshape 0 [1; 2]; arange_reshape 5 [1; 1]]) /\
  (~ Forall (broadcasts 2 [0] (arange_reshape 0 [1; 2]))
            [arange_reshape 0 [1; 2]; arange_reshape 5 [1; 1]] ->
   block_diag [arange_reshape 0 [1; 2]; arange_reshape 5 [1; 1]] [0]%Z
   = Raise ValueError /\
   bd_loop
     (np_zeros
        (map (fun j => list_sum
                         (map (fun a : ndarray Z => nth j (shape a) 0)
                              [arange_reshape 0 [1; 2];
                               arange_reshape 5 [1; 1]])) [0]
         ++ unlisted 2 [0] (arange_reshape 0 [1; 2])))
     (map (fun _ => 0) [0])
     (map (bd_block 2 [0])
          [arange_reshape 0 [1; 2]; arange_reshape 5 [1; 1]])
   = Raise ValueError).
Proof.
  apply (block_diag_failures (arange_reshape 0 [1; 2])
           [arange_reshape 5 [1; 1]] [0]%Z [0]).
  - split; [reflexivity | split; [|discriminate]].
    repeat constructor; simpl; intuition lia.
  - repeat constructor.
Defined.

(** * Further properties of the code *)

(** ** AxisLayout: outcomes, special cases and skipped axes *)

Lemma is_perm_Permutation (n : nat) (perm : list nat) :
  is_perm n perm -> Permutation perm (seq 0 n).
Proof.
  intros Hp. apply NoDup_Permutation; [apply Hp | apply seq_NoDup |].
  intros x. rewrite in_seq. split.
  - intros Hx. destruct Hp as (_ & _ & Hf). rewrite Forall_forall in Hf.
    specialize (Hf x Hx). lia.
  - intros Hx. apply (is_perm_In n); [exact Hp | lia].
Qed.

Lemma map_nth_id (sh : list nat) :
  map (fun j => nth j sh 0) (seq 0 (length sh)) = sh.
Proof.
  apply (nth_ext _ _ 0 0); rewrite length_map, length_seq; [reflexivity|].
  intros k Hk. now rewrite nth_map_seq.
Qed.

Lemma gtl_perm_one_site (n : nat) : gtl_perm n 1 = seq 0 n.
Proof.
  unfold gtl_perm. rewrite Nat.mul_1_r.
  rewrite <- (map_id (seq 0 n)) at 2.
  apply map_ext_in. intros i Hi. apply in_seq in Hi.
  rewrite Nat.div_small, Nat.mod_small by lia. lia.
Qed.

Lemma gtl_perm_one_leg (n : nat) : gtl_perm 1 n = seq 0 n.
Proof.
  unfold gtl_perm. rewrite Nat.mul_1_l.
  rewrite <- (map_id (seq 0 n)) at 2.
  apply map_ext. intros i. rewrite Nat.div_1_r, Nat.mod_1_r. lia.
Qed.

Lemma gtl_perm_ltg_perm (P s : nat) : gtl_perm P s = ltg_perm s P.
Proof.
  unfold gtl_perm, ltg_perm. rewrite (Nat.mul_comm s P).
  apply map_ext. intros k. lia.
Qed.

Lemma py_mod_same (n : nat) : n <> 0 -> py_mod n n = Ok 0.
Proof.
  intros Hn. unfold py_mod.
  destruct (Nat.eqb_spec n 0); [contradiction|].
  now rewrite Nat.Div0.mod_same.
Qed.

Lemma py_mod_one (n : nat) : py_mod n 1 = Ok 0.
Proof. unfold py_mod. simpl Nat.eqb. cbv iota. now rewrite Nat.mod_1_r. Qed.

Section LayoutExtras.

Context {V : Type} `{Dtype V}.

Lemma permute_axes_id (a : ndarray V) :
  wf a -> permute_axes a (seq 0 (ndim a)) = a.
Proof.
  intros Hwf.
  assert (Hsh : shape (permute_axes a (seq 0 (ndim a))) = shape a).
  { rewrite shape_permute_axes. apply map_nth_id. }
  apply ndarray_ext; [apply wf_permute_axes | exact Hwf | exact Hsh |].
  intros idx Hr. rewrite item_permute_axes by exact Hr. f_equal.
  rewrite Hsh in Hr. pose proof (in_range_length _ _ Hr) as Hl.
  fold (ndim a) in Hl.
  apply (nth_ext _ _ 0 0); rewrite length_map, length_seq; [now rewrite Hl|].
  intros j Hj. rewrite nth_map_seq by exact Hj.
  f_equal.
  transitivity (index_of (nth j (seq 0 (ndim a)) 0) (seq 0 (ndim a))).
  { now rewrite seq_nth. }
  apply (index_of_nth _ (seq_NoDup (ndim a) 0)).
  now rewrite length_seq.
Qed.

(** X1. [global_to_local] raises [ZeroDivisionError] for zero sites and
    fails its assertion when the number of axes is not a multiple of
    [sites]; these are its only failures.  When it returns, the result
    is a well-formed array with as many axes as the input, and its
    extents are those of the input, rearranged. *)
Theorem global_to_local_outcome (T : ndarray V) (sites : nat) :
  match global_to_local T sites with
  | Ok L => sites <> 0 /\ ndim T mod sites = 0 /\ wf L /\
            ndim L = ndim T /\ Permutation (shape L) (shape T)
  | Raise e => (sites = 0 /\ e = ZeroDivisionError) \/
               (sites <> 0 /\ ndim T mod sites <> 0 /\ e = AssertionError)
  end.
Proof.
  destruct (Nat.eq_dec sites 0) as [-> | Hs].
  { left. split; reflexivity. }
  destruct (Nat.eq_dec (ndim T mod sites) 0) as [Hm | Hm].
  - assert (Hpy : py_mod (ndim T) sites = Ok 0).
    { unfold py_mod. destruct (Nat.eqb_spec sites 0) as [|_]; [contradiction|].
      now rewrite Hm. }
    pose proof (proj1 (py_mod_zero _ _) Hpy) as [_ Hn].
    pose proof (is_perm_gtl (ndim T / sites) sites) as Hp.
    rewrite <- Hn in Hp.
    rewrite (global_to_local_eq T sites Hpy).
    split; [exact Hs | split; [exact Hm | split; [apply wf_permute_axes|]]].
    split; [rewrite ndim_permute_axes; apply Hp|].
    rewrite shape_permute_axes.
    apply Permutation_trans
      with (map (fun j => nth j (shape T) 0) (seq 0 (ndim T))).
    + apply Permutation_map. now apply is_perm_Permutation.
    + unfold ndim. now rewrite map_nth_id.
  - unfold global_to_local, py_mod.
    destruct (Nat.eqb_spec sites 0) as [|_]; [contradiction|]. cbn [rbind].
    destruct (Nat.eqb_spec (ndim T mod sites) 0) as [|_]; [contradiction|].
    right. now repeat split.
Qed.

(** X2. Ungrouping by sites is grouping by legs: for a tensor whose
    number of axes is a non-zero multiple of [sites], [global_to_local]
    with [sites] sites is [local_to_global] with [ndim / sites] sites
    and no skipped axes. *)
Theorem global_to_local_is_local_to_global (T : ndarray V) (sites : nat) :
  py_mod (ndim T) sites = Ok 0 -> ndim T <> 0 ->
  global_to_local T sites = local_to_global T (ndim T / sites) 0 0.
Proof.
  intros Hm Hnd.
  pose proof (proj1 (py_mod_zero _ _) Hm) as [Hs Hn].
  set (P := ndim T / sites) in *.
  assert (HP : P <> 0) by (intros E; rewrite E in Hn; simpl in Hn; lia).
  assert (Hq : ndim T / P = sites).
  { rewrite Hn at 1. rewrite Nat.mul_comm. apply Nat.div_mul. exact HP. }
  assert (Hm' : py_mod (ndim T) P = Ok 0).
  { apply py_mod_zero. split; [exact HP|]. rewrite Hq. lia. }
  rewrite (global_to_local_eq T sites Hm), (local_to_global_eq T P Hm').
  fold P. rewrite Hq. now rewrite gtl_perm_ltg_perm.
Qed.

(** X3. With a single site, and with one site per axis, the global and
    the local form coincide: [global_to_local] and [local_to_global]
    return the array as it is. *)
Theorem layout_trivial_cases (T : ndarray V) :
  wf T ->
  global_to_local T 1 = Ok T /\
  local_to_global T 1 0 0 = Ok T /\
  (ndim T <> 0 ->
   global_to_local T (ndim T) = Ok T /\
   local_to_global T (ndim T) 0 0 = Ok T).
Proof.
  intros Hwf.
  pose proof (permute_axes_id T Hwf) as Hid.
  split; [|split; [|intros Hnd; split]].
  - rewrite (global_to_local_eq T 1 (py_mod_one _)), Nat.div_1_r.
    now rewrite gtl_perm_one_site, Hid.
  - rewrite (local_to_global_eq T 1 (py_mod_one _)), Nat.div_1_r.
    now rewrite <- gtl_perm_ltg_perm, gtl_perm_one_leg, Hid.
  - rewrite (global_to_local_eq T _ (py_mod_same _ Hnd)).
    rewrite Nat.div_same by exact Hnd.
    now rewrite gtl_perm_one_leg, Hid.
  - rewrite (local_to_global_eq T _ (py_mod_same _ Hnd)).
    rewrite Nat.div_same by exact Hnd.
    now rewrite <- gtl_perm_ltg_perm, gtl_perm_one_site, Hid.
Qed.

(** X4. Regrouping twice gives the array back: [global_to_local] with
    [sites] sites followed by [global_to_local] with [ndim / sites]
    sites is the identity. *)
Theorem global_to_local_twice (T : ndarray V) (sites : nat) :
  wf T -> py_mod (ndim T) sites = Ok 0 -> ndim T <> 0 ->
  (L <- global_to_local T sites ;; global_to_local L (ndim T / sites))
  = Ok T.
Proof.
  intros Hwf Hm Hnd.
  pose proof (proj1 (py_mod_zero _ _) Hm) as [Hs Hn].
  set (P := ndim T / sites) in *.
  assert (HP : P <> 0) by (intros E; rewrite E in Hn; simpl in Hn; lia).
  assert (Hq : ndim T / P = sites).
  { rewrite Hn at 1. rewrite Nat.mul_comm. apply Nat.div_mul. exact HP. }
  assert (Hg : ndim (permute_axes T (gtl_perm P sites)) = ndim T).
  { rewrite ndim_permute_axes. unfold gtl_perm.
    rewrite length_map, length_seq. lia. }
  assert (Hm' : py_mod (ndim T) P = Ok 0).
  { apply py_mod_zero. split; [exact HP|]. rewrite Hq. lia. }
  rewrite (global_to_local_eq T sites Hm). fold P. cbn [rbind].
  rewrite global_to_local_eq by now rewrite Hg.
  rewrite Hg, Hq. f_equal.
  apply permute_axes_inverse; [exact Hwf | | |].
  - rewrite Hn. apply is_perm_gtl.
  - rewrite Hn, Nat.mul_comm. apply is_perm_gtl.
  - intros k Hk. rewrite Hn in Hk.
    rewrite (gtl_perm_ltg_perm sites P).
    rewrite (ltg_perm_nth _ _ _ Hk), gtl_perm_nth by now apply ltg_perm_lt.
    now apply gtl_after_ltg.
Qed.

End LayoutExtras.

(** *** [local_to_global] with skipped axes *)

Lemma range_of_nat (n : nat) : range (Z.of_nat n) = map Z.of_nat (seq 0 n).
Proof. unfold range. now rewrite Nat2Z.id. Qed.

Lemma ltg_order_skip (P s ls rs : nat) :
  s <> 0 ->
  ltg_order (ls + P * s + rs) (Z.of_nat P) s ls rs
  = map Z.of_nat (ltg_skip_perm P s ls rs).
Proof.
  intros Hs. unfold ltg_order, ltg_skip_perm.
  rewrite !map_app, !range_of_nat. f_equal. f_equal.
  - rewrite <- (flat_map_blocks (fun j i => ls + (P * i + j)) s Hs P).
    generalize (seq 0 P) as l.
    induction l as [|j l IH]; cbn [flat_map map]; [reflexivity|].
    rewrite map_app, IH. f_equal.
    rewrite !map_map. apply map_ext. intros i. lia.
  - unfold range2.
    replace (Z.to_nat (Z.of_nat (ls + P * s + rs)
                       - (Z.of_nat (ls + P * s + rs) - Z.of_nat rs)))
      with rs by lia.
    rewrite (seq_add_map (ls + P * s) rs), map_map.
    apply map_ext. intros k. lia.
Qed.

Lemma ltg_skip_perm_nth (P s ls rs k : nat) :
  nth k (ltg_skip_perm P s ls rs) 0
  = if k <? ls then k
    else if k <? ls + P * s
         then ls + (P * ((k - ls) mod s) + (k - ls) / s)
         else if k <? ls + P * s + rs then k else 0.
Proof.
  unfold ltg_skip_perm.
  destruct (Nat.ltb_spec k ls) as [H1 | H1].
  { rewrite app_nth1 by now rewrite length_seq. now rewrite seq_nth. }
  rewrite app_nth2; rewrite length_seq; [|lia].
  destruct (Nat.ltb_spec k (ls + P * s)) as [H2 | H2].
  { rewrite app_nth1 by (rewrite length_map, length_seq; lia).
    now rewrite nth_map_seq by lia. }
  rewrite app_nth2; rewrite length_map, length_seq; [|lia].
  destruct (Nat.ltb_spec k (ls + P * s + rs)) as [H3 | H3].
  - rewrite seq_nth by lia. lia.
  - apply nth_overflow. rewrite length_seq. lia.
Qed.

Lemma is_perm_ltg_skip (P s ls rs : nat) :
  is_perm (ls + P * s + rs) (ltg_skip_perm P s ls rs).
Proof.
  assert (Hlen : length (ltg_skip_perm P s ls rs) = ls + P * s + rs).
  { unfold ltg_skip_perm.
    rewrite !length_app, length_map, !length_seq. lia. }
  assert (Hlt : forall k, k < ls + P * s + rs ->
                          nth k (ltg_skip_perm P s ls rs) 0 < ls + P * s + rs).
  { intros k Hk. rewrite ltg_skip_perm_nth.
    destruct (Nat.ltb_spec k ls); [lia|].
    destruct (Nat.ltb_spec k (ls + P * s)) as [H2|H2].
    - pose proof (ltg_perm_lt P s (k - ls)). lia.
    - destruct (Nat.ltb_spec k (ls + P * s + rs)); lia. }
  split; [exact Hlen | split].
  - apply (proj2 (NoDup_nth _ 0)). rewrite Hlen. intros i j Hi Hj.
    rewrite !ltg_skip_perm_nth.
    destruct (Nat.ltb_spec i ls), (Nat.ltb_spec j ls);
      destruct (Nat.ltb_spec i (ls + P * s)) as [Hi2|Hi2];
      destruct (Nat.ltb_spec j (ls + P * s)) as [Hj2|Hj2];
      destruct (Nat.ltb_spec i (ls + P * s + rs));
      destruct (Nat.ltb_spec j (ls + P * s + rs)); try lia;
      pose proof (ltg_perm_lt P s (i - ls));
      pose proof (ltg_perm_lt P s (j - ls)); try lia.
    intros E.
    assert (E' : P * ((i - ls) mod s) + (i - ls) / s
                 = P * ((j - ls) mod s) + (j - ls) / s) by lia.
    apply (f_equal (fun m => m / P + s * (m mod P))) in E'.
    rewrite !gtl_after_ltg in E' by lia. lia.
  - apply Forall_forall. intros x Hx.
    destruct (In_nth _ _ 0 Hx) as (k & Hk & <-). apply Hlt. lia.
Qed.

Section SkipExtras.

Context {V : Type} `{Dtype V}.

Lemma local_to_global_skip_eq (T : ndarray V) (sites ls rs P : nat) :
  sites <> 0 -> ndim T = ls + P * sites + rs ->
  local_to_global T sites ls rs
  = Ok (permute_axes T (ltg_skip_perm P sites ls rs)).
Proof.
  intros Hs Hn. unfold local_to_global.
  destruct (Nat.eqb_spec sites 0) as [|_]; [contradiction|].
  assert (Hnd : (Z.of_nat (ndim T) - Z.of_nat (ls + rs)
                 = Z.of_nat P * Z.of_nat sites)%Z) by lia.
  rewrite Hnd, Z.mod_mul by lia. cbn [Z.eqb negb].
  rewrite Z.div_mul by lia. rewrite Hn.
  rewrite ltg_order_skip by exact Hs.
  apply transpose_perm. rewrite Hn. apply is_perm_ltg_skip.
Qed.

(** Reading the transposed array at the reordered index. *)
Lemma item_permute_reorder (a : ndarray V) (perm idx : list nat) :
  is_perm (ndim a) perm -> in_range (shape a) idx ->
  item (permute_axes a perm) (reorder perm idx) = item a idx.
Proof.
  intros Hp Hr.
  pose proof (proj1 (in_range_nth _ _) Hr) as [Hl Hn].
  rewrite item_permute_axes.
  - f_equal. apply gather_reorder; [exact Hp | exact Hl].
  - rewrite shape_permute_axes. apply in_range_reorder.
    intros p Hin. apply Hn.
    destruct Hp as (_ & _ & Hf). rewrite Forall_forall in Hf.
    now apply Hf.
Qed.

(** X5. [local_to_global] with [left_skip] and [right_skip] on a tensor
    with [left_skip + plegs * sites + right_skip] axes leaves the
    skipped leading and trailing axes where they are and regroups the
    inner axes: the result's axis [left_skip + k] is the input's axis
    [left_skip + plegs * (k mod sites) + k / sites], for the extents
    and for the entries. *)
Theorem local_to_global_skips (T : ndarray V) (sites ls rs P : nat) :
  sites <> 0 -> ndim T = ls + P * sites + rs ->
  exists R,
    local_to_global T sites ls rs = Ok R /\ wf R /\ ndim R = ndim T /\
    (forall k, k < ls \/ ls + P * sites <= k ->
       nth k (shape R) 0 = nth k (shape T) 0) /\
    (forall k, k < P * sites ->
       nth (ls + k) (shape R) 0
       = nth (ls + (P * (k mod sites) + k / sites)) (shape T) 0) /\
    (forall idx, in_range (shape T) idx ->
       item R (reorder (ltg_skip_perm P sites ls rs) idx) = item T idx).
Proof.
  intros Hs Hn.
  pose proof (is_perm_ltg_skip P sites ls rs) as Hp. rewrite <- Hn in Hp.
  assert (Hlen : length (ltg_skip_perm P sites ls rs) = ndim T) by apply Hp.
  exists (permute_axes T (ltg_skip_perm P sites ls rs)).
  split; [now apply local_to_global_skip_eq|].
  split; [apply wf_permute_axes|].
  split; [now rewrite ndim_permute_axes|].
  assert (Hsh : forall k, k < ndim T ->
            nth k (shape (permute_axes T (ltg_skip_perm P sites ls rs))) 0
            = nth (nth k (ltg_skip_perm P sites ls rs) 0) (shape T) 0).
  { intros k Hk. rewrite shape_permute_axes.
    now rewrite (nth_map_in _ _ _ 0 0) by lia. }
  split; [|split].
  - intros k Hk. destruct (Nat.lt_ge_cases k (ndim T)) as [Hlt | Hge].
    + rewrite (Hsh k Hlt), ltg_skip_perm_nth. f_equal.
      destruct (Nat.ltb_spec k ls); [reflexivity|].
      destruct (Nat.ltb_spec k (ls + P * sites)); [lia|].
      destruct (Nat.ltb_spec k (ls + P * sites + rs)); lia.
    + rewrite !nth_overflow; [reflexivity | exact Hge |].
      rewrite shape_permute_axes, length_map. lia.
  - intros k Hk. rewrite (Hsh (ls + k)) by lia.
    rewrite ltg_skip_perm_nth. f_equal.
    destruct (Nat.ltb_spec (ls + k) ls); [lia|].
    destruct (Nat.ltb_spec (ls + k) (ls + P * sites)); [|lia].
    now replace (ls + k - ls) with k by lia.
  - intros idx Hr. now apply item_permute_reorder.
Qed.

(** X6. [local_to_global] never succeeds when more axes are to be
    skipped than the tensor has: the assertion fails unless the excess
    is a multiple of [sites], and then the transposition raises
    [ValueError], the order being longer than the tensor's rank. *)
Theorem local_to_global_excess_skip (T : ndarray V) (sites ls rs : nat) :
  sites <> 0 -> ndim T < ls + rs ->
  local_to_global T sites ls rs
  = Raise (if (ls + rs - ndim T) mod sites =? 0
           then ValueError else AssertionError).
Proof.
  intros Hs Hlt. unfold local_to_global.
  destruct (Nat.eqb_spec sites 0) as [|_]; [contradiction|].
  set (d := ls + rs - ndim T).
  assert (Hnd : (Z.of_nat (ndim T) - Z.of_nat (ls + rs) = - Z.of_nat d)%Z)
    by lia.
  rewrite Hnd.
  assert (Hz : (Z.of_nat sites <> 0)%Z) by lia.
  destruct (Nat.eqb_spec (d mod sites) 0) as [Hm | Hm].
  - assert (Hzm : (Z.of_nat d mod Z.of_nat sites = 0)%Z).
    { rewrite <- Nat2Z.inj_mod, Hm. reflexivity. }
    rewrite (Z.mod_opp_l_z _ _ Hz Hzm). cbn [Z.eqb negb].
    unfold transpose.
    assert (Hneg : (- Z.of_nat d / Z.of_nat sites <= 0)%Z).
    { apply Z.div_le_upper_bound; lia. }
    assert (Hlen : length (ltg_order (ndim T) (- Z.of_nat d / Z.of_nat sites)
                             sites ls rs) = ls + rs).
    { unfold ltg_order, range, range2.
      replace (Z.to_nat (- Z.of_nat d / Z.of_nat sites)) with 0 by lia.
      cbn [seq map flat_map app].
      rewrite length_app, !length_map, !length_seq. lia. }
    rewrite Hlen.
    destruct (Nat.eqb_spec (ls + rs) (ndim T)) as [E|_]; [lia|].
    reflexivity.
  - assert (Hzm : ((- Z.of_nat d) mod Z.of_nat sites <> 0)%Z).
    { intros E. apply Hm.
      pose proof (Z.mod_opp_l_z _ _ Hz E) as E'.
      rewrite Z.opp_involutive, <- Nat2Z.inj_mod in E'. lia. }
    destruct (Z.eqb_spec ((- Z.of_nat d) mod Z.of_nat sites) 0) as [E|_];
      [contradiction|].
    reflexivity.
Qed.

End SkipExtras.

(** X2 at the docstring's array of shape [(1, 2, 3, 4, 5, 6)]: three
    sites of two legs are two legs of three sites. *)
Lemma global_to_local_is_local_to_global_witness :
  global_to_local (arange_reshape 0 [1; 2; 3; 4; 5; 6]) 3
  = local_to_global (arange_reshape 0 [1; 2; 3; 4; 5; 6]) 2 0 0.
Proof.
  apply (@global_to_local_is_local_to_global Z _
           (arange_reshape 0 [1; 2; 3; 4; 5; 6]) 3);
    [reflexivity | unfold ndim; simpl; lia].
Defined.

Lemma layout_trivial_cases_witness :
  global_to_local (arange_reshape 0 [2; 3; 4]) 1
  = Ok (arange_reshape 0 [2; 3; 4]) /\
  local_to_global (arange_reshape 0 [2; 3; 4]) 1 0 0
  = Ok (arange_reshape 0 [2; 3; 4]) /\
  (ndim (arange_reshape 0 [2; 3; 4]) <> 0 ->
   global_to_local (arange_reshape 0 [2; 3; 4])
     (ndim (arange_reshape 0 [2; 3; 4]))
   = Ok (arange_reshape 0 [2; 3; 4]) /\
   local_to_global (arange_reshape 0 [2; 3; 4])
     (ndim (arange_reshape 0 [2; 3; 4])) 0 0
   = Ok (arange_reshape 0 [2; 3; 4])).
Proof.
  apply (@layout_trivial_cases Z _ (arange_reshape 0 [2; 3; 4])).
  reflexivity.
Defined.

Lemma global_to_local_twice_witness :
  (L <- global_to_local (arange_reshape 0 [1; 2; 3; 4; 5; 6]) 3 ;;
   global_to_local L 2) = Ok (arange_reshape 0 [1; 2; 3; 4; 5; 6]).
Proof.
  apply (@global_to_local_twice Z _ (arange_reshape 0 [1; 2; 3; 4; 5; 6]) 3);
    [reflexivity | reflexivity | unfold ndim; simpl; lia].
Defined.

(** X5 at the docstring's example: two sites, one axis skipped on either
    side of an array of shape [(1, 2, 3, 4, 5, 6)]. *)
Lemma local_to_global_skips_witness :
  exists R,
    local_to_global (arange_reshape 0 [1; 2; 3; 4; 5; 6]) 2 1 1 = Ok R /\
    shape R = [1; 2; 4; 3; 5; 6].
Proof.
  destruct (@local_to_global_skips Z _ (arange_reshape 0 [1; 2; 3; 4; 5; 6])
              2 1 1 2 ltac:(lia) eq_refl)
    as (R & HR & _ & Hnd & Hout & Hin & _).
  exists R. split; [exact HR|].
  apply (nth_ext _ _ 0 0); [exact Hnd|].
  intros k Hk. fold (ndim R) in Hk. rewrite Hnd in Hk.
  destruct k as [|k]; [refine (Hout 0 _); left; lia|].
  destruct k as [|k]; [refine (Hin 0 _); lia|].
  destruct k as [|k]; [refine (Hin 1 _); lia|].
  destruct k as [|k]; [refine (Hin 2 _); lia|].
  destruct k as [|k]; [refine (Hin 3 _); lia|].
  destruct k as [|k]; [refine (Hout 5 _); right; lia|].
  unfold ndim in Hk. simpl in Hk. lia.
Defined.

Lemma local_to_global_excess_skip_witness :
  local_to_global (arange_reshape 0 [2; 3]) 2 2 2 = Raise ValueError /\
  local_to_global (arange_reshape 0 [2; 3]) 2 2 1 = Raise AssertionError.
Proof.
  split.
  - apply (@local_to_global_excess_skip Z _ (arange_reshape 0 [2; 3]) 2 2 2);
      [lia | unfold ndim; simpl; lia].
  - apply (@local_to_global_excess_skip Z _ (arange_reshape 0 [2; 3]) 2 2 1);
      [lia | unfold ndim; simpl; lia].
Defined.

(** ** [partial_trace]: which axes remain, and which lists fail *)

Ltac split_ltb :=
  repeat match goal with
         | |- context [?a <? ?b] => destruct (Nat.ltb_spec a b)
         end.

Lemma remove_from_cons (a1 a2 i x : nat) (sh : list nat) :
  remove_from a1 a2 i (x :: sh)
  = if (i =? a1) || (i =? a2) then remove_from a1 a2 (S i) sh
    else x :: remove_from a1 a2 (S i) sh.
Proof.
  unfold remove_from. cbn [length seq combine filter fst].
  now destruct ((i =? a1) || (i =? a2)).
Qed.

Lemma remove_from_hi (a1 a2 : nat) (sh : list nat) :
  forall i, a1 < i -> a2 < i -> remove_from a1 a2 i sh = sh.
Proof.
  induction sh as [|x sh IH]; intros i H1 H2; [reflexivity|].
  rewrite remove_from_cons.
  destruct (Nat.eqb_spec i a1); [lia|]. destruct (Nat.eqb_spec i a2); [lia|].
  cbn [orb]. f_equal. apply IH; lia.
Qed.

Lemma remove_from_mid (a1 a2 : nat) (sh : list nat) :
  forall i j, a1 < i -> i <= a2 -> a2 < i + length sh ->
    nth j (remove_from a1 a2 i sh) 0
    = nth (if j + i <? a2 then j else S j) sh 0.
Proof.
  induction sh as [|x sh IH]; intros i j H1 H2 H3; [simpl in H3; lia|].
  rewrite remove_from_cons. cbn [length] in H3.
  destruct (Nat.eqb_spec i a1); [lia|]. cbn [orb].
  destruct (Nat.eqb_spec i a2) as [E|E].
  - rewrite remove_from_hi by lia. split_ltb; try lia; reflexivity.
  - destruct j as [|j].
    + split_ltb; try lia; reflexivity.
    + cbn [nth]. rewrite IH by lia. split_ltb; try lia; reflexivity.
Qed.

Lemma remove_from_lo (a1 a2 : nat) (sh : list nat) :
  forall i j, i <= a1 -> a1 < a2 -> a2 < i + length sh ->
    nth j (remove_from a1 a2 i sh) 0
    = nth (if j + i <? a1 then j
           else if S (j + i) <? a2 then S j else S (S j)) sh 0.
Proof.
  induction sh as [|x sh IH]; intros i j H1 H2 H3; [simpl in H3; lia|].
  rewrite remove_from_cons. cbn [length] in H3.
  destruct (Nat.eqb_spec i a1) as [E|E]; cbn [orb].
  - rewrite remove_from_mid by lia. split_ltb; try lia; reflexivity.
  - destruct (Nat.eqb_spec i a2); [lia|].
    destruct j as [|j].
    + split_ltb; try lia; reflexivity.
    + cbn [nth]. rewrite IH by lia. split_ltb; try lia; reflexivity.
Qed.

Lemma remove_from_mid_length (a1 a2 : nat) (sh : list nat) :
  forall i, a1 < i -> i <= a2 -> a2 < i + length sh ->
    S (length (remove_from a1 a2 i sh)) = length sh.
Proof.
  induction sh as [|x sh IH]; intros i H1 H2 H3; [simpl in H3; lia|].
  rewrite remove_from_cons. cbn [length] in H3.
  destruct (Nat.eqb_spec i a1); [lia|]. cbn [orb].
  destruct (Nat.eqb_spec i a2) as [E|E].
  - now rewrite remove_from_hi by lia.
  - cbn [length]. f_equal. apply IH; lia.
Qed.

Lemma remove_from_lo_length (a1 a2 : nat) (sh : list nat) :
  forall i, i <= a1 -> a1 < a2 -> a2 < i + length sh ->
    S (S (length (remove_from a1 a2 i sh))) = length sh.
Proof.
  induction sh as [|x sh IH]; intros i H1 H2 H3; [simpl in H3; lia|].
  rewrite remove_from_cons. cbn [length] in H3.
  destruct (Nat.eqb_spec i a1) as [E|E]; cbn [orb].
  - cbn [length]. f_equal. apply remove_from_mid_length; lia.
  - destruct (Nat.eqb_spec i a2); [lia|]. cbn [length].
    f_equal. apply IH; lia.
Qed.

Lemma remove_axes_length (a1 a2 : nat) (sh : list nat) :
  a1 < a2 -> a2 < length sh ->
  S (S (length (remove_axes a1 a2 sh))) = length sh.
Proof.
  intros H1 H2. change (remove_axes a1 a2 sh) with (remove_from a1 a2 0 sh).
  apply remove_from_lo_length; lia.
Qed.

(** The axis of the traced array at position [j] is the axis of the
    input at [j], moved up past the two traced axes. *)
Lemma remove_axes_nth (a1 a2 : nat) (sh : list nat) (j : nat) :
  a1 < a2 -> a2 < length sh ->
  nth j (remove_axes a1 a2 sh) 0
  = nth (if j <? a1 then j else if S j <? a2 then S j else S (S j)) sh 0.
Proof.
  intros H1 H2. change (remove_axes a1 a2 sh) with (remove_from a1 a2 0 sh).
  rewrite remove_from_lo by lia. now rewrite !Nat.add_0_r.
Qed.

Lemma filter_all {A : Type} (p : A -> bool) (l : list A) :
  (forall x, In x l -> p x = true) -> filter p l = l.
Proof.
  induction l as [|x l IH]; intros Hp; simpl; [reflexivity|].
  rewrite (Hp x) by now left. f_equal. apply IH. intros y Hy. apply Hp.
  now right.
Qed.

Lemma existsb_snoc (i t : nat) (ts : list nat) :
  existsb (Nat.eqb i) (ts ++ [t]) = existsb (Nat.eqb i) ts || (i =? t).
Proof. rewrite existsb_app. simpl. now rewrite orb_false_r. Qed.

(** Tracing out the site [t], the highest of the list, renumbers the
    sites that are kept. *)
Lemma other_axes_snoc (n t : nat) (ts : list nat) :
  t < n -> Forall (fun x => x < t) ts ->
  map (fun j => if j <? t then j else S j) (other_axes (n - 1) ts)
  = other_axes n (ts ++ [t]).
Proof.
  intros Ht Hts. unfold other_axes.
  assert (Hnotin : forall i, t <= i -> existsb (Nat.eqb i) ts = false).
  { intros i Hi. destruct (existsb (Nat.eqb i) ts) eqn:E; [|reflexivity].
    apply existsb_eqb_In in E. rewrite Forall_forall in Hts.
    specialize (Hts i E). lia. }
  replace (n - 1) with (t + (n - 1 - t)) by lia.
  replace n with (t + (1 + (n - 1 - t))) at 2 by lia.
  rewrite !seq_app, !filter_app, map_app. cbn [Nat.add seq].
  f_equal.
  - rewrite (filter_ext_in
               (fun i => negb (existsb (Nat.eqb i) (ts ++ [t])))
               (fun i => negb (existsb (Nat.eqb i) ts))).
    + rewrite <- (map_id (filter _ (seq 0 t))) at 2.
      apply map_ext_in. intros j Hj. apply filter_In in Hj.
      destruct Hj as [Hj _]. apply in_seq in Hj.
      destruct (Nat.ltb_spec j t); [reflexivity | lia].
    + intros i Hi. apply in_seq in Hi. rewrite existsb_snoc.
      destruct (Nat.eqb_spec i t); [lia|]. now rewrite orb_false_r.
  - cbn [filter]. rewrite existsb_snoc, Nat.eqb_refl, orb_true_r.
    cbn [negb].
    rewrite !filter_all.
    + cbn [app]. replace (t + 1) with (S t) by lia.
      rewrite <- seq_shift. apply map_ext_in. intros j Hj. apply in_seq in Hj.
      destruct (Nat.ltb_spec j t); [lia | reflexivity].
    + intros i Hi. apply in_seq in Hi. rewrite existsb_snoc.
      rewrite Hnotin by lia. destruct (Nat.eqb_spec i t); [lia|]. reflexivity.
    + intros i Hi. apply in_seq in Hi. now rewrite Hnotin by lia.
Qed.

Lemma other_axes_lt (n : nat) (ts : list nat) (j : nat) :
  In j (other_axes n ts) -> j < n.
Proof.
  unfold other_axes. intros Hj. apply filter_In in Hj.
  destruct Hj as [Hj _]. apply in_seq in Hj. lia.
Qed.

Lemma kept_axes_snoc (n t : nat) (ts : list nat) (sh : list nat) :
  t < n -> Forall (fun x => x < t) ts -> length sh = 2 * n ->
  map (fun j => nth j (remove_axes t (t + n) sh) 0) (kept_axes (n - 1) ts)
  = map (fun j => nth j sh 0) (kept_axes n (ts ++ [t])).
Proof.
  intros Ht Hts Hl. unfold kept_axes.
  rewrite <- (other_axes_snoc n t ts Ht Hts).
  rewrite !map_app, !map_map. f_equal.
  - apply map_ext_in. intros j Hj. apply other_axes_lt in Hj.
    rewrite remove_axes_nth by lia. f_equal.
    destruct (Nat.ltb_spec j t); [reflexivity|].
    destruct (Nat.ltb_spec (S j) (t + n)); [reflexivity | lia].
  - apply map_ext_in. intros j Hj. apply other_axes_lt in Hj.
    rewrite remove_axes_nth by lia. f_equal.
    destruct (Nat.ltb_spec (n - 1 + j) t); [lia|].
    destruct (Nat.ltb_spec (S (n - 1 + j)) (t + n)), (Nat.ltb_spec j t);
      lia.
Qed.

Lemma kept_axes_nil (n : nat) : kept_axes n [] = seq 0 (2 * n).
Proof.
  unfold kept_axes, other_axes. rewrite filter_all by reflexivity.
  replace (2 * n) with (n + n) by lia. rewrite seq_app. f_equal.
  symmetry. apply seq_add_map.
Qed.

Lemma sorted_snoc (ts : list nat) (t : nat) :
  StronglySorted lt (ts ++ [t]) ->
  StronglySorted lt ts /\ Forall (fun x => x < t) ts.
Proof.
  induction ts as [|x ts IH]; simpl; intros Hs.
  - split; constructor.
  - inversion Hs as [|? ? Hs' Hx]; subst.
    destruct (IH Hs') as [IH1 IH2]. split.
    + constructor; [exact IH1|]. apply Forall_app in Hx. tauto.
    + constructor; [|exact IH2]. apply Forall_app in Hx.
      destruct Hx as [_ Hx]. now inversion Hx.
Qed.

Section TraceExtras.

Context {V : Type} `{Dtype V}.

(** Tracing the two axes of a site of a tensor with [n] sites. *)
Lemma np_trace_site (T : ndarray V) (n t : nat) :
  ndim T = 2 * n -> t < n ->
  exists T1, np_trace T (Z.of_nat t) (Z.of_nat t + Z.of_nat n) = Ok T1 /\
             wf T1 /\ shape T1 = remove_axes t (t + n) (shape T).
Proof.
  intros Hn Ht. unfold np_trace.
  rewrite <- Nat2Z.inj_add, !norm_axis_of_nat by lia.
  destruct (Nat.eqb_spec t (t + n)); [lia|].
  eexists. split; [reflexivity|]. split; [apply wf_tabulate | reflexivity].
Qed.

Lemma np_trace_out_of_range (T : ndarray V) (n : nat) (t : Z) :
  ndim T = 2 * n ->
  (Z.of_nat n <= t \/ t < - 2 * Z.of_nat n)%Z ->
  np_trace T t (t + Z.of_nat n) = Raise ValueError.
Proof.
  intros Hn Ht. unfold np_trace. rewrite Hn.
  destruct Ht as [Ht | Ht].
  - assert (E : norm_axis (2 * n) (t + Z.of_nat n) = None).
    { unfold norm_axis.
      destruct (Z.leb_spec 0 (t + Z.of_nat n)),
               (Z.ltb_spec (t + Z.of_nat n) (Z.of_nat (2 * n))),
               (Z.leb_spec (- Z.of_nat (2 * n)) (t + Z.of_nat n)),
               (Z.ltb_spec (t + Z.of_nat n) 0); cbn [andb]; try reflexivity;
        lia. }
    rewrite E. now destruct (norm_axis (2 * n) t).
  - assert (E : norm_axis (2 * n) t = None).
    { unfold norm_axis.
      destruct (Z.leb_spec 0 t), (Z.ltb_spec t (Z.of_nat (2 * n))),
               (Z.leb_spec (- Z.of_nat (2 * n)) t), (Z.ltb_spec t 0);
        cbn [andb]; try reflexivity; lia. }
    now rewrite E.
Qed.

Lemma partial_trace_last_out_of_range (T : ndarray V) (n : nat)
      (ts : list Z) (t : Z) :
  ndim T = 2 * n ->
  (Z.of_nat n <= t \/ t < - 2 * Z.of_nat n)%Z ->
  partial_trace T (ts ++ [t]) = Raise ValueError.
Proof.
  intros Hn Ht. rewrite partial_trace_snoc.
  assert (Hm : ndim T mod 2 = 0).
  { rewrite Hn, Nat.mul_comm. apply Nat.Div0.mod_mul. }
  assert (Hd : ndim T / 2 = n).
  { rewrite Hn, Nat.mul_comm. now apply Nat.div_mul. }
  rewrite Hm, Hd. cbn [Nat.eqb negb].
  now rewrite (np_trace_out_of_range T n t Hn Ht).
Qed.

(** X7. For a tensor with two legs per site and [n] sites, and a
    strictly ascending list of sites below [n], [partial_trace] returns
    a tensor that has lost the two axes of every listed site: it keeps,
    in order, the row axes of the other sites and then their column
    axes. *)
Theorem partial_trace_ascending (T : ndarray V) (n : nat) (ts : list nat) :
  wf T -> ndim T = 2 * n ->
  StronglySorted lt ts -> Forall (fun t => t < n) ts ->
  exists R,
    partial_trace T (map Z.of_nat ts) = Ok R /\ wf R /\
    ndim R = 2 * (n - length ts) /\
    shape R = map (fun j => nth j (shape T) 0) (kept_axes n ts).
Proof.
  revert T n. induction ts as [|t ts IH] using rev_ind;
    intros T n Hwf Hn Hs Hlt.
  - exists T. split; [reflexivity | split; [exact Hwf|]].
    split; [simpl; lia|].
    rewrite kept_axes_nil, <- Hn. unfold ndim. symmetry. apply map_nth_id.
  - apply sorted_snoc in Hs. destruct Hs as [Hs Hts].
    apply Forall_app in Hlt. destruct Hlt as [_ Ht].
    apply Forall_inv in Ht.
    rewrite map_app. cbn [map]. rewrite partial_trace_snoc.
    assert (Hm : ndim T mod 2 = 0).
    { rewrite Hn, Nat.mul_comm. apply Nat.Div0.mod_mul. }
    assert (Hd : ndim T / 2 = n).
    { rewrite Hn, Nat.mul_comm. now apply Nat.div_mul. }
    rewrite Hm, Hd. cbn [Nat.eqb negb].
    destruct (np_trace_site T n t Hn Ht) as (T1 & Htr & Hwf1 & Hsh1).
    rewrite Htr. cbn [rbind].
    assert (Hn1 : ndim T1 = 2 * (n - 1)).
    { unfold ndim. rewrite Hsh1.
      pose proof (remove_axes_length t (t + n) (shape T)) as Hl.
      fold (ndim T) in Hl. lia. }
    destruct (IH T1 (n - 1) Hwf1 Hn1 Hs) as (R & HR & HwfR & HndR & HshR).
    { revert Hts. apply Forall_impl. intros x Hx. lia. }
    exists R. split; [exact HR | split; [exact HwfR|]].
    split; [rewrite HndR, length_app; simpl; lia|].
    rewrite HshR, Hsh1. now apply kept_axes_snoc.
Qed.

(** X8. A last site that is not a site of the tensor makes
    [partial_trace] raise [ValueError]: with [n] sites, any number from
    [n] on, and any number below [-2 n]. *)
Theorem partial_trace_out_of_range (T : ndarray V) (n : nat) (ts : list Z)
        (t : Z) :
  ndim T = 2 * n ->
  (Z.of_nat n <= t \/ t < - 2 * Z.of_nat n)%Z ->
  partial_trace T (ts ++ [t]) = Raise ValueError.
Proof. apply partial_trace_last_out_of_range. Qed.

(** X9. The order of the list matters: when the last site of the tensor
    is listed before another site, [partial_trace] raises [ValueError],
    the site numbers being resolved against a tensor that has already
    lost a site. *)
Theorem partial_trace_last_site_first (T : ndarray V) (n t : nat)
        (ts : list Z) :
  ndim T = 2 * n -> t < n ->
  partial_trace T (ts ++ [Z.of_nat (n - 1); Z.of_nat t]) = Raise ValueError.
Proof.
  intros Hn Ht.
  change (ts ++ [Z.of_nat (n - 1); Z.of_nat t])
    with (ts ++ [Z.of_nat (n - 1)] ++ [Z.of_nat t]).
  rewrite app_assoc, partial_trace_snoc.
  assert (Hm : ndim T mod 2 = 0).
  { rewrite Hn, Nat.mul_comm. apply Nat.Div0.mod_mul. }
  assert (Hd : ndim T / 2 = n).
  { rewrite Hn, Nat.mul_comm. now apply Nat.div_mul. }
  rewrite Hm, Hd. cbn [Nat.eqb negb].
  destruct (np_trace_site T n t Hn Ht) as (T1 & Htr & Hwf1 & Hsh1).
  rewrite Htr. cbn [rbind].
  apply (partial_trace_last_out_of_range T1 (n - 1)).
  - unfold ndim. rewrite Hsh1.
    pose proof (remove_axes_length t (t + n) (shape T)) as Hl.
    fold (ndim T) in Hl. lia.
  - left. lia.
Qed.

End TraceExtras.

(** X7 on a tensor with three sites: tracing out the sites 0 and 2 keeps
    the two axes of site 1. *)
Lemma partial_trace_ascending_witness :
  exists R,
    partial_trace (arange_reshape 0 [2; 3; 2; 2; 3; 2]) [0%Z; 2%Z] = Ok R /\
    shape R = [3; 3].
Proof.
  destruct (@partial_trace_ascending Z _
              (arange_reshape 0 [2; 3; 2; 2; 3; 2]) 3 [0; 2])
    as (R & HR & _ & _ & Hsh).
  - reflexivity.
  - reflexivity.
  - repeat constructor.
  - repeat constructor.
  - exists R. split; [exact HR | exact Hsh].
Defined.

Lemma partial_trace_out_of_range_witness :
  partial_trace (arange_reshape 0 [2; 3; 2; 3]) [0%Z; 2%Z]
  = Raise ValueError.
Proof.
  apply (@partial_trace_out_of_range Z _ (arange_reshape 0 [2; 3; 2; 3]) 2
           [0%Z] 2%Z); [reflexivity | left; lia].
Defined.

Lemma partial_trace_last_site_first_witness :
  partial_trace (arange_reshape 0 [2; 3; 2; 3]) [1%Z; 0%Z]
  = Raise ValueError.
Proof.
  apply (@partial_trace_last_site_first Z _ (arange_reshape 0 [2; 3; 2; 3])
           2 0 []); [reflexivity | lia].
Defined.

(** ** [block_diag]: special cases and necessary conditions *)

Lemma existsb_eqb_ext (ax ax' : list nat) (j : nat) :
  (forall i, In i ax <-> In i ax') ->
  existsb (Nat.eqb j) ax = existsb (Nat.eqb j) ax'.
Proof.
  intros Hiff.
  destruct (existsb (Nat.eqb j) ax) eqn:E, (existsb (Nat.eqb j) ax') eqn:E';
    try reflexivity.
  - apply existsb_eqb_In, Hiff, existsb_eqb_In in E. congruence.
  - apply existsb_eqb_In, Hiff, existsb_eqb_In in E'. congruence.
Qed.

Lemma forallb_false_witness {A : Type} (p : A -> bool) (l : list A) :
  forallb p l = false -> exists x, In x l /\ p x = false.
Proof.
  induction l as [|x l IH]; simpl; [discriminate|].
  destruct (p x) eqn:E; simpl.
  - intros Hl. destruct (IH Hl) as (y & Hy & Hp). exists y. auto.
  - intros _. exists x. auto.
Qed.

Lemma mapM_res_inv {A B : Type} (f : A -> res B) (l : list A) (ys : list B) :
  mapM_res f l = Ok ys -> Forall (fun x => exists y, f x = Ok y) l.
Proof.
  revert ys. induction l as [|x l IH]; simpl; intros ys Hl; [constructor|].
  destruct (f x) as [y|e] eqn:E; [|discriminate]. cbn [rbind] in Hl.
  destruct (mapM_res f l) as [ys'|e]; [|discriminate].
  constructor; [now exists y | now apply (IH ys')].
Qed.

Lemma mapM_opt_app {A B : Type} (f : A -> option B) (l1 l2 : list A) :
  forall p, mapM_opt f (l1 ++ l2) = Some p ->
            exists p1 p2, p = p1 ++ p2 /\ mapM_opt f l1 = Some p1 /\
                          mapM_opt f l2 = Some p2.
Proof.
  induction l1 as [|x l1 IH]; simpl; intros p Hp.
  - exists [], p. auto.
  - destruct (f x) as [y|]; [|discriminate].
    destruct (mapM_opt f (l1 ++ l2)) as [q|]; [|discriminate].
    injection Hp as <-.
    destruct (IH q eq_refl) as (p1 & p2 & -> & H1 & H2).
    exists (y :: p1), p2. now rewrite H1.
Qed.

Lemma mapM_opt_nth_error {A B : Type} (f : A -> option B) (l : list A) :
  forall p x, mapM_opt f l = Some p -> In x l ->
              exists i y, nth_error l i = Some x /\ nth_error p i = Some y /\
                          f x = Some y.
Proof.
  induction l as [|a l IH]; simpl; intros p x Hp Hx; [contradiction|].
  destruct (f a) as [b|] eqn:E; [|discriminate].
  destruct (mapM_opt f l) as [q|]; [|discriminate].
  injection Hp as <-. destruct Hx as [-> | Hx].
  - exists 0, b. auto.
  - destruct (IH q x eq_refl Hx) as (i & y & H1 & H2 & H3).
    exists (S i), y. auto.
Qed.

Lemma NoDup_app_disjoint {A : Type} (l1 l2 : list A) (x : A) :
  NoDup (l1 ++ l2) -> In x l1 -> In x l2 -> False.
Proof.
  induction l1 as [|a l1 IH]; simpl; intros Hnd H1 H2; [contradiction|].
  inversion Hnd as [|? ? Ha Hnd']; subst. destruct H1 as [-> | H1].
  - apply Ha, in_or_app. now right.
  - now apply IH.
Qed.

(** The order in which [block_diag] arranges the axes is a permutation
    only if the resolved axes are distinct and none is negative. *)
Lemma bd_order_valid (n : nat) (A : list Z) (p : list nat) :
  mapM_opt (norm_axis n) (bd_axes_order n A) = Some p -> NoDup p ->
  exists pA, mapM_opt (norm_axis n) A = Some pA /\ NoDup pA /\
             Forall (fun b => (0 <= b)%Z) A.
Proof.
  intros Hp Hnd. unfold bd_axes_order in Hp.
  apply mapM_opt_app in Hp. destruct Hp as (pA & pF & -> & HA & HF).
  exists pA. split; [exact HA|]. split; [now apply NoDup_app_remove_r in Hnd|].
  apply Forall_forall. intros b Hb.
  destruct (Z.ltb_spec b 0) as [Hneg | Hpos]; [exfalso | exact Hpos].
  destruct (mapM_opt_nth_error _ _ _ _ HA Hb) as (i & k & Hi & Hpi & Hk).
  destruct (norm_axis_lt _ _ _ Hk) as [Hkn Hbk].
  destruct (Z.ltb_spec b 0) as [_|]; [|lia].
  assert (HkA : In k pA) by (eapply nth_error_In; eauto).
  destruct (in_dec Z.eq_dec (Z.of_nat k) A) as [Hin | Hnin].
  - destruct (mapM_opt_nth_error _ _ _ _ HA Hin) as (i' & k' & Hi' & Hpi' & Hk').
    rewrite (norm_axis_of_nat _ _ Hkn) in Hk'. injection Hk' as <-.
    assert (E : i = i').
    { apply NoDup_app_remove_r in Hnd.
      apply (proj1 (NoDup_nth_error pA) Hnd).
      - apply nth_error_Some. congruence.
      - congruence. }
    subst i'. rewrite Hi in Hi'. injection Hi' as E. lia.
  - assert (HinF : In (Z.of_nat k)
                     (filter (fun i => negb (existsb (Z.eqb i) A))
                             (range (Z.of_nat n)))).
    { apply filter_In. split.
      - unfold range. rewrite Nat2Z.id. apply in_map, in_seq. lia.
      - destruct (existsb (Z.eqb (Z.of_nat k)) A) eqn:E; [|reflexivity].
        apply existsb_exists in E. destruct E as (x & Hx & Ex).
        apply Z.eqb_eq in Ex. subst x. contradiction. }
    destruct (mapM_opt_nth_error _ _ _ _ HF HinF) as (i' & k' & _ & Hpi' & Hk').
    rewrite (norm_axis_of_nat _ _ Hkn) in Hk'. injection Hk' as <-.
    apply (NoDup_app_disjoint _ _ k Hnd HkA).
    eapply nth_error_In; eauto.
Qed.

Lemma norm_axis_resolved (n : nat) (a : Z) :
  (0 <= (if a <? 0 then a + Z.of_nat n else a))%Z ->
  norm_axis n (if (a <? 0)%Z then (a + Z.of_nat n)%Z else a) = norm_axis n a.
Proof.
  intros Hpos. destruct (Z.ltb_spec a 0) as [Hneg|]; [|reflexivity].
  unfold norm_axis.
  destruct (Z.leb_spec 0 (a + Z.of_nat n)); [|lia].
  destruct (Z.ltb_spec (a + Z.of_nat n) (Z.of_nat n)); [|lia].
  destruct (Z.leb_spec 0 a); [lia|].
  destruct (Z.leb_spec (- Z.of_nat n) a); [|lia].
  destruct (Z.ltb_spec a 0); [|lia].
  reflexivity.
Qed.

Lemma mapM_opt_resolved (n : nat) (axes : list Z) :
  Forall (fun b => (0 <= b)%Z) (resolve_axes n axes) ->
  mapM_opt (norm_axis n) (resolve_axes n axes) = mapM_opt (norm_axis n) axes.
Proof.
  induction axes as [|a axes IH]; simpl; intros Hf; [reflexivity|].
  inversion Hf as [|? ? Ha Hf']; subst.
  now rewrite (norm_axis_resolved n a Ha), (IH Hf').
Qed.

Lemma resolve_axes_of_nat (n : nat) (ax : list nat) :
  resolve_axes n (map Z.of_nat ax) = map Z.of_nat ax.
Proof.
  unfold resolve_axes. rewrite map_map. apply map_ext. intros a.
  destruct (Z.ltb_spec (Z.of_nat a) 0); [lia | reflexivity].
Qed.

Section BlockDiagExtras.

Context {V : Type} `{Dtype V}.

Lemma transpose_inv (a : ndarray V) (axes : list Z) (r : ndarray V) :
  transpose a axes = Ok r ->
  length axes = ndim a /\
  exists p, mapM_opt (norm_axis (ndim a)) axes = Some p /\ NoDup p.
Proof.
  unfold transpose.
  destruct (Nat.eqb_spec (length axes) (ndim a)) as [E|]; cbn [negb];
    [|discriminate].
  destruct (mapM_opt (norm_axis (ndim a)) axes) as [p|]; [|discriminate].
  destruct (nodupb p) eqn:En; [|discriminate].
  intros _. split; [exact E|]. exists p. split; [reflexivity|].
  now apply nodupb_spec.
Qed.

Lemma agrees_refl (n : nat) (ax : list nat) (a : ndarray V) :
  agrees n ax a a.
Proof. intros j _ _. reflexivity. Qed.

Lemma bd_extent_ext (summands : list (ndarray V)) (ax ax' : list nat)
      (first : ndarray V) (j : nat) :
  (forall i, In i ax <-> In i ax') ->
  bd_extent summands ax first j = bd_extent summands ax' first j.
Proof.
  intros Hiff. unfold bd_extent. now rewrite (existsb_eqb_ext ax ax' j Hiff).
Qed.

Lemma bd_offset_ext (summands : list (ndarray V)) (ax ax' : list nat)
      (k j : nat) :
  (forall i, In i ax <-> In i ax') ->
  bd_offset summands ax k j = bd_offset summands ax' k j.
Proof.
  intros Hiff. unfold bd_offset. now rewrite (existsb_eqb_ext ax ax' j Hiff).
Qed.

(** X10. The block-diagonal sum of a single summand is that summand,
    whatever (valid) axes are listed. *)
Theorem block_diag_single (a : ndarray V) (axes : list Z) (ax : list nat) :
  wf a -> valid_axes (ndim a) axes ax ->
  block_diag [a] axes = Ok a.
Proof.
  intros Hwf Hv.
  assert (Hrank : Forall (fun b : ndarray V => ndim b = ndim a) [a])
    by (constructor; [reflexivity | constructor]).
  assert (Hagree : Forall (agrees (ndim a) ax a) [a])
    by (constructor; [apply agrees_refl | constructor]).
  assert (Hb : Forall (broadcasts (ndim a) ax a) [a]).
  { constructor; [|constructor]. intros j _ _. now left. }
  destruct (block_diag_item a [] axes ax Hv Hrank Hb)
    as (r & Hrun & Hwfr & Hshape & Hitem).
  rewrite Hrun. f_equal.
  assert (Hsh : shape r = shape a).
  { rewrite Hshape.
    transitivity (map (fun j => nth j (shape a) 0) (seq 0 (ndim a)));
      [|apply map_nth_id].
    apply map_ext. intros j. unfold bd_extent.
    destruct (existsb (Nat.eqb j) ax); [simpl; lia | reflexivity]. }
  apply ndarray_ext; [exact Hwfr | exact Hwf | exact Hsh |].
  intros idx Hidx. rewrite Hsh in Hidx.
  destruct (block_diag_block a [] axes ax r Hv Hrank Hagree Hshape Hitem
              0 a idx eq_refl Hidx) as [_ Hblock].
  rewrite <- Hblock. f_equal. symmetry.
  transitivity (map (fun j => nth j idx 0) (seq 0 (length idx)));
    [|apply map_nth_id].
  unfold bd_shift. apply map_ext. intros j. unfold bd_offset.
  destruct (existsb (Nat.eqb j) ax); simpl; lia.
Qed.

(** X11. What [block_diag] needs in order to return: the listed axes
    must be distinct axes of the first summand (in [-rank, rank)), and
    every summand must have the rank of the first. *)
Theorem block_diag_requires (first : ndarray V) (others : list (ndarray V))
        (axes : list Z) (r : ndarray V) :
  block_diag (first :: others) axes = Ok r ->
  (exists ax, mapM_opt (norm_axis (ndim first)) axes = Some ax /\ NoDup ax) /\
  Forall (fun a => ndim a = ndim first) others.
Proof.
  unfold block_diag.
  set (order := bd_axes_order (ndim first) (resolve_axes (ndim first) axes)).
  destruct (mapM_res (fun array => transpose array order) (first :: others))
    as [ts|e] eqn:E; [|discriminate].
  intros _. apply mapM_res_inv in E.
  inversion E as [|? ? [t0 Ht0] Hothers]; subst.
  destruct (transpose_inv _ _ _ Ht0) as (Hlen & p & Hp & Hnd).
  split.
  - destruct (bd_order_valid _ _ _ Hp Hnd) as (pA & HpA & HndA & Hpos).
    exists pA. split; [|exact HndA].
    now rewrite <- (mapM_opt_resolved _ _ Hpos).
  - revert Hothers. apply Forall_impl. intros a [t Ht].
    destruct (transpose_inv _ _ _ Ht) as (Hlen' & _). congruence.
Qed.

(** X12. Negative axis numbers count from the end: listing the axes as
    given or resolved gives the same result. *)
Theorem block_diag_negative_axes (first : ndarray V)
        (others : list (ndarray V)) (axes : list Z) (ax : list nat) :
  mapM_opt (norm_axis (ndim first)) axes = Some ax ->
  block_diag (first :: others) axes
  = block_diag (first :: others) (map Z.of_nat ax).
Proof.
  intros Hm. unfold block_diag.
  destruct (mapM_opt_norm_axis_inv _ _ _ Hm) as [_ Hres].
  now rewrite Hres, resolve_axes_of_nat.
Qed.

(** X13. The result does not depend on the order in which the axes are
    listed: for summands of one rank that agree on the other axes, two
    valid lists of the same axes give the same block-diagonal sum. *)
Theorem block_diag_axes_order (first : ndarray V) (others : list (ndarray V))
        (axes axes' : list Z) (ax ax' : list nat) :
  valid_axes (ndim first) axes ax -> valid_axes (ndim first) axes' ax' ->
  (forall j, In j ax <-> In j ax') ->
  Forall (fun a => ndim a = ndim first) (first :: others) ->
  Forall (agrees (ndim first) ax first) (first :: others) ->
  block_diag (first :: others) axes = block_diag (first :: others) axes'.
Proof.
  intros Hv Hv' Hiff Hrank Hagree.
  set (n := ndim first) in *. set (sums := first :: others) in *.
  assert (Hagree' : Forall (agrees n ax' first) sums).
  { revert Hagree. apply Forall_impl. intros a Ha j Hj Hnin.
    apply Ha; [exact Hj|]. intros Hin. now apply Hnin, Hiff. }
  assert (Hbc : forall l, Forall (agrees n l first) sums ->
                          Forall (broadcasts n l first) sums).
  { intros l. apply Forall_impl. intros a Ha j Hj Hnin. left. now apply Ha. }
  destruct (block_diag_item first others axes ax Hv Hrank (Hbc _ Hagree))
    as (r & Hrun & Hwf & Hshape & Hitem).
  destruct (block_diag_item first others axes' ax' Hv' Hrank (Hbc _ Hagree'))
    as (r' & Hrun' & Hwf' & Hshape' & Hitem').
  fold n sums in Hshape, Hshape', Hitem, Hitem'.
  unfold sums. rewrite Hrun, Hrun'. f_equal.
  assert (Hsh : shape r = shape r').
  { rewrite Hshape, Hshape'. apply map_ext. intros j.
    now apply bd_extent_ext. }
  apply ndarray_ext; [exact Hwf | exact Hwf' | exact Hsh |].
  intros idx Hidx.
  assert (Hidx' : in_range (shape r') idx) by now rewrite <- Hsh.
  pose proof (proj1 (in_range_nth _ _) Hidx) as [Hli Hni].
  rewrite Hshape, length_map, length_seq in Hli, Hni.
  set (inb := fun k =>
         match nth_error sums k with
         | Some a =>
             forallb (fun j => (bd_offset sums ax k j <=? nth j idx 0)
                               && (nth j idx 0
                                   <? bd_offset sums ax k j + nth j (shape a) 0))
                     ax
         | None => false
         end).
  destruct (existsb inb (seq 0 (length sums))) eqn:Eex.
  - apply existsb_exists in Eex. destruct Eex as (k & _ & Hk).
    unfold inb in Hk. destruct (nth_error sums k) as [a|] eqn:Ea; [|discriminate].
    rewrite forallb_forall in Hk.
    assert (Hbound : forall j, In j ax ->
              bd_offset sums ax k j <= nth j idx 0
              < bd_offset sums ax k j + nth j (shape a) 0).
    { intros j Hj. specialize (Hk j Hj). apply andb_true_iff in Hk.
      rewrite Nat.leb_le, Nat.ltb_lt in Hk. exact Hk. }
    assert (HaS : In a sums) by (eapply nth_error_In; eauto).
    assert (Hnda : ndim a = n).
    { rewrite Forall_forall in Hrank. now apply Hrank. }
    assert (Haga : agrees n ax first a).
    { rewrite Forall_forall in Hagree. now apply Hagree. }
    set (idx0 := map (fun j => nth j idx 0 - bd_offset sums ax k j) (seq 0 n)).
    assert (Hr0 : in_range (shape a) idx0).
    { apply in_range_nth. unfold idx0. rewrite length_map, length_seq.
      fold (ndim a). rewrite Hnda. split; [reflexivity|].
      intros j Hj. rewrite nth_map_seq by exact Hj.
      destruct (in_dec Nat.eq_dec j ax) as [Hin | Hnin].
      - specialize (Hbound j Hin). lia.
      - rewrite (bd_offset_unlisted sums ax k j Hnin), Nat.sub_0_r.
        specialize (Hni j Hj). rewrite nth_map_seq in Hni by exact Hj.
        unfold bd_extent in Hni.
        destruct (existsb (Nat.eqb j) ax) eqn:Ee.
        + apply existsb_eqb_In in Ee. contradiction.
        + now rewrite (Haga j Hj Hnin). }
    assert (Hshift : bd_shift sums ax k idx0 = idx).
    { unfold bd_shift, idx0. rewrite length_map, length_seq.
      apply (nth_ext _ _ 0 0); rewrite length_map, length_seq;
        [now rewrite Hli|].
      intros j Hj. rewrite !nth_map_seq by exact Hj.
      destruct (in_dec Nat.eq_dec j ax) as [Hin | Hnin].
      - specialize (Hbound j Hin). lia.
      - rewrite (bd_offset_unlisted sums ax k j Hnin). lia. }
    assert (Hshift' : bd_shift sums ax' k idx0 = idx).
    { rewrite <- Hshift. unfold bd_shift. apply map_ext. intros j.
      now rewrite (bd_offset_ext sums ax ax' k j Hiff). }
    destruct (block_diag_block first others axes ax r Hv Hrank Hagree
                Hshape Hitem k a idx0 Ea Hr0) as [_ E1].
    destruct (block_diag_block first others axes' ax' r' Hv' Hrank Hagree'
                Hshape' Hitem' k a idx0 Ea Hr0) as [_ E2].
    fold sums in E1, E2. rewrite Hshift in E1. rewrite Hshift' in E2.
    congruence.
  - assert (Hout : forall k a, nth_error sums k = Some a ->
              exists j, In j ax /\
                ~ (bd_offset sums ax k j <= nth j idx 0
                   < bd_offset sums ax k j + nth j (shape a) 0)).
    { intros k a Ea.
      assert (Hk : inb k = false).
      { destruct (inb k) eqn:E; [|reflexivity].
        assert (Hex : existsb inb (seq 0 (length sums)) = true).
        { apply existsb_exists. exists k. split; [|exact E].
          assert (Hlt : k < length sums)
            by (apply nth_error_Some; congruence).
          apply in_seq. lia. }
        congruence. }
      unfold inb in Hk. rewrite Ea in Hk.
      apply forallb_false_witness in Hk. destruct Hk as (j & Hj & Hf).
      exists j. split; [exact Hj|]. intros [H1 H2].
      apply andb_false_iff in Hf. rewrite Nat.leb_nle, Nat.ltb_nlt in Hf.
      tauto. }
    rewrite (block_diag_outside first others ax r Hitem idx Hidx Hout).
    symmetry.
    apply (block_diag_outside first others ax' r' Hitem' idx Hidx').
    intros k a Ea. destruct (Hout k a Ea) as (j & Hj & Hnot).
    exists j. split; [now apply Hiff|].
    fold sums. now rewrite <- (bd_offset_ext sums ax ax' k j Hiff).
Qed.

End BlockDiagExtras.

Lemma block_diag_single_witness :
  block_diag [arange_reshape 0 [2; 3; 2]] [1; -1]%Z
  = Ok (arange_reshape 0 [2; 3; 2]).
Proof.
  apply (@block_diag_single Z _ (arange_reshape 0 [2; 3; 2]) [1; -1]%Z
           [1; 2]).
  - reflexivity.
  - split; [reflexivity | split; [repeat constructor; simpl; lia|]].
    discriminate.
Defined.

(** X11 at the docstring's example, which returns. *)
Lemma block_diag_requires_witness :
  (exists ax,
      mapM_opt (norm_axis (ndim (arange_reshape 0 [2; 2; 2]))) [1; -1]%Z
      = Some ax /\ NoDup ax) /\
  Forall (fun a : ndarray Z => ndim a = ndim (arange_reshape 0 [2; 2; 2]))
         [arange_reshape 8 [2; 2; 2]].
Proof.
  apply (@block_diag_requires Z _ (arange_reshape 0 [2; 2; 2])
           [arange_reshape 8 [2; 2; 2]] [1; -1]%Z
           {| shape := [2; 4; 4];
              data := [0; 1; 0; 0;   2; 3; 0; 0;
                       0; 0; 8; 9;   0; 0; 10; 11;
                       4; 5; 0; 0;   6; 7; 0; 0;
                       0; 0; 12; 13; 0; 0; 14; 15]%Z |}).
  vm_compute. reflexivity.
Defined.

Lemma block_diag_negative_axes_witness :
  block_diag [arange_reshape 0 [2; 2; 2]; arange_reshape 8 [2; 2; 2]]
             [1; -1]%Z
  = block_diag [arange_reshape 0 [2; 2; 2]; arange_reshape 8 [2; 2; 2]]
               [1; 2]%Z.
Proof.
  apply (@block_diag_negative_axes Z _ (arange_reshape 0 [2; 2; 2])
           [arange_reshape 8 [2; 2; 2]] [1; -1]%Z [1; 2]).
  reflexivity.
Defined.

Lemma block_diag_axes_order_witness :
  block_diag [arange_reshape 0 [2; 2; 2]; arange_reshape 8 [2; 2; 2]]
             [1; -1]%Z
  = block_diag [arange_reshape 0 [2; 2; 2]; arange_reshape 8 [2; 2; 2]]
               [-1; 1]%Z.
Proof.
  apply (@block_diag_axes_order Z _ (arange_reshape 0 [2; 2; 2])
           [arange_reshape 8 [2; 2; 2]] [1; -1]%Z [-1; 1]%Z [1; 2] [2; 1]).
  - split; [reflexivity | split; [repeat constructor; simpl; lia|]].
    discriminate.
  - split; [reflexivity | split; [repeat constructor; simpl; lia|]].
    discriminate.
  - intros j. simpl. tauto.
  - repeat constructor.
  - repeat constructor; intros j Hj Hn; reflexivity.
Defined.

(** ** Factories: what the array factories draw and return *)

Lemma draw_length {V G : Type} (one : G -> V * G) (n : nat) (s : G) :
  length (fst (draw one n s)) = n.
Proof.
  revert s. induction n as [|n IH]; intros s; simpl; [reflexivity|].
  destruct (one s) as [x s1]. specialize (IH s1).
  destruct (draw one n s1) as [xs s2]. simpl in *. now rewrite IH.
Qed.

(** Drawing [n + m] values is drawing [n] and then [m]. *)
Lemma draw_app {V G : Type} (one : G -> V * G) (n m : nat) (s : G) :
  draw one (n + m) s
  = (fst (draw one n s) ++ fst (draw one m (snd (draw one n s))),
     snd (draw one m (snd (draw one n s)))).
Proof.
  revert s. induction n as [|n IH]; intros s; simpl.
  - now destruct (draw one m s).
  - destruct (one s) as [x s1]. rewrite (IH s1).
    destruct (draw one n s1) as [xs s2]. simpl.
    now destruct (draw one m s2).
Qed.

Lemma set_set_src {G : Type} (src : source) (s1 s2 : G) (w : world G) :
  set_src src s2 (set_src src s1 w) = set_src src s2 w.
Proof. now destruct src. Qed.


Lemma map2_map_r {A B C D : Type} (f : A -> C -> D) (g : B -> C)
      (l1 : list A) (l2 : list B) :
  map2 f l1 (map g l2) = map2 (fun x y => f x (g y)) l1 l2.
Proof.
  revert l2. induction l1 as [|x l1 IH]; intros [|y l2]; simpl;
    try reflexivity. now rewrite IH.
Qed.

Lemma size_repeat (l n : nat) : size (repeat l n) = l ^ n.
Proof. induction n as [|n IH]; simpl; [reflexivity | now rewrite IH]. Qed.

Lemma size_square (l n : nat) :
  size (repeat l (2 * n)) = size [l ^ n; l ^ n].
Proof.
  rewrite size_repeat. simpl size.
  replace (2 * n) with (n + n) by lia. rewrite Nat.pow_add_r. lia.
Qed.

Section ArrayFactories.

Context {V G : Type} `{Dtype V} `{Numeric V} `{Generator V G}.

(** The complex array that [_zrandn] assembles from its draws [xs]. *)
Lemma zrandn_run (sh : list nat) (randstate : option source) (w : world G) :
  _zrandn sh randstate w
  = (Ok {| shape := sh;
           data := map2 (fun re im => add re (mul imag_unit im))
                     (firstn (size sh)
                        (fst (draw gauss (2 * size sh)
                                (get_src (designated randstate) w))))
                     (skipn (size sh)
                        (fst (draw gauss (2 * size sh)
                                (get_src (designated randstate) w)))) |},
     set_src (designated randstate)
       (snd (draw gauss (2 * size sh) (get_src (designated randstate) w)))
       w).
Proof.
  unfold _zrandn. fold (designated randstate).
  set (src := designated randstate). set (n := size sh).
  replace (2 * n) with (n + n) by lia. rewrite draw_app.
  pose proof (draw_length (V:=V) gauss n (get_src src w)) as Hl1.
  destruct (draw gauss n (get_src src w)) as [xs s1] eqn:E1.
  cbn [fst snd] in *.
  destruct (draw gauss n s1) as [ys s2] eqn:E2. cbn [fst snd].
  unfold bind, randn. fold n. rewrite E1.
  rewrite get_set_same, E2, set_set_src.
  unfold lift, ewise2, ewise. cbn [shape data].
  destruct (list_eq_dec Nat.eq_dec sh sh) as [_|Hne]; [|contradiction].
  rewrite map2_map_r.
  rewrite <- Hl1 at 1. rewrite firstn_app, Nat.sub_diag, firstn_all.
  cbn [firstn]. rewrite app_nil_r.
  rewrite <- Hl1 at 1. rewrite skipn_app, Nat.sub_diag, skipn_all.
  reflexivity.
Qed.

Lemma zrandn_ok (sh : list nat) (randstate : option source) (w : world G) :
  exists a,
    _zrandn sh randstate w
    = (Ok a, set_src (designated randstate)
               (snd (draw gauss (2 * size sh)
                       (get_src (designated randstate) w))) w) /\
    shape a = sh /\ wf a.
Proof.
  eexists. split; [apply zrandn_run|]. split; [reflexivity|].
  unfold wf. cbn [shape data].
  pose proof (draw_length (V:=V) gauss (2 * size sh)
                (get_src (designated randstate) w)) as Hl.
  rewrite length_map2, length_firstn, length_skipn, Hl. lia.
Qed.

(** X14. [_zrandn] takes [2 * prod(shape)] normal draws from the source
    that [randstate] designates ([numpy.random] for [None]) and from
    nothing else: first all the real parts, then all the imaginary
    parts, entry [k] of the result being [re[k] + 1j * im[k]]. *)
Theorem zrandn_draws (sh : list nat) (randstate : option source)
        (w : world G) :
  exists xs s',
    draw gauss (2 * size sh) (get_src (designated randstate) w) = (xs, s') /\
    _zrandn (V:=V) sh randstate w
    = (Ok {| shape := sh;
             data := map2 (fun re im => add re (mul imag_unit im))
                          (firstn (size sh) xs) (skipn (size sh) xs) |},
       set_src (designated randstate) s' w).
Proof.
  rewrite zrandn_run.
  destruct (draw gauss (2 * size sh) (get_src (designated randstate) w))
    as [xs s']. exists xs, s'. split; reflexivity.
Qed.

Lemma wf_ewise (f : V -> V) (a : ndarray V) : wf a -> wf (ewise f a).
Proof. unfold wf, ewise. cbn [shape data]. now rewrite length_map. Qed.

Lemma np_vdot_self (a : ndarray V) : exists v, np_vdot a a = Ok v.
Proof. unfold np_vdot. rewrite Nat.eqb_refl. eexists. reflexivity. Qed.

Lemma shape_transpose_rev_square (a : ndarray V) (n : nat) :
  shape a = [n; n] -> shape (transpose_rev a) = [n; n].
Proof.
  intros Hs. unfold transpose_rev. rewrite shape_permute_axes.
  unfold ndim. rewrite Hs. reflexivity.
Qed.

Lemma reshape_ok (a : ndarray V) (sh : list nat) :
  wf a -> size sh = size (shape a) ->
  exists r, reshape a sh = Ok r /\ shape r = sh /\ wf r.
Proof.
  intros Hwf Hs. unfold reshape. rewrite Hs, <- Hwf, Nat.eqb_refl.
  eexists. split; [reflexivity|]. split; [reflexivity|].
  unfold wf. cbn [shape data]. now rewrite Hs.
Qed.

(** X15. [random_vec] never raises: it returns a well-formed array of
    shape [(ldim,) * sites], having taken [2 * ldim ** sites] normal
    draws from the designated source. *)
Theorem random_vec_returns (sites ldim : nat) (randstate : option source)
        (w : world G) :
  exists psi,
    random_vec sites ldim randstate w
    = (Ok psi,
       set_src (designated randstate)
         (snd (draw (V:=V) gauss (2 * ldim ^ sites)
                 (get_src (designated randstate) w))) w) /\
    shape psi = repeat ldim sites /\ wf psi.
Proof.
  unfold random_vec.
  destruct (zrandn_ok (repeat ldim sites) randstate w)
    as (psi & Hrun & Hsh & Hwf).
  rewrite size_repeat in Hrun.
  rewrite (bind_ok _ _ _ _ _ Hrun). unfold lift.
  destruct (np_vdot_self psi) as [v Hv]. rewrite Hv. cbn [rbind].
  eexists. split; [reflexivity|].
  split; [exact Hsh | now apply wf_ewise].
Qed.

(** [random_op], run. *)
Lemma random_op_run (sites ldim : nat) (hermitian normalized : bool)
        (randstate : option source) (w : world G) :
  exists op,
    random_op sites ldim hermitian normalized randstate w
    = (Ok op,
       set_src (designated randstate)
         (snd (draw (V:=V) gauss (2 * size [ldim ^ sites; ldim ^ sites])
                 (get_src (designated randstate) w))) w) /\
    shape op = repeat ldim (2 * sites) /\ wf op.
Proof.
  unfold random_op. set (n := ldim ^ sites).
  destruct (zrandn_ok (repeat n 2) randstate w) as (op & Hrun & Hsh & Hwf).
  change (repeat n 2) with [n; n] in *.
  rewrite (bind_ok _ _ _ _ _ Hrun). unfold lift.
  assert (Hherm : exists op1,
             (if hermitian
              then ewise2 add op (ewise conj (transpose_rev op))
              else Ok op) = Ok op1 /\ shape op1 = [n; n] /\ wf op1).
  { destruct hermitian; [|now exists op].
    unfold ewise2. cbn [ewise shape data].
    rewrite (shape_transpose_rev_square op n Hsh), Hsh.
    destruct (list_eq_dec Nat.eq_dec [n; n] [n; n]) as [_|Hne];
      [|contradiction].
    eexists. split; [reflexivity|]. split; [reflexivity|].
    unfold wf. cbn [shape data].
    rewrite length_map2, length_map.
    pose proof (wf_permute_axes op (rev (seq 0 (ndim op)))) as Hw.
    fold (transpose_rev op) in Hw. unfold wf in Hw.
    rewrite (shape_transpose_rev_square op n Hsh) in Hw.
    unfold wf in Hwf. rewrite Hsh in Hwf. rewrite Hw, Hwf. lia. }
  destruct Hherm as (op1 & -> & Hsh1 & Hwf1). cbn [rbind].
  assert (Hnorm : exists op2,
             (if normalized
              then n <- norm_2 op1 ;; Ok (ewise (fun x => div x n) op1)
              else Ok op1) = Ok op2 /\ shape op2 = [n; n] /\ wf op2).
  { destruct normalized; [|now exists op1].
    unfold norm_2. destruct (np_vdot_self op1) as [v ->]. cbn [rbind].
    eexists. split; [reflexivity|].
    split; [exact Hsh1 | now apply wf_ewise]. }
  destruct Hnorm as (op2 & -> & Hsh2 & Hwf2). cbn [rbind].
  destruct (reshape_ok op2 (repeat ldim (2 * sites)) Hwf2)
    as (r & -> & Hr & Hwr).
  { rewrite Hsh2. apply size_square. }
  exists r. split; [reflexivity | split; assumption].
Qed.

(** X16. [random_op] never raises, whatever [hermitian] and
    [normalized] are: it returns a well-formed array of shape
    [(ldim,) * 2 * sites], having taken [2 * (ldim ** sites) ** 2]
    normal draws from the designated source. *)
Theorem random_op_returns (sites ldim : nat) (hermitian normalized : bool)
        (randstate : option source) (w : world G) :
  exists op,
    random_op sites ldim hermitian normalized randstate w
    = (Ok op,
       set_src (designated randstate)
         (snd (draw (V:=V) gauss (2 * size [ldim ^ sites; ldim ^ sites])
                 (get_src (designated randstate) w))) w) /\
    shape op = repeat ldim (2 * sites) /\ wf op.
Proof. apply random_op_run. Qed.

(** X17. [random_state] never raises: it returns a well-formed array of
    shape [(ldim,) * 2 * sites], having taken [2 * (ldim ** sites) ** 2]
    normal draws from the designated source. *)
Theorem random_state_returns (sites ldim : nat) (randstate : option source)
        (w : world G) :
  exists rho,
    random_state sites ldim randstate w
    = (Ok rho,
       set_src (designated randstate)
         (snd (draw (V:=V) gauss (2 * size [ldim ^ sites; ldim ^ sites])
                 (get_src (designated randstate) w))) w) /\
    shape rho = repeat ldim (2 * sites) /\ wf rho.
Proof.
  unfold random_state. set (n := ldim ^ sites).
  destruct (zrandn_ok [n; n] randstate w) as (mat & Hrun & Hsh & Hwf).
  rewrite (bind_ok _ _ _ _ _ Hrun). unfold lift.
  assert (Hdot : exists rho0,
             np_dot (ewise conj (transpose_rev mat)) mat = Ok rho0 /\
             shape rho0 = [n; n] /\ wf rho0).
  { unfold np_dot, matdot, ndim. cbn [ewise shape].
    rewrite (shape_transpose_rev_square mat n Hsh), Hsh.
    cbn [length Nat.eqb andb rev app]. rewrite Nat.eqb_refl.
    eexists. split; [reflexivity|].
    split; [reflexivity | apply wf_tabulate]. }
  destruct Hdot as (rho0 & -> & Hsh0 & Hwf0). cbn [rbind].
  assert (Htr : exists t, np_trace2 rho0 = Ok t).
  { unfold np_trace2, np_trace, ndim. rewrite Hsh0.
    cbn [length]. change (norm_axis 2 0) with (Some 0).
    change (norm_axis 2 1) with (Some 1). cbn [Nat.eqb rbind].
    eexists. reflexivity. }
  destruct Htr as (t & ->). cbn [rbind].
  destruct (reshape_ok (ewise (fun x => div x t) rho0)
              (repeat ldim (2 * sites)) (wf_ewise _ _ Hwf0))
    as (r & -> & Hr & Hwr).
  { cbn [ewise shape]. rewrite Hsh0. apply size_square. }
  exists r. split; [reflexivity | split; assumption].
Qed.

End ArrayFactories.

(** ** Factories: the chains that are built, and how building fails *)

Section ChainFacts.

Context {V G : Type} `{Dtype V}.

Lemma bind_inv {A B : Type} (m : M G A) (k : A -> M G B) (w w' : world G)
      (b : B) :
  bind m k w = (Ok b, w') ->
  exists a w1, m w = (Ok a, w1) /\ k a w1 = (Ok b, w').
Proof.
  unfold bind. destruct (m w) as [[a|e] w1]; [|discriminate].
  intros Hk. now exists a, w1.
Qed.

Lemma mapM_all {A : Type} (f : A -> M G (ndarray V))
      (P : ndarray V -> Prop) :
  (forall x w a w', f x w = (Ok a, w') -> P a) ->
  forall l w ys w', mapM f l w = (Ok ys, w') -> Forall P ys.
Proof.
  intros Hf. induction l as [|x l IH]; intros w ys w' Hrun; cbn [mapM] in Hrun.
  - injection Hrun as <- _. constructor.
  - apply bind_inv in Hrun. destruct Hrun as (y & w1 & Hy & Hrun).
    apply bind_inv in Hrun. destruct Hrun as (ys' & w2 & Hys & Hrun).
    injection Hrun as <- _. constructor; eauto.
Qed.

Lemma with_int_shape_all (func : list nat -> M G (ndarray V))
      (P : ndarray V -> Prop) (shape : list pyval) :
  (forall sh w a w', func sh w = (Ok a, w') -> P a) ->
  forall w a w', with_int_shape func shape w = (Ok a, w') -> P a.
Proof.
  intros Hf w a w'. unfold with_int_shape.
  destruct (mapM_opt as_int shape); [apply Hf | discriminate].
Qed.

(** Every local tensor of the chain comes from the element factory. *)
Lemma generate_all (sites : nat) (ldim : pyval) (bdim : nat)
      (func : list pyval -> M G (ndarray V)) (P : ndarray V -> Prop) :
  (forall sh w a w', func sh w = (Ok a, w') -> P a) ->
  forall w c w', _generate sites ldim bdim func w = (Ok c, w') -> Forall P c.
Proof.
  intros Hf w c w'. unfold _generate.
  destruct (negb (1 <? sites)); [discriminate|].
  destruct (if has_iter ldim
            then match ldim with PSeq l => l | PInt _ => [] end
            else [ldim]) as [|ldim0 ldim_rest]; [discriminate|].
  destruct (negb (has_iter ldim0)).
  - intros Hrun.
    apply bind_inv in Hrun. destruct Hrun as (a & w1 & Ha & Hrun).
    apply bind_inv in Hrun. destruct Hrun as (ts & w2 & Hts & Hrun).
    apply bind_inv in Hrun. destruct Hrun as (b & w3 & Hb & Hrun).
    injection Hrun as <- _. unfold MPArray.
    change (Forall P (a :: ts ++ [b])). constructor.
    + eapply Hf; eauto.
    + apply Forall_app. split.
      * eapply (mapM_all _ P); [|exact Hts].
        intros x0 w0 t w0'. cbv beta. apply Hf.
      * constructor; [|constructor]. eapply Hf; eauto.
  - intros Hrun.
    apply bind_inv in Hrun. destruct Hrun as (ld & w0 & _ & Hrun).
    apply bind_inv in Hrun. destruct Hrun as (a & w1 & Ha & Hrun).
    apply bind_inv in Hrun. destruct Hrun as (ts & w2 & Hts & Hrun).
    destruct (skipn (sites - 2) ldim_rest); [discriminate|].
    apply bind_inv in Hrun. destruct Hrun as (ld' & w0' & _ & Hrun).
    apply bind_inv in Hrun. destruct Hrun as (b & w3 & Hb & Hrun).
    injection Hrun as <- _. unfold MPArray.
    change (Forall P (a :: ts ++ [b])). constructor.
    + eapply Hf; eauto.
    + apply Forall_app. split.
      * eapply (mapM_all _ P); [|exact Hts].
        intros x w4 t w4' Hx.
        apply bind_inv in Hx. destruct Hx as (ld'' & w5 & _ & Hx).
        eapply Hf; eauto.
      * constructor; [|constructor]. eapply Hf; eauto.
Qed.






Lemma mapM_opt_as_int_none (l : list pyval) (x : pyval) :
  In x l -> has_iter x = true -> mapM_opt as_int l = None.
Proof.
  induction l as [|y l IH]; simpl; intros Hin Hx; [contradiction|].
  destruct Hin as [-> | Hin].
  - destruct x; [discriminate | reflexivity].
  - rewrite (IH Hin Hx). now destruct (as_int y).
Qed.

End ChainFacts.

Lemma mapM_res_Forall2 {A B : Type} (f : A -> res B) (Q : A -> Prop)
      (R : A -> B -> Prop) :
  (forall x, Q x -> exists y, f x = Ok y /\ R x y) ->
  forall l, Forall Q l -> exists l', mapM_res f l = Ok l' /\ Forall2 R l l'.
Proof.
  intros Hf l Hl. induction Hl as [|x l Hx _ IH]; simpl.
  - exists []. split; [reflexivity | constructor].
  - destruct (Hf x Hx) as (y & -> & Hy). destruct IH as (l' & -> & Hl').
    exists (y :: l'). split; [reflexivity | now constructor].
Qed.

Lemma Forall2_nth_error_r {A B : Type} (R : A -> B -> Prop) (l1 : list A)
      (l2 : list B) (i : nat) (y : B) :
  Forall2 R l1 l2 -> nth_error l2 i = Some y ->
  exists x, nth_error l1 i = Some x /\ R x y.
Proof.
  intros HF. revert i. induction HF as [|a b l1 l2 Hab _ IH]; intros i Hy.
  - destruct i; discriminate.
  - destruct i as [|i]; simpl in *.
    + injection Hy as <-. now exists a.
    + now apply IH.
Qed.

Section ChainFactories.

Context {V G : Type} `{Dtype V} `{Numeric V} `{Generator V G}
        `{ChainAlgebra V}.

(** X19. A leg specification that starts with an int and has a sequence
    among its further entries is of none of the documented forms: with
    at least two sites, [random_mpa] and [zero] hand it on, between the
    two bond dimensions, as the first shape to [randn] and to
    [np.zeros], which raise [TypeError] on it before anything is
    drawn. *)
Theorem mixed_spec_type_error (sites n bdim : nat) (l : list pyval)
        (x : pyval) (randstate : option source) (w : world G) :
  2 <= sites -> In x l -> has_iter x = true ->
  random_mpa (V:=V) sites (PSeq (PInt n :: l)) bdim randstate w
  = (Raise TypeError, w) /\
  zero_mpa (V:=V) sites (PSeq (PInt n :: l)) bdim w = (Raise TypeError, w).
Proof.
  intros Hs Hin Hx.
  assert (Hn : mapM_opt as_int ([PInt 1] ++ (PInt n :: l) ++ [PInt bdim])
               = None).
  { apply (mapM_opt_as_int_none _ x); [|exact Hx].
    apply in_or_app. right. apply in_or_app. left. now right. }
  unfold random_mpa, zero_mpa, _generate.
  destruct (Nat.ltb_spec 1 sites) as [_|]; [|lia].
  cbn [negb has_iter]. unfold bind, with_int_shape.
  rewrite Hn. split; reflexivity.
Qed.

(** What [lten += lten.swapaxes(1, 2).conj()] makes of a local tensor
    with two physical legs of one extent. *)
Lemma hermitian_part (t : ndarray V) (bl l br : nat) :
  wf t -> shape t = [bl; l; l; br] ->
  exists t',
    (sw <- swapaxes t 1 2 ;; ewise2 add t (ewise conj sw)) = Ok t' /\
    shape t' = shape t /\
    forall a j k b, a < bl -> j < l -> k < l -> b < br ->
      item t' [a; j; k; b]
      = add (item t [a; j; k; b]) (conj (item t [a; k; j; b])).
Proof.
  intros Hwf Hs.
  assert (Hnd : ndim t = 4) by (unfold ndim; now rewrite Hs).
  unfold swapaxes. rewrite Hnd. cbn [Nat.ltb Nat.leb andb seq map Nat.eqb].
  cbn [rbind].
  set (sw := permute_axes t [0; 2; 1; 3]).
  assert (Hsw : shape sw = [bl; l; l; br]).
  { unfold sw. rewrite shape_permute_axes, Hs. reflexivity. }
  unfold ewise2. cbn [ewise shape]. rewrite Hsw, Hs.
  destruct (list_eq_dec Nat.eq_dec [bl; l; l; br] [bl; l; l; br])
    as [_|Hne]; [|contradiction].
  eexists. split; [reflexivity|]. split; [reflexivity|].
  intros a j k b Ha Hj Hk Hb.
  assert (Hr : in_range [bl; l; l; br] [a; j; k; b])
    by (repeat constructor; assumption).
  pose proof (ravel_lt _ _ Hr) as Hlt.
  unfold item at 1. cbn [shape data ewise].
  assert (Hlsw : length (data sw) = size [bl; l; l; br]).
  { pose proof (wf_permute_axes t [0; 2; 1; 3]) as Hw. fold sw in Hw.
    unfold wf in Hw. now rewrite Hsw in Hw. }
  unfold wf in Hwf. rewrite Hs in Hwf.
  rewrite (nth_map2 _ _ _ _ zero (conj zero) zero)
    by (rewrite ?length_map; lia).
  f_equal.
  - unfold item. now rewrite Hs.
  - rewrite map_nth. f_equal.
    transitivity (item sw [a; j; k; b]); [unfold item; now rewrite Hsw|].
    unfold sw. rewrite item_permute_axes.
    + rewrite Hnd. reflexivity.
    + fold sw. now rewrite Hsw.
Qed.

(** X20. [random_mpo] with [hermitian=True] and without normalisation
    returns, for at least two sites, the chain of [random_mpa] for two
    physical legs of extent [ldim] per site in which every local tensor
    [t] is replaced by [t + conj(t.swapaxes(1, 2))]: the shapes
    [(bond_left, ldim, ldim, bond_right)] are kept, and nothing further
    is drawn. *)
Theorem random_mpo_hermitian (sites ldim bdim : nat)
        (randstate : option source) (w : world G) :
  2 <= sites ->
  exists c0 c w',
    random_mpa sites (flat [ldim; ldim]) bdim randstate w = (Ok c0, w') /\
    random_mpo sites ldim bdim randstate true false w = (Ok c, w') /\
    chain_shapes sites bdim (fun _ => [ldim; ldim]) c /\
    forall i t0 t a j k b,
      nth_error c0 i = Some t0 -> nth_error c i = Some t ->
      in_range (shape t0) [a; j; k; b] ->
      item t [a; j; k; b]
      = add (item t0 [a; j; k; b]) (conj (item t0 [a; k; j; b])).
Proof.
  intros Hs.
  destruct (random_mpa_bond_shapes (V:=V) sites (flat [ldim; ldim]) bdim
              (fun _ => [ldim; ldim]) randstate w Hs)
    as (c0 & w' & Hrun & Hlen & Hsh).
  { apply (@legs_flat sites [ldim; ldim]). discriminate. }
  assert (Hwf : Forall (fun t : ndarray V => wf t) c0).
  { apply (generate_all sites (flat [ldim; ldim]) bdim
             (with_int_shape (fun shape => _zrandn shape randstate)) _)
      with (w := w) (w' := w').
    - intros sh. apply with_int_shape_all. intros sh' w0 a w0' E.
      destruct (zrandn_ok (V:=V) sh' randstate w0) as (a' & E' & _ & Hw).
      rewrite E' in E. now injection E as <- _.
    - exact Hrun. }
  assert (HQ : Forall (fun t : ndarray V =>
                         wf t /\ exists bl br, shape t = [bl; ldim; ldim; br])
                      c0).
  { apply Forall_forall. intros t Ht.
    rewrite Forall_forall in Hwf. split; [now apply Hwf|].
    destruct (In_nth_error _ _ Ht) as [i Hi].
    rewrite (Hsh i t Hi). unfold local_shape. eexists _, _. reflexivity. }
  destruct (mapM_res_Forall2
              (fun lten : ndarray V =>
                 sw <- swapaxes lten 1 2 ;; ewise2 add lten (ewise conj sw))
              (fun t => wf t /\ exists bl br, shape t = [bl; ldim; ldim; br])
              (fun t t' =>
                 shape t' = shape t /\
                 forall a j k b, in_range (shape t) [a; j; k; b] ->
                   item t' [a; j; k; b]
                   = add (item t [a; j; k; b]) (conj (item t [a; k; j; b]))))
    with (l := c0) as (c & Hc & HF).
  { intros t (Hwt & bl & br & Hst).
    destruct (hermitian_part t bl ldim br Hwt Hst) as (t' & Ht' & Hs' & Hit).
    exists t'. split; [exact Ht' | split; [exact Hs'|]].
    intros a j k b Hr. rewrite Hst in Hr.
    inversion Hr as [|? ? ? ? Ha Hr1]; subst.
    inversion Hr1 as [|? ? ? ? Hj Hr2]; subst.
    inversion Hr2 as [|? ? ? ? Hk Hr3]; subst.
    inversion Hr3 as [|? ? ? ? Hb _]; subst.
    now apply Hit. }
  { exact HQ. }
  exists c0, c, w'. split; [exact Hrun|]. split.
  - unfold random_mpo.
    change (PSeq [PInt ldim; PInt ldim]) with (flat [ldim; ldim]).
    rewrite (bind_ok _ _ _ _ _ Hrun). unfold lift. now rewrite Hc.
  - split.
    + split.
      * rewrite <- (Forall2_length HF). exact Hlen.
      * intros i t Hi.
        destruct (Forall2_nth_error_r _ _ _ _ _ HF Hi) as (t0 & Hi0 & Hst & _).
        rewrite Hst. now apply Hsh.
    + intros i t0 t a j k b Hi0 Hi Hr.
      destruct (Forall2_nth_error _ _ _ _ _ _ HF Hi0 Hi) as [_ Hit].
      now apply Hit.
Qed.

(** X21. With fewer than two sites every chain factory fails the
    assertion of [_generate] before anything is drawn; [random_mpdo]
    does so as soon as it builds its first pure state, that is unless
    [bdim] is zero. *)
Theorem factories_need_two_sites (sites : nat) (ldim : pyval) (l bdim : nat)
        (randstate : option source) (hermitian normalized : bool)
        (w : world G) :
  sites < 2 ->
  random_mpa (V:=V) sites ldim bdim randstate w = (Raise AssertionError, w) /\
  zero_mpa (V:=V) sites ldim bdim w = (Raise AssertionError, w) /\
  random_mps (V:=V) sites ldim bdim randstate w = (Raise AssertionError, w) /\
  random_mpo (V:=V) sites l bdim randstate hermitian normalized w
  = (Raise AssertionError, w) /\
  (bdim <> 0 ->
   random_mpdo (V:=V) sites ldim bdim randstate w
   = (Raise AssertionError, w)).
Proof.
  intros Hs.
  assert (Hgen : forall ld bd (func : list pyval -> M G (ndarray V)) w0,
             _generate sites ld bd func w0 = (Raise AssertionError, w0)).
  { intros ld bd func w0. unfold _generate.
    destruct (Nat.ltb_spec 1 sites) as [|_]; [lia|]. reflexivity. }
  assert (Hmps : forall bd w0,
             random_mps (V:=V) sites ldim bd randstate w0
             = (Raise AssertionError, w0)).
  { intros bd w0. unfold random_mps, random_mpa, bind. now rewrite Hgen. }
  split; [apply Hgen|]. split; [apply Hgen|]. split; [apply Hmps|].
  split.
  - unfold random_mpo, random_mpa, bind. now rewrite Hgen.
  - intros Hb. unfold random_mpdo.
    destruct bdim as [|b]; [contradiction|].
    rewrite <- cons_seq. cbn [mapM]. unfold bind at 1 2.
    now rewrite Hmps.
Qed.

(** X22. With [bdim = 0] there is no pure state to mix:
    [random_mpdo] raises [TypeError] (the reduction of an empty
    sequence), for any number of sites, having drawn nothing. *)
Theorem random_mpdo_no_terms (sites : nat) (ldim : pyval)
        (randstate : option source) (w : world G) :
  random_mpdo (V:=V) sites ldim 0 randstate w = (Raise TypeError, w).
Proof.
  unfold random_mpdo. cbn [seq mapM]. unfold bind, ret, rand, lift.
  cbn [draw get_src data ewise combine]. cbn [set_src].
  now destruct w.
Qed.

(** X23. The interaction length of [random_local_ham]: a length above
    the number of sites fails the assertion before anything is drawn; a
    length of zero passes it, and the first local term then raises
    [ZeroDivisionError] in [global_to_local], after [random_op] has
    taken its two draws from [numpy.random]. *)
Theorem random_local_ham_intlen (sites ldim : nat)
        (randstate : option source) (w : world G) :
  (forall intlen, sites < intlen ->
     random_local_ham (V:=V) sites ldim intlen randstate w
     = (Raise AssertionError, w)) /\
  random_local_ham (V:=V) sites ldim 0 randstate w
  = (Raise ZeroDivisionError,
     set_src NpRandom (snd (draw (V:=V) gauss 2 (np_random w))) w).
Proof.
  split.
  - intros intlen Hlt. unfold random_local_ham.
    destruct (Nat.leb_spec intlen sites) as [|_]; [lia|]. reflexivity.
  - unfold random_local_ham. cbn [Nat.leb negb].
    rewrite Nat.sub_0_r, Nat.add_1_r. rewrite <- cons_seq. cbn [mapM].
    destruct (random_op_run (V:=V) 0 ldim true true None w)
      as (op & Hop & _ & _).
    cbn [designated get_src Nat.pow size Nat.mul] in Hop.
    unfold bind at 1 2 3. rewrite Hop. unfold lift.
    unfold global_to_local, py_mod. cbn [Nat.eqb rbind]. reflexivity.
Qed.

End ChainFactories.

Section Seeds.

Context {V G : Type} `{Dtype V} `{Numeric V} `{Generator V G}
        `{ChainAlgebra V}.

Lemma uses_only_supplied {A : Type} (m : M G A) :
  uses_only Supplied m -> seed_determines m.
Proof.
  intros [Hdet Hother] n1 n2 g. split.
  - apply (Hdet {| np_random := n1; supplied := g |}
                {| np_random := n2; supplied := g |}). reflexivity.
  - apply (Hother {| np_random := n1; supplied := g |}).
Qed.

(** X24. Sampling with a seeded [RandomState] is reproducible: the
    results of [random_vec], [random_op], [random_state], [random_mpa],
    [random_mps] and [random_mpo] with a supplied [randstate] depend on
    the state of that source alone, whatever the state of
    [numpy.random] is, and they leave [numpy.random] untouched. *)
Theorem seeded_sampling_reproducible :
  (forall sites ldim,
     seed_determines (random_vec (V:=V) (G:=G) sites ldim (Some Supplied))) /\
  (forall sites ldim hermitian normalized,
     seed_determines
       (random_op (V:=V) (G:=G) sites ldim hermitian normalized
          (Some Supplied))) /\
  (forall sites ldim,
     seed_determines
       (random_state (V:=V) (G:=G) sites ldim (Some Supplied))) /\
  (forall sites ldim bdim,
     seed_determines
       (random_mpa (V:=V) (G:=G) sites ldim bdim (Some Supplied))) /\
  (forall sites ldim bdim,
     seed_determines
       (random_mps (V:=V) (G:=G) sites ldim bdim (Some Supplied))) /\
  (forall sites ldim bdim hermitian normalized,
     seed_determines
       (random_mpo (V:=V) (G:=G) sites ldim bdim (Some Supplied)
          hermitian normalized)).
Proof.
  destruct (sampling_uses_designated (V:=V) (G:=G) (Some Supplied))
    as (Hvec & Hop & Hstate & Hmpa & Hmpo & Hmps).
  cbn [designated] in *.
  split; [|split; [|split; [|split; [|split]]]]; intros;
    apply uses_only_supplied; auto.
Qed.

End Seeds.


(** X19 at the specification [(2, (3, 4))]. *)
Lemma mixed_spec_type_error_witness :
  random_mpa (V:=Z) (G:=Z) 2 (PSeq [PInt 2; PSeq [PInt 3; PInt 4]]) 1
    (Some Supplied) {| np_random := 0%Z; supplied := 0%Z |}
  = (Raise TypeError, {| np_random := 0%Z; supplied := 0%Z |}) /\
  zero_mpa (V:=Z) (G:=Z) 2 (PSeq [PInt 2; PSeq [PInt 3; PInt 4]]) 1
    {| np_random := 0%Z; supplied := 0%Z |}
  = (Raise TypeError, {| np_random := 0%Z; supplied := 0%Z |}).
Proof.
  apply (mixed_spec_type_error (V:=Z) (G:=Z) 2 2 1
           [PSeq [PInt 3; PInt 4]] (PSeq [PInt 3; PInt 4])).
  - lia.
  - simpl. auto.
  - reflexivity.
Defined.

(** X20 on two sites of local dimension 2, with integer entries drawn
    from a counter. *)
Lemma random_mpo_hermitian_witness :
  exists c w',
    random_mpo (V:=Z) (G:=Z) 2 2 1 (Some Supplied) true false
      {| np_random := 0%Z; supplied := 0%Z |} = (Ok c, w') /\
    chain_shapes 2 1 (fun _ => [2; 2]) c.
Proof.
  destruct (random_mpo_hermitian (V:=Z) (G:=Z) 2 2 1 (Some Supplied)
              {| np_random := 0%Z; supplied := 0%Z |} ltac:(lia))
    as (c0 & c & w' & _ & Hrun & Hsh & _).
  exists c, w'. split; [exact Hrun | exact Hsh].
Defined.

Lemma factories_need_two_sites_witness :
  random_mps (V:=Z) (G:=Z) 1 (PInt 2) 3 None
    {| np_random := 0%Z; supplied := 0%Z |}
  = (Raise AssertionError, {| np_random := 0%Z; supplied := 0%Z |}).
Proof.
  assert (Hs : 1 < 2) by lia.
  destruct (factories_need_two_sites (V:=Z) (G:=Z) 1 (PInt 2) 2 3 None
              false false {| np_random := 0%Z; supplied := 0%Z |} Hs)
    as (_ & _ & Hmps & _).
  exact Hmps.
Defined.

Lemma random_local_ham_intlen_witness :
  random_local_ham (V:=Z) (G:=Z) 2 2 3 None
    {| np_random := 0%Z; supplied := 0%Z |}
  = (Raise AssertionError, {| np_random := 0%Z; supplied := 0%Z |}).
Proof.
  apply (proj1 (random_local_ham_intlen (V:=Z) (G:=Z) 2 2 None
                  {| np_random := 0%Z; supplied := 0%Z |})).
  lia.
Defined.

(** ** [mkron]: Kronecker products of several factors *)

Section KronExtras.

Context {V : Type} `{Dtype V} `{Numeric V}.

Lemma pad_ones_full (n : nat) (sh : list nat) :
  length sh = n -> pad_ones n sh = sh.
Proof. intros <-. unfold pad_ones. now rewrite Nat.sub_diag. Qed.

Lemma shape_np_kron (a b : ndarray V) :
  ndim b = ndim a ->
  shape (np_kron a b) = map2 Nat.mul (shape a) (shape b).
Proof.
  intros Hn. unfold np_kron. cbn [tabulate shape].
  rewrite Hn, Nat.max_id.
  f_equal; apply pad_ones_full; [reflexivity | exact Hn].
Qed.

Lemma mkron_from_shape (rest : list (ndarray V)) :
  forall a, Forall (fun x => ndim x = ndim a) rest ->
    ndim (mkron_from a rest) = ndim a /\
    forall j, j < ndim a ->
      nth j (shape (mkron_from a rest)) 0
      = fold_right Nat.mul 1
          (map (fun x => nth j (shape x) 0) (a :: rest)).
Proof.
  induction rest as [|b rest IH]; intros a Hall; cbn [mkron_from].
  - split; [reflexivity|]. intros j _. simpl. lia.
  - inversion Hall as [|? ? Hb Hrest]; subst.
    assert (Hk : ndim (np_kron a b) = ndim a).
    { unfold ndim at 1. rewrite (shape_np_kron a b Hb), length_map2.
      fold (ndim a) (ndim b). rewrite Hb. apply Nat.min_id. }
    destruct (IH (np_kron a b)) as [Hnd Hsh].
    { revert Hrest. apply Forall_impl. intros x Hx. congruence. }
    split; [congruence|]. intros j Hj.
    rewrite (Hsh j) by now rewrite Hk.
    cbn [map fold_right]. rewrite (shape_np_kron a b Hb).
    rewrite (nth_map2 _ _ _ _ 0 0 0)
      by (fold (ndim a) (ndim b); lia).
    lia.
Qed.

(** X25. [mkron] needs at least one factor ([IndexError] otherwise) and
    returns a single factor as it is; for factors of one rank the
    result has that rank, and its extent on every axis is the product
    of the factors' extents on that axis. *)
Theorem mkron_shape (a : ndarray V) (rest : list (ndarray V)) :
  mkron (V:=V) [] = Raise IndexError /\
  mkron [a] = Ok a /\
  (Forall (fun x => ndim x = ndim a) rest ->
   exists r, mkron (a :: rest) = Ok r /\ ndim r = ndim a /\
     forall j, j < ndim a ->
       nth j (shape r) 0
       = fold_right Nat.mul 1 (map (fun x => nth j (shape x) 0) (a :: rest))).
Proof.
  split; [reflexivity | split; [reflexivity|]].
  intros Hall. exists (mkron_from a rest). split; [reflexivity|].
  now apply mkron_from_shape.
Qed.

Lemma mkron_from_app (l1 l2 : list (ndarray V)) :
  forall a, mkron_from a (l1 ++ l2) = mkron_from (mkron_from a l1) l2.
Proof.
  induction l1 as [|b l1 IH]; intros a; cbn [app mkron_from];
    [reflexivity | apply IH].
Qed.

(** X26. A Kronecker product of many factors can be taken in stages:
    [mkron] of a list is [mkron] of the product of any non-empty
    leading part followed by the remaining factors. *)
Theorem mkron_stages (l1 l2 : list (ndarray V)) :
  l1 <> [] ->
  mkron (l1 ++ l2) = (r <- mkron l1 ;; mkron (r :: l2)).
Proof.
  destruct l1 as [|a l1]; [contradiction|]. intros _.
  cbn [app mkron rbind]. now rewrite mkron_from_app.
Qed.

End KronExtras.

(** X25 on three matrices: the extents [(2, 3)], [(2, 1)] and [(3, 2)]
    multiply to [(12, 6)]. *)
Lemma mkron_shape_witness :
  exists r,
    mkron [arange_reshape 0 [2; 3]; arange_reshape 0 [2; 1];
           arange_reshape 0 [3; 2]] = Ok r /\
    shape r = [12; 6].
Proof.
  destruct (@mkron_shape Z _ _ (arange_reshape 0 [2; 3])
              [arange_reshape 0 [2; 1]; arange_reshape 0 [3; 2]])
    as (_ & _ & Hsh).
  destruct Hsh as (r & Hr & Hnd & Hext).
  - repeat constructor.
  - exists r. split; [exact Hr|].
    apply (nth_ext _ _ 0 0); [exact Hnd|].
    intros j Hj. fold (ndim r) in Hj. rewrite Hnd in Hj.
    destruct j as [|j]; [refine (Hext 0 _); unfold ndim; simpl; lia|].
    destruct j as [|j]; [refine (Hext 1 _); unfold ndim; simpl; lia|].
    unfold ndim in Hj. simpl in Hj. lia.
Defined.

Lemma mkron_stages_witness :
  mkron ([arange_reshape 0 [2; 3]; arange_reshape 0 [2; 1]]
         ++ [arange_reshape 0 [3; 2]])
  = (r <- mkron [arange_reshape 0 [2; 3]; arange_reshape 0 [2; 1]] ;;
     mkron (r :: [arange_reshape 0 [3; 2]])).
Proof.
  apply (@mkron_stages Z _ _
           [arange_reshape 0 [2; 3]; arange_reshape 0 [2; 1]]
           [arange_reshape 0 [3; 2]]).
  discriminate.
Defined.

(** ** [_generate]: the calls of the element factory *)

Lemma firstn_map_nth {A : Type} (d : A) (l : list A) (n : nat) :
  n <= length l -> firstn n l = map (fun i => nth i l d) (seq 0 n).
Proof.
  revert l. induction n as [|n IH]; intros l Hn; [reflexivity|].
  destruct l as [|x l]; [simpl in Hn; lia|].
  cbn [firstn seq map nth]. f_equal.
  rewrite <- seq_shift, map_map. apply IH. simpl in Hn. lia.
Qed.

Lemma skipn_nth_cons {A : Type} (d : A) (l : list A) (n : nat) :
  n < length l -> skipn n l = nth n l d :: skipn (S n) l.
Proof.
  revert l. induction n as [|n IH]; intros l Hn;
    (destruct l as [|x l]; [simpl in Hn; lia|]); [reflexivity|].
  cbn [skipn nth]. apply IH. simpl in Hn. lia.
Qed.

Lemma site_shapes_split (sites bdim : nat) (legs : nat -> list nat) :
  2 <= sites ->
  map (fun i => local_shape sites bdim (legs i) i) (seq 0 sites)
  = ([1] ++ legs 0 ++ [bdim])
    :: map (fun i => [bdim] ++ legs (S i) ++ [bdim]) (seq 0 (sites - 2))
    ++ [[bdim] ++ legs (sites - 1) ++ [1]].
Proof.
  intros Hs. destruct sites as [|[|m]]; try lia.
  replace (S (S m) - 2) with m by lia.
  replace (S (S m) - 1) with (S m) by lia.
  change (seq 0 (S (S m))) with (0 :: seq 1 (S m)). cbn [map].
  apply f_equal2; [reflexivity|].
  rewrite (seq_S m 1), map_app. cbn [map Nat.add]. apply f_equal2.
  - rewrite <- seq_shift, map_map. apply map_ext_in.
    intros i Hi. apply in_seq in Hi. unfold local_shape.
    destruct (Nat.eqb_spec (S i) 0); [lia|].
    destruct (Nat.eqb_spec (S i) (S (S m) - 1)); [lia | reflexivity].
  - unfold local_shape.
    destruct (Nat.eqb_spec (S m) 0); [lia|].
    destruct (Nat.eqb_spec (S m) (S (S m) - 1)); [reflexivity | lia].
Qed.

Section GenerateOrder.

Context {V G : Type} `{Dtype V}.

Lemma bind_ext {A B : Type} (m m' : M G A) (k k' : A -> M G B)
      (w : world G) :
  m w = m' w -> (forall a w1, k a w1 = k' a w1) ->
  bind m k w = bind m' k' w.
Proof.
  intros Hm Hk. unfold bind. rewrite Hm.
  destruct (m' w) as [[a|e] w1]; [apply Hk | reflexivity].
Qed.

Lemma mapM_ext_in {A B : Type} (f g : A -> M G B) (l : list A) :
  (forall x w, In x l -> f x w = g x w) ->
  forall w, mapM f l w = mapM g l w.
Proof.
  induction l as [|x l IH]; intros Hfg w; [reflexivity|].
  cbn [mapM]. apply bind_ext; [apply Hfg; now left|].
  intros y w1. apply bind_ext; [|reflexivity].
  apply IH. intros z w2 Hz. apply Hfg. now right.
Qed.

Lemma mapM_snoc {A B : Type} (f : A -> M G B) (l : list A) (z : A) :
  forall w,
    mapM f (l ++ [z]) w
    = (ys <~ mapM f l ;; y <~ f z ;; ret (ys ++ [y])) w.
Proof.
  induction l as [|x l IH]; intros w; cbn [app mapM].
  - unfold bind, ret. destruct (f z w) as [[y|e] w1]; reflexivity.
  - unfold bind, ret in *.
    destruct (f x w) as [[y|e] w1]; [|reflexivity].
    rewrite IH.
    destruct (mapM f l w1) as [[ys|e] w2]; [|reflexivity].
    destruct (f z w2) as [[y'|e] w3]; reflexivity.
Qed.

Lemma mapM_ends {A B : Type} (f : A -> M G B) (x z : A) (l : list A)
      (w : world G) :
  mapM f (x :: l ++ [z]) w
  = (a <~ f x ;; ts <~ mapM f l ;; b <~ f z ;; ret (a :: ts ++ [b])) w.
Proof.
  cbn [mapM]. apply bind_ext; [reflexivity|]. intros a w1.
  unfold bind at 1. rewrite mapM_snoc. unfold bind, ret.
  destruct (mapM f l w1) as [[ts|e] w2]; [|reflexivity].
  destruct (f z w2) as [[b|e] w3]; reflexivity.
Qed.

Lemma ints_shape (a b : nat) (l : list nat) :
  [PInt a] ++ map PInt l ++ [PInt b] = map PInt ([a] ++ l ++ [b]).
Proof. now rewrite !map_app. Qed.

Lemma ints_shape_cons (a b : nat) (l : list nat) :
  PInt a :: map PInt l ++ [PInt b] = map PInt ([a] ++ l ++ [b]).
Proof. apply ints_shape. Qed.


(** [_generate] as a traversal of the sites' shapes. *)
Lemma generate_as_mapM (sites : nat) (ldim : pyval) (bdim : nat)
        (legs : nat -> list nat) (func : list pyval -> M G (ndarray V))
        (w : world G) :
  2 <= sites -> site_legs sites ldim legs ->
  _generate sites ldim bdim func w
  = mapM (fun sh => func (map PInt sh))
         (map (fun i => local_shape sites bdim (legs i) i) (seq 0 sites)) w.
Proof.
  intros Hs Hlegs. rewrite (site_shapes_split sites bdim legs Hs).
  rewrite mapM_ends. cbv beta. unfold _generate, MPArray.
  destruct (Nat.ltb_spec 1 sites) as [_|]; [|lia]. cbn [negb].
  assert (Huniform : forall l,
            (ltens_l <~ func ([PInt 1] ++ map PInt l ++ [PInt bdim]) ;;
             ltenss <~ mapM (fun _ => func
                               ([PInt bdim] ++ map PInt l ++ [PInt bdim]))
                            (seq 0 (sites - 2)) ;;
             ltens_r <~ func ([PInt bdim] ++ map PInt l ++ [PInt 1]) ;;
             ret ([ltens_l] ++ ltenss ++ [ltens_r])) w
            = (a <~ func (map PInt ([1] ++ l ++ [bdim])) ;;
               ts <~ mapM (fun sh => func (map PInt sh))
                          (map (fun _ => [bdim] ++ l ++ [bdim])
                               (seq 0 (sites - 2))) ;;
               b <~ func (map PInt ([bdim] ++ l ++ [1])) ;;
               ret (a :: ts ++ [b])) w).
  { intros l. rewrite !ints_shape.
    apply bind_ext; [reflexivity|]. intros a w1.
    apply bind_ext; [|reflexivity]. symmetry.
    exact (mapM_map (fun sh => func (map PInt sh))
             (fun _ => [bdim] ++ l ++ [bdim]) (seq 0 (sites - 2)) w1). }
  destruct Hlegs as [n | l Hl | ll Hll].
  - cbn [has_iter negb]. exact (Huniform [n]).
  - destruct l as [|x l]; [contradiction|].
    cbn [flat has_iter map negb]. exact (Huniform (x :: l)).
  - destruct ll as [|l0 rest]; [simpl in Hll; lia|].
    cbn [nested has_iter map]. change (has_iter (flat l0)) with true.
    cbn [negb]. cbn [length] in Hll.
    rewrite (bind_ok _ _ w w (map PInt l0)) by reflexivity.
    rewrite ints_shape. cbn [nth].
    rewrite (skipn_nth_cons (PInt 0) (map flat rest) (sites - 2))
      by (rewrite length_map; lia).
    apply bind_ext; [reflexivity|]. intros a w1.
    apply bind_ext.
    + rewrite firstn_map, mapM_map.
      rewrite (firstn_map_nth [] rest (sites - 2)) by lia.
      rewrite !mapM_map. apply mapM_ext_in. intros i w2 _.
      rewrite (bind_ok _ _ w2 w2 (map PInt (nth i rest []))) by reflexivity.
      now rewrite ints_shape.
    + intros ts w2.
      rewrite (nth_map_in flat rest (sites - 2) (PInt 0) []) by lia.
      rewrite (bind_ok _ _ w2 w2 (map PInt (nth (sites - 2) rest [])))
        by reflexivity.
      rewrite ints_shape.
      replace (sites - 1) with (S (sites - 2)) by lia. reflexivity.
Qed.


Lemma mapM_fail_after {A B : Type} (f : A -> M G B) (l1 l2 : list A) (z : A)
      (e : exn) (w2 : world G) :
  forall (ys : list B) (w w1 : world G),
    mapM f l1 w = (Ok ys, w1) -> f z w1 = (Raise e, w2) ->
    mapM f (l1 ++ z :: l2) w = (Raise e, w2).
Proof.
  induction l1 as [|x l1 IH]; intros ys w w1 Hl Hz; cbn [app mapM] in *.
  - injection Hl as _ <-. now apply bind_raise.
  - apply bind_inv in Hl. destruct Hl as (y & w' & Hy & Hl).
    apply bind_inv in Hl. destruct Hl as (ys' & w'' & Hys & Hl).
    injection Hl as _ <-.
    rewrite (bind_ok _ _ _ _ _ Hy).
    apply bind_raise. eapply IH; eauto.
Qed.

(** The shapes of the sites [0 .. length pre] of a chain whose first
    per-site legs are [l0 :: pre], when none of them is the last site. *)
Lemma prefix_shapes (sites bdim : nat) (l0 : list nat)
      (pre : list (list nat)) :
  S (length pre) < sites ->
  map (fun i => local_shape sites bdim (nth i (l0 :: pre) []) i)
      (seq 0 (S (length pre)))
  = ([1] ++ l0 ++ [bdim]) :: map (fun l => [bdim] ++ l ++ [bdim]) pre.
Proof.
  intros Hlen. change (seq 0 (S (length pre))) with (0 :: seq 1 (length pre)).
  cbn [map nth]. apply f_equal2.
  - unfold local_shape. rewrite Nat.eqb_refl.
    destruct (Nat.eqb_spec 0 (sites - 1)); [lia | reflexivity].
  - rewrite <- seq_shift, map_map.
    transitivity (map (fun l => [bdim] ++ l ++ [bdim])
                      (map (fun i => nth i pre []) (seq 0 (length pre)))).
    + rewrite map_map. apply map_ext_in. intros i Hi. apply in_seq in Hi.
      cbn [nth]. unfold local_shape.
      destruct (Nat.eqb_spec (S i) 0); [lia|].
      destruct (Nat.eqb_spec (S i) (sites - 1)); [lia | reflexivity].
    + now rewrite <- (firstn_map_nth [] pre (length pre)), firstn_all.
Qed.

(** X28. With an element factory that does not fail, a sequence of
    per-site sequences in which the entry of some site after the first
    is an int fails with [TypeError] when that site is reached, the
    sites before it having been generated: the element factory has been
    run on the shapes of those sites, in order, and the failure leaves
    the random sources as these runs left them. *)
Theorem generate_nested_int (sites bdim n : nat) (pre : list (list nat))
        (post : list pyval) (func : list pyval -> M G (ndarray V))
        (w : world G) :
  2 <= sites -> pre <> [] -> length pre < sites -> func_returns func ->
  exists ts w',
    mapM (fun sh => func (map PInt sh))
         (map (fun i => local_shape sites bdim (nth i pre []) i)
              (seq 0 (length pre))) w = (Ok ts, w') /\
    length ts = length pre /\
    _generate sites (PSeq (map flat pre ++ PInt n :: post)) bdim func w
    = (Raise TypeError, w').
Proof.
  intros Hs Hpre Hlen Hf. destruct pre as [|l0 pre]; [contradiction|].
  change (length (l0 :: pre)) with (S (length pre)) in *.
  rewrite (prefix_shapes sites bdim l0 pre Hlen). cbn [mapM].
  destruct (Hf ([1] ++ l0 ++ [bdim]) w) as (a & w1 & Ha).
  destruct (mapM_ok (fun sh => func (map PInt sh)) (fun _ _ => True))
    with (l := map (fun l => [bdim] ++ l ++ [bdim]) pre) (w := w1)
    as (ts & w2 & Hts & HF).
  { intros sh w3. destruct (Hf sh w3) as (y & w4 & Hy).
    exists y, w4. split; [exact Hy | exact I]. }
  exists (a :: ts), w2. split; [|split].
  { rewrite (bind_ok _ _ _ _ _ Ha), (bind_ok _ _ _ _ _ Hts). reflexivity. }
  { cbn [length]. now rewrite <- (Forall2_length HF), length_map. }
  unfold _generate.
  destruct (Nat.ltb_spec 1 sites) as [_|]; [|lia].
  cbn [negb has_iter map app]. change (has_iter (flat l0)) with true.
  cbn [negb].
  rewrite (bind_ok _ _ w w (map PInt l0)) by reflexivity.
  rewrite ints_shape_cons.
  rewrite (bind_ok _ _ _ _ _ Ha).
  set (g := fun ld : pyval =>
              ld <~ lift (tuple ld) ;;
              func (PInt bdim :: ld ++ [PInt bdim])).
  assert (Hg : mapM g (map flat pre) w1 = (Ok ts, w2)).
  { rewrite <- Hts, !mapM_map. apply mapM_ext_in. intros l w3 _.
    unfold g. rewrite (bind_ok _ _ w3 w3 (map PInt l)) by reflexivity.
    now rewrite ints_shape_cons. }
  destruct (Nat.lt_ge_cases (length pre) (sites - 2)) as [Hlt | Hge].
  - rewrite firstn_app, length_map.
    rewrite firstn_all2 by (rewrite length_map; lia).
    replace (sites - 2 - length pre) with (S (sites - 3 - length pre)) by lia.
    cbn [firstn]. apply bind_raise.
    apply (mapM_fail_after g _ _ (PInt n) TypeError w2 ts w1 w2 Hg).
    reflexivity.
  - assert (E : length pre = sites - 2) by lia.
    rewrite firstn_app, length_map, E, Nat.sub_diag. cbn [firstn].
    rewrite app_nil_r, firstn_all2 by (rewrite length_map; lia).
    rewrite skipn_app, length_map, E, Nat.sub_diag. cbn [skipn].
    rewrite skipn_all2 by (rewrite length_map; lia). cbn [app].
    rewrite (bind_ok _ _ _ _ _ Hg). reflexivity.
Qed.

End GenerateOrder.


(** X28 at the specification [((2,), 3, (5,))] on three sites, with
    integer entries drawn from a counter: the first site costs
    [2 * (1*2*7) = 28] draws, and the failure comes after them. *)
Lemma generate_nested_int_witness :
  exists ts,
    mapM (fun sh => _zrandn (V:=Z) (G:=Z) sh (Some Supplied)) [[1; 2; 7]]
      {| np_random := 0%Z; supplied := 0%Z |}
    = (Ok ts, {| np_random := 0%Z; supplied := 28%Z |}) /\
    random_mpa (V:=Z) (G:=Z) 3 (PSeq [flat [2]; PInt 3; flat [5]]) 7
      (Some Supplied) {| np_random := 0%Z; supplied := 0%Z |}
    = (Raise TypeError, {| np_random := 0%Z; supplied := 28%Z |}).
Proof.
  destruct (generate_nested_int (V:=Z) (G:=Z) 3 7 3 [[2]] [flat [5]]
              (with_int_shape (fun sh => _zrandn (V:=Z) (G:=Z) sh (Some Supplied)))
              {| np_random := 0%Z; supplied := 0%Z |})
    as (ts & w' & Hts & _ & Hrun).
  - lia.
  - discriminate.
  - simpl. lia.
  - apply func_ok_returns, zrandn_func_ok.
  - vm_compute in Hts. injection Hts as <- <-.
    eexists. split; [vm_compute; reflexivity | exact Hrun].
Defined.

(** ** [_generate]: how it fails *)

Section GenerateFailures.

Context {V G : Type} `{Dtype V}.

(** With a leg specification that covers every site, an element factory
    that does not fail makes a build that does not fail. *)
Lemma generate_returns (sites : nat) (ldim : pyval) (bdim : nat)
      (legs : nat -> list nat) (func : list pyval -> M G (ndarray V))
      (w : world G) :
  2 <= sites -> site_legs sites ldim legs -> func_returns func ->
  exists c w', _generate sites ldim bdim func w = (Ok c, w') /\
               length c = sites.
Proof.
  intros Hs Hl Hf. rewrite (generate_as_mapM sites ldim bdim legs func w Hs Hl).
  destruct (mapM_ok (fun sh => func (map PInt sh)) (fun _ _ => True))
    with (l := map (fun i => local_shape sites bdim (legs i) i) (seq 0 sites))
         (w := w) as (c & w' & Hc & HF).
  { intros sh w1. destruct (Hf sh w1) as (a & w2 & Ha).
    exists a, w2. split; [exact Ha | exact I]. }
  exists c, w'. split; [exact Hc|].
  now rewrite <- (Forall2_length HF), length_map, length_seq.
Qed.

(** Of a sequence of per-site sequences with at least [sites] entries,
    only the first [sites] are used. *)
Lemma generate_surplus (sites : nat) (ll : list (list nat)) (bdim : nat)
      (func : list pyval -> M G (ndarray V)) (w : world G) :
  2 <= sites -> sites <= length ll ->
  _generate sites (nested ll) bdim func w
  = _generate sites (nested (firstn sites ll)) bdim func w.
Proof.
  intros Hs Hll.
  rewrite (generate_as_mapM sites (nested ll) bdim (fun i => nth i ll [])
             func w Hs (@legs_nested sites ll Hll)).
  rewrite (generate_as_mapM sites (nested (firstn sites ll)) bdim
             (fun i => nth i (firstn sites ll) []) func w Hs).
  - f_equal. apply map_ext_in. intros i Hi. apply in_seq in Hi.
    rewrite nth_firstn. destruct (Nat.ltb_spec i sites); [reflexivity | lia].
  - apply legs_nested. rewrite length_firstn. lia.
Qed.

(** C7, as the code has it.  [_generate] fails with [AssertionError],
    before anything else is done, when [sites < 2].  With at least two
    sites, a leg specification of a documented form and an element
    factory that does not fail, it fails exactly when the specification
    is a sequence of sequences with fewer than [sites] entries: with
    [IndexError], nothing having been generated, when the sequence is
    empty, and with [StopIteration] otherwise.  A sequence with [sites]
    entries or more does not fail: the build is that of its first
    [sites] entries, a chain of [sites] local tensors. *)
Theorem generate_failures (sites : nat) (ldim : pyval) (bdim : nat)
        (func : list pyval -> M G (ndarray V)) (w : world G) :
  (sites < 2 ->
     _generate sites ldim bdim func w = (Raise AssertionError, w)) /\
  (2 <= sites -> well_typed ldim -> func_returns func ->
     (is_ok (fst (_generate sites ldim bdim func w)) = false <->
      exists ll, ldim = nested ll /\ length ll < sites) /\
     (ldim = nested [] ->
        _generate sites ldim bdim func w = (Raise IndexError, w)) /\
     (forall ll, ldim = nested ll -> ll <> [] -> length ll < sites ->
        exists w', _generate sites ldim bdim func w
                   = (Raise StopIteration, w')) /\
     (forall ll, ldim = nested ll -> sites <= length ll ->
        _generate sites ldim bdim func w
        = _generate sites (nested (firstn sites ll)) bdim func w /\
        exists c w', _generate sites ldim bdim func w = (Ok c, w') /\
                     length c = sites)).
Proof.
  split.
  { intros Hs. unfold _generate.
    destruct (Nat.ltb_spec 1 sites) as [|_]; [lia|]. reflexivity. }
  intros Hs Hwt Hf. split; [|split; [|split]].
  - split.
    + intros Hfail.
      assert (Hok : forall legs, site_legs sites ldim legs -> False).
      { intros legs Hl.
        destruct (generate_returns sites ldim bdim legs func w Hs Hl Hf)
          as (c & w' & Hrun & _).
        rewrite Hrun in Hfail. discriminate. }
      destruct Hwt as [[n ->] | [[l ->] | [ll ->]]].
      * exfalso. exact (Hok _ (@legs_scalar sites n)).
      * destruct l as [|x l].
        -- exists []. split; [reflexivity | simpl; lia].
        -- exfalso. apply (Hok (fun _ => x :: l)).
           now apply legs_flat.
      * destruct (Nat.lt_ge_cases (length ll) sites) as [Hlt | Hge].
        -- exists ll. now split.
        -- exfalso. exact (Hok _ (@legs_nested sites ll Hge)).
    + intros (ll & -> & Hlt). destruct ll as [|l0 ll].
      * now rewrite generate_empty.
      * destruct (generate_short sites (l0 :: ll) bdim func w Hs
                    ltac:(discriminate) Hlt Hf) as (w' & Hrun).
        now rewrite Hrun.
  - intros ->. now apply generate_empty.
  - intros ll -> Hne Hlt. now apply generate_short.
  - intros ll -> Hge. split; [now apply generate_surplus|].
    exact (generate_returns sites (nested ll) bdim (fun i => nth i ll [])
             func w Hs (@legs_nested sites ll Hge) Hf).
Qed.

End GenerateFailures.

(** C7 on two sites: of three per-site tuples the first two are used;
    on three sites a single per-site tuple exhausts the iterator. *)
Lemma generate_failures_witness :
  (_generate 2 (nested [[2]; [3]; [4]]) 1
     (with_int_shape (fun shape => ret (np_zeros (V:=Z) shape))) w0
   = _generate 2 (nested [[2]; [3]]) 1
       (with_int_shape (fun shape => ret (np_zeros (V:=Z) shape))) w0) /\
  (exists w',
     _generate 3 (nested [[2]]) 1
       (with_int_shape (fun shape => ret (np_zeros (V:=Z) shape))) w0
     = (Raise StopIteration, w')).
Proof.
  split.
  - destruct (generate_failures (V:=Z) (G:=unit) 2 (nested [[2]; [3]; [4]]) 1
                (with_int_shape (fun shape => ret (np_zeros (V:=Z) shape))) w0)
      as [_ Hgen].
    destruct Hgen as (_ & _ & _ & Hlong).
    + lia.
    + right. right. exists [[2]; [3]; [4]]. reflexivity.
    + apply func_ok_returns, zeros_func_ok.
    + destruct (Hlong [[2]; [3]; [4]] eq_refl) as [E _]; [simpl; lia|].
      exact E.
  - destruct (generate_failures (V:=Z) (G:=unit) 3 (nested [[2]]) 1
                (with_int_shape (fun shape => ret (np_zeros (V:=Z) shape))) w0)
      as [_ Hgen].
    destruct Hgen as (_ & _ & Hshort & _).
    + lia.
    + right. right. exists [[2]]. reflexivity.
    + apply func_ok_returns, zeros_func_ok.
    + apply (Hshort [[2]] eq_refl); [discriminate | simpl; lia].
Defined.

(** ** [random_mpa]: how much is drawn *)

Section ChainDraws.

Context {V G : Type} `{Dtype V} `{Numeric V} `{Generator V G}.




End ChainDraws.


(** ** [block_diag]: sums of sums *)

Section BlockDiagNesting.

Context {V : Type} `{Dtype V}.

(** The extents, the blocks and the zeros outside them determine the
    block-diagonal sum. *)
Lemma bd_unique (sums : list (ndarray V)) (ax : list nat)
      (first : ndarray V) (n : nat) (r r' : ndarray V) :
  wf r -> wf r' ->
  Forall (fun a => ndim a = n) sums ->
  Forall (agrees n ax first) sums ->
  shape r = map (bd_extent sums ax first) (seq 0 n) ->
  shape r' = shape r ->
  (forall k a idx0, nth_error sums k = Some a -> in_range (shape a) idx0 ->
     item r (bd_shift sums ax k idx0) = item a idx0) ->
  (forall k a idx0, nth_error sums k = Some a -> in_range (shape a) idx0 ->
     item r' (bd_shift sums ax k idx0) = item a idx0) ->
  (forall idx, in_range (shape r) idx ->
     (forall k a, nth_error sums k = Some a ->
        exists j, In j ax /\
          ~ (bd_offset sums ax k j <= nth j idx 0
             < bd_offset sums ax k j + nth j (shape a) 0)) ->
     item r idx = zero) ->
  (forall idx, in_range (shape r) idx ->
     (forall k a, nth_error sums k = Some a ->
        exists j, In j ax /\
          ~ (bd_offset sums ax k j <= nth j idx 0
             < bd_offset sums ax k j + nth j (shape a) 0)) ->
     item r' idx = zero) ->
  r = r'.
Proof.
  intros Hwf Hwf' Hrank Hagree Hshape Hsh Hblock Hblock' Hzero Hzero'.
  apply ndarray_ext; [exact Hwf | exact Hwf' | now symmetry |].
  intros idx Hidx.
  pose proof (proj1 (in_range_nth _ _) Hidx) as [Hli Hni].
  rewrite Hshape, length_map, length_seq in Hli, Hni.
  set (inb := fun k =>
         match nth_error sums k with
         | Some a =>
             forallb (fun j => (bd_offset sums ax k j <=? nth j idx 0)
                               && (nth j idx 0
                                   <? bd_offset sums ax k j + nth j (shape a) 0))
                     ax
         | None => false
         end).
  destruct (existsb inb (seq 0 (length sums))) eqn:Eex.
  - apply existsb_exists in Eex. destruct Eex as (k & _ & Hk).
    unfold inb in Hk. destruct (nth_error sums k) as [a|] eqn:Ea; [|discriminate].
    rewrite forallb_forall in Hk.
    assert (Hbound : forall j, In j ax ->
              bd_offset sums ax k j <= nth j idx 0
              < bd_offset sums ax k j + nth j (shape a) 0).
    { intros j Hj. specialize (Hk j Hj). apply andb_true_iff in Hk.
      rewrite Nat.leb_le, Nat.ltb_lt in Hk. exact Hk. }
    assert (HaS : In a sums) by (eapply nth_error_In; eauto).
    assert (Hnda : ndim a = n).
    { rewrite Forall_forall in Hrank. now apply Hrank. }
    assert (Haga : agrees n ax first a).
    { rewrite Forall_forall in Hagree. now apply Hagree. }
    set (idx0 := map (fun j => nth j idx 0 - bd_offset sums ax k j) (seq 0 n)).
    assert (Hr0 : in_range (shape a) idx0).
    { apply in_range_nth. unfold idx0. rewrite length_map, length_seq.
      fold (ndim a). rewrite Hnda. split; [reflexivity|].
      intros j Hj. rewrite nth_map_seq by exact Hj.
      destruct (in_dec Nat.eq_dec j ax) as [Hin | Hnin].
      - specialize (Hbound j Hin). lia.
      - rewrite (bd_offset_unlisted sums ax k j Hnin), Nat.sub_0_r.
        specialize (Hni j Hj). rewrite nth_map_seq in Hni by exact Hj.
        unfold bd_extent in Hni.
        destruct (existsb (Nat.eqb j) ax) eqn:Ee.
        + apply existsb_eqb_In in Ee. contradiction.
        + now rewrite (Haga j Hj Hnin). }
    assert (Hshift : bd_shift sums ax k idx0 = idx).
    { unfold bd_shift, idx0. rewrite length_map, length_seq.
      apply (nth_ext _ _ 0 0); rewrite length_map, length_seq;
        [now rewrite Hli|].
      intros j Hj. rewrite !nth_map_seq by exact Hj.
      destruct (in_dec Nat.eq_dec j ax) as [Hin | Hnin].
      - specialize (Hbound j Hin). lia.
      - rewrite (bd_offset_unlisted sums ax k j Hnin). lia. }
    rewrite <- Hshift.
    now rewrite (Hblock k a idx0 Ea Hr0), (Hblock' k a idx0 Ea Hr0).
  - assert (Hout : forall k a, nth_error sums k = Some a ->
              exists j, In j ax /\
                ~ (bd_offset sums ax k j <= nth j idx 0
                   < bd_offset sums ax k j + nth j (shape a) 0)).
    { intros k a Ea.
      assert (Hk : inb k = false).
      { destruct (inb k) eqn:E; [|reflexivity].
        assert (Hex : existsb inb (seq 0 (length sums)) = true).
        { apply existsb_exists. exists k. split; [|exact E].
          assert (Hlt : k < length sums)
            by (apply nth_error_Some; congruence).
          apply in_seq. lia. }
        congruence. }
      unfold inb in Hk. rewrite Ea in Hk.
      apply forallb_false_witness in Hk. destruct Hk as (j & Hj & Hf).
      exists j. split; [exact Hj|]. intros [H1 H2].
      apply andb_false_iff in Hf. rewrite Nat.leb_nle, Nat.ltb_nlt in Hf.
      tauto. }
    now rewrite (Hzero idx Hidx Hout), (Hzero' idx Hidx Hout).
Qed.

Lemma bd_offset_prefix (l1 l2 : list (ndarray V)) (ax : list nat)
      (k j : nat) :
  k <= length l1 ->
  bd_offset (l1 ++ l2) ax k j = bd_offset l1 ax k j.
Proof.
  intros Hk. unfold bd_offset. rewrite firstn_app.
  replace (k - length l1) with 0 by lia. cbn [firstn].
  now rewrite app_nil_r.
Qed.

Lemma bd_offset_suffix (l1 l2 : list (ndarray V)) (ab : ndarray V)
      (ax : list nat) (m j : nat) :
  (In j ax ->
   nth j (shape ab) 0 = list_sum (map (fun a => nth j (shape a) 0) l1)) ->
  bd_offset (ab :: l2) ax (S m) j = bd_offset (l1 ++ l2) ax (length l1 + m) j.
Proof.
  intros Hab. unfold bd_offset.
  destruct (existsb (Nat.eqb j) ax) eqn:E; [|reflexivity].
  apply existsb_eqb_In in E. rewrite firstn_app_2. cbn [firstn map list_sum].
  rewrite map_app, list_sum_app, (Hab E). reflexivity.
Qed.

Lemma bd_shift_first (a : ndarray V) (l : list (ndarray V))
      (ax : list nat) (idx : list nat) :
  bd_shift (a :: l) ax 0 idx = idx.
Proof.
  unfold bd_shift.
  transitivity (map (fun j => nth j idx 0) (seq 0 (length idx)));
    [|apply map_nth_id].
  apply map_ext. intros j. unfold bd_offset. cbn [firstn map].
  destruct (existsb (Nat.eqb j) ax); simpl; lia.
Qed.

(** X30. Block-diagonal sums nest: for summands of one rank that agree
    on the unlisted axes, the sum of all of them is the sum of the
    block-diagonal sum of a leading part with the remaining summands. *)
Theorem block_diag_nested (first : ndarray V) (l1 l2 : list (ndarray V))
        (axes : list Z) (ax : list nat) :
  valid_axes (ndim first) axes ax ->
  Forall (fun a => ndim a = ndim first) (first :: l1 ++ l2) ->
  Forall (agrees (ndim first) ax first) (first :: l1 ++ l2) ->
  block_diag (first :: l1 ++ l2) axes
  = (r <- block_diag (first :: l1) axes ;; block_diag (r :: l2) axes).
Proof.
  intros Hv Hrank Hagree.
  set (n := ndim first) in *.
  assert (Hax : Forall (fun x => x < n) ax).
  { destruct Hv as (Hm & _). now destruct (mapM_opt_norm_axis_inv _ _ _ Hm). }
  rewrite Forall_forall in Hax.
  assert (Hbc : forall m (f : ndarray V) l,
             Forall (agrees m ax f) l -> Forall (broadcasts m ax f) l).
  { intros m f l. apply Forall_impl. intros a Ha j Hj Hnin. left.
    now apply Ha. }
  change (first :: l1 ++ l2) with ((first :: l1) ++ l2) in *.
  set (S1 := first :: l1) in *.
  pose proof (proj1 (Forall_app _ _ _) Hrank) as [Hrank1 Hrank2].
  pose proof (proj1 (Forall_app _ _ _) Hagree) as [Hagree1 Hagree2].
  (* the sum of all summands *)
  destruct (block_diag_item first (l1 ++ l2) axes ax Hv Hrank
              (Hbc _ _ _ Hagree)) as (r & Hrun & Hwf & Hshape & Hitem).
  change (first :: l1 ++ l2) with (S1 ++ l2) in Hrun, Hshape, Hitem.
  fold n in Hshape, Hitem.
  (* the sum of the leading part *)
  destruct (block_diag_item first l1 axes ax Hv Hrank1 (Hbc _ _ _ Hagree1))
    as (ab & Hrun1 & Hwf1 & Hshape1 & Hitem1).
  fold S1 n in Hrun1, Hshape1, Hitem1.
  assert (Hndab : ndim ab = n).
  { unfold ndim. now rewrite Hshape1, length_map, length_seq. }
  assert (Hab : forall j, j < n ->
                          nth j (shape ab) 0 = bd_extent S1 ax first j).
  { intros j Hj. rewrite Hshape1. now apply nth_map_seq. }
  assert (Hab_listed : forall j, In j ax ->
            nth j (shape ab) 0
            = list_sum (map (fun a : ndarray V => nth j (shape a) 0) S1)).
  { intros j Hj. rewrite (Hab j (Hax j Hj)). unfold bd_extent.
    now rewrite (proj2 (existsb_eqb_In j ax) Hj). }
  assert (Hab_other : forall j, j < n -> ~ In j ax ->
            nth j (shape ab) 0 = nth j (shape first) 0).
  { intros j Hj Hnin. rewrite (Hab j Hj). unfold bd_extent.
    destruct (existsb (Nat.eqb j) ax) eqn:E; [|reflexivity].
    apply existsb_eqb_In in E. contradiction. }
  (* the sum of that sum with the rest *)
  assert (Hv2 : valid_axes (ndim ab) axes ax) by now rewrite Hndab.
  assert (Hrk2 : Forall (fun a : ndarray V => ndim a = ndim ab) (ab :: l2)).
  { constructor; [reflexivity|]. revert Hrank2. apply Forall_impl.
    intros a Ha. now rewrite Hndab. }
  assert (Hag2 : Forall (agrees (ndim ab) ax ab) (ab :: l2)).
  { rewrite Hndab. constructor; [apply agrees_refl|].
    revert Hagree2. apply Forall_impl. intros a Ha j Hj Hnin.
    rewrite (Ha j Hj Hnin). symmetry. now apply Hab_other. }
  destruct (block_diag_item ab l2 axes ax Hv2 Hrk2 (Hbc _ _ _ Hag2))
    as (r2 & Hrun2 & Hwf2 & Hshape2 & Hitem2).
  rewrite Hrun1. cbn [rbind].
  rewrite Hrun, Hrun2. f_equal.
  pose proof (block_diag_block first (l1 ++ l2) axes ax r Hv Hrank Hagree
                Hshape Hitem) as HblockS.
  pose proof (block_diag_block first l1 axes ax ab Hv Hrank1 Hagree1
                Hshape1 Hitem1) as Hblock1.
  pose proof (block_diag_block ab l2 axes ax r2 Hv2 Hrk2 Hag2
                Hshape2 Hitem2) as Hblock2.
  change (first :: l1 ++ l2) with (S1 ++ l2) in HblockS.
  fold S1 in Hblock1.
  assert (Hsh2 : shape r2 = shape r).
  { rewrite Hshape2, Hshape, Hndab. apply map_ext_in.
    intros j Hj. apply in_seq in Hj. unfold bd_extent.
    destruct (existsb (Nat.eqb j) ax) eqn:E.
    - apply existsb_eqb_In in E. cbn [map list_sum].
      now rewrite map_app, list_sum_app, (Hab_listed j E).
    - apply Hab_other; [lia|]. intros Hin.
      apply existsb_eqb_In in Hin. congruence. }
  assert (Hoff1 : forall k j, k <= length S1 ->
            bd_offset (S1 ++ l2) ax k j = bd_offset S1 ax k j).
  { intros k j Hk. now apply bd_offset_prefix. }
  assert (Hoff2 : forall m j,
            bd_offset (ab :: l2) ax (S m) j
            = bd_offset (S1 ++ l2) ax (length S1 + m) j).
  { intros m j. apply bd_offset_suffix. apply Hab_listed. }
  apply (bd_unique (S1 ++ l2) ax first n r r2 Hwf Hwf2 Hrank Hagree Hshape
           Hsh2).
  - intros k a idx0 Ea Hr0. now apply HblockS.
  - intros k a idx0 Ea Hr0.
    destruct (Nat.lt_ge_cases k (length S1)) as [Hlt | Hge].
    + rewrite nth_error_app1 in Ea by exact Hlt.
      destruct (Hblock1 k a idx0 Ea Hr0) as [Hin1 E1].
      assert (Es : bd_shift (S1 ++ l2) ax k idx0 = bd_shift S1 ax k idx0).
      { unfold bd_shift. apply map_ext. intros j.
        rewrite Hoff1 by lia. reflexivity. }
      rewrite Es, <- E1.
      destruct (Hblock2 0 ab (bd_shift S1 ax k idx0) eq_refl Hin1)
        as [_ E2].
      now rewrite bd_shift_first in E2.
    + rewrite nth_error_app2 in Ea by exact Hge.
      destruct (Hblock2 (S (k - length S1)) a idx0 Ea Hr0) as [_ E2].
      rewrite <- E2. f_equal. unfold bd_shift. apply map_ext. intros j.
      rewrite Hoff2. now replace (length S1 + (k - length S1)) with k by lia.
  - intros idx Hidx Hout.
    apply (block_diag_outside first (l1 ++ l2) ax r Hitem idx Hidx Hout).
  - intros idx Hidx Hout.
    assert (Hidx2 : in_range (shape r2) idx) by now rewrite Hsh2.
    pose proof (proj1 (in_range_nth _ _) Hidx) as [Hli Hni].
    rewrite Hshape, length_map, length_seq in Hli, Hni.
    destruct (forallb (fun j => nth j idx 0 <? nth j (shape ab) 0) ax)
      eqn:Ein.
    + (* inside the block of the leading sum *)
      rewrite forallb_forall in Ein.
      assert (Hinab : in_range (shape ab) idx).
      { apply in_range_nth. fold (ndim ab). rewrite Hndab.
        split; [exact Hli|]. intros j Hj.
        destruct (in_dec Nat.eq_dec j ax) as [Hin | Hnin].
        - apply Nat.ltb_lt. now apply Ein.
        - rewrite (Hab_other j Hj Hnin).
          specialize (Hni j Hj). rewrite nth_map_seq in Hni by exact Hj.
          unfold bd_extent in Hni.
          destruct (existsb (Nat.eqb j) ax) eqn:E; [|exact Hni].
          apply existsb_eqb_In in E. contradiction. }
      destruct (Hblock2 0 ab idx eq_refl Hinab) as [_ E2].
      rewrite bd_shift_first in E2. rewrite E2.
      apply (block_diag_outside first l1 ax ab Hitem1 idx Hinab).
      intros k a Ea. fold S1 in Ea.
      assert (Hk : k < length S1) by (apply nth_error_Some; congruence).
      destruct (Hout k a) as (j & Hj & Hnot).
      { now rewrite nth_error_app1 by exact Hk. }
      exists j. split; [exact Hj|]. fold S1.
      now rewrite <- (Hoff1 k j) by lia.
    + (* outside it *)
      apply (block_diag_outside ab l2 ax r2 Hitem2 idx Hidx2).
      intros k a Ea. destruct k as [|m].
      * injection Ea as <-.
        apply forallb_false_witness in Ein. destruct Ein as (j & Hj & Hf).
        exists j. split; [exact Hj|]. apply Nat.ltb_nlt in Hf.
        unfold bd_offset. cbn [firstn map].
        destruct (existsb (Nat.eqb j) ax); simpl; lia.
      * cbn [nth_error] in Ea.
        destruct (Hout (length S1 + m) a) as (j & Hj & Hnot).
        { rewrite nth_error_app2 by lia.
          now replace (length S1 + m - length S1) with m by lia. }
        exists j. split; [exact Hj|]. now rewrite Hoff2.
Qed.

End BlockDiagNesting.

(** X30 at three matrices summed along both axes. *)
Lemma block_diag_nested_witness :
  block_diag (arange_reshape 0 [2; 2]
              :: [arange_reshape 4 [1; 2]] ++ [arange_reshape 6 [2; 1]])
             [0; 1]%Z
  = (r <- block_diag [arange_reshape 0 [2; 2]; arange_reshape 4 [1; 2]]
                     [0; 1]%Z ;;
     block_diag (r :: [arange_reshape 6 [2; 1]]) [0; 1]%Z).
Proof.
  apply (@block_diag_nested Z _ (arange_reshape 0 [2; 2])
           [arange_reshape 4 [1; 2]] [arange_reshape 6 [2; 1]]
           [0; 1]%Z [0; 1]).
  - split; [reflexivity | split; [repeat constructor; simpl; lia|]].
    discriminate.
  - repeat constructor.
  - repeat constructor; intros j Hj Hn; exfalso; apply Hn;
      unfold ndim in Hj; simpl in Hj; simpl;
      destruct j as [|[|j]]; auto; lia.
Defined.
